(** * getSitemapUrls: a shallow embedding of [src/index.js]

    The program is one asynchronous JavaScript function, [getSitemapUrls],
    with its local helpers [toTs], [firstTs] and [includeByFrom], and one
    work-queue loop that fetches XML documents, recognises their dialect and
    harvests URLs.

    Conventions of the embedding:
    - a JavaScript number is an IEEE-754 binary64 value, i.e. Rocq's
      primitive [float];
    - a JavaScript string whose code units are all below 256 is a
      [string], one character per code unit (U+00A0 is the character 160,
      not a pair of UTF-8 bytes); on these strings [trim], [toLowerCase],
      [\s] and the character classes of the regular expressions are the
      real ones.  A string with a code unit from 256 on is outside the
      embedding;
    - a parsed document is a tree of JavaScript values ([value]); an object
      is the list of its own enumerable properties in [Object.entries]
      order;
    - the two [Set]s of the driver are [gset string];
    - what the program calls and does not define (the runtime's
      [Date.parse], [URL] and number printing, and the pipeline of [fetch],
      [gunzipSync], [decodeBuffer] and [XMLParser] that turns a URL into a
      parsed document) is the [Runtime] record the whole development is
      parametric in. *)

From Stdlib Require Import Floats Uint63 ZArith Ascii String.
From stdpp Require Import gmap strings list.

Local Open Scope string_scope.
Local Open Scope list_scope.
Set Warnings "-clear-no-such-hyp".

(** ** Characters and strings *)

Definition chars (s : string) : list ascii := list_ascii_of_string s.
Definition str (l : list ascii) : string := string_of_list_ascii l.

Definition in_range (lo hi c : ascii) : bool :=
  (N_of_ascii lo <=? N_of_ascii c)%N && (N_of_ascii c <=? N_of_ascii hi)%N.

(** [\d], [[a-z]], [[A-Z]] *)
Definition is_digit : ascii → bool := in_range "0" "9".
Definition is_lower : ascii → bool := in_range "a" "z".
Definition is_upper : ascii → bool := in_range "A" "Z".
Definition is_alpha (c : ascii) : bool := is_lower c || is_upper c.

(** [\s] and the white space [trim] strips, among the code units below
    256: TAB, LF, VT, FF, CR, SP and the no-break space U+00A0. *)
Definition is_space (c : ascii) : bool :=
  let n := N_of_ascii c in
  ((9 <=? n)%N && (n <=? 13)%N) || (n =? 32)%N || (n =? 160)%N.

Definition is_char (a : ascii) : ascii → bool := Ascii.eqb a.

(** The upper-case letters of Latin-1 beyond ASCII: U+00C0 to U+00DE
    without the multiplication sign U+00D7. *)
Definition is_upper_latin1 (c : ascii) : bool :=
  let n := N_of_ascii c in (192 <=? n)%N && (n <=? 222)%N && negb (n =? 215)%N.

Definition lower_char (c : ascii) : ascii :=
  if is_upper c || is_upper_latin1 c then ascii_of_N (N_of_ascii c + 32) else c.

(** [String.prototype.toLowerCase] *)
Definition toLowerCase (s : string) : string := str (map lower_char (chars s)).

Fixpoint drop_while (p : ascii → bool) (l : list ascii) : list ascii :=
  match l with
  | [] => []
  | c :: r => if p c then drop_while p r else l
  end.

(** [String.prototype.trim] *)
Definition trim (s : string) : string :=
  str (rev (drop_while is_space (rev (drop_while is_space (chars s))))).

Fixpoint starts_with (p l : list ascii) : bool :=
  match p, l with
  | [], _ => true
  | a :: p', c :: l' => Ascii.eqb a c && starts_with p' l'
  | _ :: _, [] => false
  end.

Definition ends_with (p l : list ascii) : bool := starts_with (rev p) (rev l).

(** A fixed-length run of character classes matched at the head of the input;
    the result is the unmatched rest. *)
Fixpoint match_shape (shape : list (ascii → bool)) (l : list ascii) : option (list ascii) :=
  match shape, l with
  | [], _ => Some l
  | p :: ps, c :: r => if p c then match_shape ps r else None
  | _ :: _, [] => None
  end.

(** [p+] at the head of the input (greedy); the result is the rest. *)
Definition some_of (p : ascii → bool) (l : list ascii) : option (list ascii) :=
  match l with
  | c :: r => if p c then Some (drop_while p r) else None
  | [] => None
  end.

(** [s.replace(" ", "T")]: only the first blank is replaced. *)
Fixpoint replace_blank (l : list ascii) : list ascii :=
  match l with
  | [] => []
  | c :: r => if Ascii.eqb c " " then "T"%char :: r else c :: replace_blank r
  end.

(** ** The regular expressions of the source *)

Definition strip_minus (l : list ascii) : list ascii :=
  match l with
  | c :: r => if Ascii.eqb c "-" then r else l
  | [] => []
  end.

(** [/^-?\d{9,13}$/] *)
Definition re_epoch (s : string) : bool :=
  let d := strip_minus (chars s) in
  forallb is_digit d && (9 <=? length d)%nat && (length d <=? 13)%nat.

(** [/^\d{8}$/] *)
Definition re_basic_date (s : string) : bool :=
  forallb is_digit (chars s) && (length (chars s) =? 8)%nat.

Definition d4_d2_d2 : list (ascii → bool) :=
  [is_digit; is_digit; is_digit; is_digit; is_char "-";
   is_digit; is_digit; is_char "-"; is_digit; is_digit].

(** [/^\d{4}-\d{2}-\d{2}[ T]\d{2}:\d{2}:\d{2}$/] *)
Definition re_unzoned (s : string) : bool :=
  match match_shape
          (d4_d2_d2 ++
           [(λ c, is_char " " c || is_char "T" c);
            is_digit; is_digit; is_char ":"; is_digit; is_digit; is_char ":";
            is_digit; is_digit]) (chars s) with
  | Some [] => true
  | _ => false
  end.

(** [/^\d{4}-\d{2}-\d{2}/] *)
Definition re_iso_prefix (s : string) : bool :=
  bool_decide (is_Some (match_shape d4_d2_d2 (chars s))).

(** [/^[A-Z][a-z]{2},/] *)
Definition re_weekday (s : string) : bool :=
  bool_decide (is_Some (match_shape [is_upper; is_lower; is_lower; is_char ","] (chars s))).

(** [/^[A-Z][a-z]{2}\s+\d{1,2},\s+\d{4}/] *)
Definition re_month_day (s : string) : bool :=
  match match_shape [is_upper; is_lower; is_lower] (chars s) with
  | Some r1 =>
      match some_of is_space r1 with
      | Some (d :: r2) =>
          is_digit d &&
          let r3 := match r2 with
                    | d' :: r => if is_digit d' then r else r2
                    | [] => r2
                    end in
          match r3 with
          | c :: r4 =>
              is_char "," c &&
              match some_of is_space r4 with
              | Some r5 =>
                  bool_decide (is_Some (match_shape [is_digit; is_digit; is_digit; is_digit] r5))
              | None => false
              end
          | [] => false
          end
      | _ => false
      end
  | None => false
  end.

(** The character class [[A-Za-z0-9._~!$&'()*+,;=:@/%-]]. *)
Definition is_path_char (c : ascii) : bool :=
  is_alpha c || is_digit c ||
  existsb (Ascii.eqb c) (chars "._~!$&'()*+,;=:@/%-").

(** [/^(https?:)?\/\/|^[a-z]+:\/\/|^\/[A-Za-z0-9._~!$&'()*+,;=:@/%-]+/i] *)
Definition urlLike (s : string) : bool :=
  let l := chars s in
  let low := chars (toLowerCase s) in
  starts_with (chars "//") low || starts_with (chars "http://") low
  || starts_with (chars "https://") low
  || match some_of is_alpha l with
     | Some r => starts_with (chars "://") r
     | None => false
     end
  || match l with
     | c :: c' :: _ => is_char "/" c && is_path_char c'
     | _ => false
     end.

(** [/(^|:)(w1|...|wn)$/i]: the key is one of the words, or ends in a colon
    followed by one of them. *)
Definition key_like (words : list string) (k : string) : bool :=
  let low := toLowerCase k in
  existsb (λ w, String.eqb low w || ends_with (":"%char :: chars w) (chars low)) words.

Definition dateKeyLike : string → bool :=
  key_like ["lastmod"; "updated"; "pubdate"; "date"; "modified"; "issued"; "created";
            "time"; "timestamp"; "publication_date"; "upload_date"; "expiration_date";
            "release_date"].

Definition urlKeyLike : string → bool :=
  key_like ["loc"; "url"; "link"; "href"; "canonical"; "@href"; "@_href"].

(** The five value shapes of the generic fallback that mark a date. *)
Definition dateValueLike (sv : string) : bool :=
  re_epoch sv || re_basic_date sv || re_iso_prefix sv || re_weekday sv || re_month_day sv.

(** ** Numbers *)

Definition isFinite (x : float) : bool := negb (is_nan x || is_infinity x).

Definition digit_val (c : ascii) : Z := Z.of_N (N_of_ascii c) - 48.

Definition digits_val (l : list ascii) : Z :=
  fold_left (λ acc c, acc * 10 + digit_val c)%Z l 0%Z.

Definition float_of_Z (z : Z) : float := of_uint63 (Uint63.of_Z z).

(** [Number(s)] on the strings [re_epoch] accepts: a decimal integer below
    [10^13 < 2^53], which binary64 holds exactly; the sign is applied to the
    magnitude, so that ["-000000000"] is the negative zero. *)
Definition Number_epoch (s : string) : float :=
  match chars s with
  | c :: r =>
      if Ascii.eqb c "-" then (- float_of_Z (digits_val r))%float
      else float_of_Z (digits_val (c :: r))
  | [] => 0%float
  end.

(** ** JavaScript values

    [JFun] is a built-in function object (the program meets one when it reads
    the property [link] of a string: [String.prototype.link]); [src] is the
    text [String()] prints for it.  [JDate t] is a [Date] with time value
    [t]. *)

#[warnings="-register-all"] Inductive value : Type :=
| JUndef
| JNull
| JBool (b : bool)
| JNum (x : float)
| JStr (s : string)
| JFun (src : string)
| JDate (t : float)
| JArr (xs : list value)
| JObj (kvs : list (string * value)).

Fixpoint lookup_key (k : string) (kvs : list (string * value)) : value :=
  match kvs with
  | [] => JUndef
  | (k', v) :: r => if String.eqb k' k then v else lookup_key k r
  end.

(** [v?.k] (and [v.k] where the source has already tested [v]), for the
    property names the program reads.  Of the receivers that are not plain
    objects only strings answer one of those names, [link]. *)
Definition get (v : value) (k : string) : value :=
  match v with
  | JObj kvs => lookup_key k kvs
  | JStr _ => if String.eqb k "link" then JFun "function link() { [native code] }" else JUndef
  | _ => JUndef
  end.

(** [!!v] *)
Definition truthy (v : value) : bool :=
  match v with
  | JUndef | JNull => false
  | JBool b => b
  | JNum x => negb (PrimFloat.is_zero x || PrimFloat.is_nan x)
  | JStr s => negb (String.eqb s "")
  | JFun _ | JDate _ | JArr _ | JObj _ => true
  end.

(** [v == null] *)
Definition nullish (v : value) : bool :=
  match v with
  | JUndef | JNull => true
  | _ => false
  end.

(** [a || b], [a && b], [a ?? b] *)
Definition js_or (a b : value) : value := if truthy a then a else b.
Definition js_and (a b : value) : value := if truthy a then b else a.
Definition js_coalesce (a b : value) : value := if nullish a then b else a.

Declare Scope js_scope.
Delimit Scope js_scope with js.
Bind Scope js_scope with value.
Notation "v ?. k" := (get v k) (at level 25, left associativity, k at level 0) : js_scope.
Notation "a ||| b" := (js_or a b) (at level 50, left associativity) : js_scope.
Notation "a &&& b" := (js_and a b) (at level 40, left associativity) : js_scope.
Notation "a ?? b" := (js_coalesce a b) (at level 50, left associativity) : js_scope.
Local Open Scope js_scope.

(** [typeof v === "object"] *)
Definition typeof_object (v : value) : bool :=
  match v with
  | JNull | JDate _ | JArr _ | JObj _ => true
  | _ => false
  end.

(** [Array.isArray(v) ? v : [v]] *)
Definition as_array (v : value) : list value :=
  match v with
  | JArr xs => xs
  | _ => [v]
  end.

(** [v ? (Array.isArray(v) ? v : [v]) : []] *)
Definition as_array_or_empty (v : value) : list value :=
  if truthy v then as_array v else [].

(** [Object.entries(v)] for a [v] with [typeof v === "object"] that is not
    an array: a [Date] has no own enumerable property. *)
Definition entries (v : value) : list (string * value) :=
  match v with
  | JObj kvs => kvs
  | _ => []
  end.

(** [x.toLowerCase()] for an [x] that is not nullish: it is a [TypeError]
    unless [x] is a string ([None]). *)
Definition lowerCase (x : value) : option string :=
  match x with
  | JStr s => Some (toLowerCase s)
  | _ => None
  end.

(** ** The collaborators

    What the loop does with a response between [fetch] and the dialect test
    (lines 103-121) has three outcomes: reading the body rejects, which is
    not caught ([BodyError]); the decoded text does not parse, which skips
    the document ([NotXml]); the parser returns a tree. *)

Inductive body : Type :=
| BodyError
| NotXml
| Parsed (data : value).

Record response : Type := mkResponse {
  res_ok : bool;          (* [res.ok] *)
  res_url : string;       (* [res.url], the URL after redirects *)
  res_body : body }.

(** [const base = res.url || current] *)
Definition docBase (current : string) (res : response) : string :=
  if String.eqb (res_url res) "" then current else res_url res.

Record Runtime : Type := mkRuntime {
  Date_parse : string → float;                 (* [Date.parse(s)] *)
  Number_toString : float → string;            (* [String(x)] for a number *)
  Date_toString : float → string;              (* [String(d)] for a Date *)
  (* [new URL(ref, base).toString()]; [None] when the constructor throws *)
  URL_resolve : string → string → option string;
  (* [await fetch(u, {redirect: "follow"})]; [None] when it throws *)
  fetch : string → option response }.

Inductive error : Type :=
| InvalidFromDate     (* [new Error('Invalid "fromDate"')] *)
| TypeError           (* [.toLowerCase] of a value that has no such method *)
| BodyReadError.      (* [res.arrayBuffer()] rejected *)

(** ** The state of one traversal

    [queue] is kept top first: [queue.push(u)] is [u :: queue] and
    [queue.pop()] takes the head.  [results] is in push order.  Two fields
    record effects and are never read by the program: [fetched], the
    arguments of the calls to [fetch], and [emitted], the URLs that reached
    a [seen.has] test, both in order. *)

Record state : Type := mkState {
  queue : list string;
  visited : gset string;
  results : list string;
  seen : gset string;
  fetched : list string;
  emitted : list string }.

Definition set_queue (q : list string) (st : state) : state :=
  mkState q (visited st) (results st) (seen st) (fetched st) (emitted st).

Definition visit (u : string) (st : state) : state :=
  mkState (queue st) ({[u]} ∪ visited st) (results st) (seen st) (fetched st) (emitted st).

Definition log_fetch (u : string) (st : state) : state :=
  mkState (queue st) (visited st) (results st) (seen st) (fetched st ++ [u]) (emitted st).

Definition note (u : string) (st : state) : state :=
  mkState (queue st) (visited st) (results st) (seen st) (fetched st) (emitted st ++ [u]).

(** [seen.add(abs); results.push(abs)] *)
Definition push (abs : string) (st : state) : state :=
  mkState (queue st) (visited st) (results st ++ [abs]) ({[abs]} ∪ seen st)
          (fetched st) (emitted st).

(** [if (!seen.has(abs)) { seen.add(abs); results.push(abs); }] *)
Definition emit (abs : string) (st : state) : state :=
  let st := note abs st in
  if decide (abs ∈ seen st) then st else push abs st.

Inductive outcome : Type :=
| Ok (st : state)
| Throw (e : error) (st : state)   (* an exception leaves the function *)
| Timeout.                         (* the fuel of the model ran out *)

(** [for (const x of l) body], where [body] may throw. *)
Fixpoint for_each {A} (f : A → state → outcome) (l : list A) (st : state) : outcome :=
  match l with
  | [] => Ok st
  | x :: r =>
      match f x st with
      | Ok st' => for_each f r st'
      | o => o
      end
  end.

Fixpoint vsize (v : value) : nat :=
  match v with
  | JArr xs => S (list_sum (map vsize xs))
  | JObj kvs => S (list_sum (map (λ kv, vsize kv.2) kvs))
  | _ => 1
  end.

Definition stack_size (stack : list value) : nat := list_sum (map vsize stack).

(** ** The program *)

Section Program.

Context (rt : Runtime).

(** [String(v)] where it returns: on a value none of whose objects owns a
    property [toString] or [valueOf] ([plain], further down, where
    [String_js] gives the outcome of [String] in full). *)
Fixpoint String_ (v : value) : string :=
  match v with
  | JUndef => "undefined"
  | JNull => "null"
  | JBool true => "true"
  | JBool false => "false"
  | JNum x => Number_toString rt x
  | JStr s => s
  | JFun src => src
  | JDate t => Date_toString rt t
  | JArr xs =>
      String.concat ","
        (map (λ x, match x with JUndef | JNull => "" | _ => String_ x end) xs)
  | JObj _ => "[object Object]"
  end.

(** [n < 1e12 ? n * 1000 : n] *)
Definition scale (n : float) : float :=
  if (n <? 1e12)%float then (n * 1000)%float else n.

(** [v === ""] *)
Definition is_empty_string (v : value) : bool :=
  match v with
  | JStr s => String.eqb s ""
  | _ => false
  end.

(** [toTs], lines 13-43.  The three calendar rules fall through to the next
    one when [Date.parse] gives no finite value; they are written innermost
    (last) rule first. *)
Definition toTs (v : value) : float :=
  if nullish v || is_empty_string v then nan
  else match v with
  | JDate t => t
  | JNum x => scale x
  | _ =>
      let s := trim (String_ v) in
      if re_epoch s then scale (Number_epoch s)
      else
        let general :=
          let t := Date_parse rt s in
          if isFinite t then t else nan in
        let unzoned :=
          if re_unzoned s then
            let t := Date_parse rt (str (replace_blank (chars s)) ++ "Z") in
            if isFinite t then t else general
          else general in
        if re_basic_date s then
          let y := substring 0 4 s in
          let m := substring 4 2 s in
          let d := substring 6 2 s in
          let t := Date_parse rt (y ++ "-" ++ m ++ "-" ++ d ++ "T00:00:00Z") in
          if isFinite t then t else unzoned
        else unzoned
  end.

(** [firstTs], lines 45-51. *)
Fixpoint firstTs (vals : list value) : float :=
  match vals with
  | [] => nan
  | v :: r => let t := toTs v in if isFinite t then t else firstTs r
  end.

(** [includeByFrom], line 53; [fromTs] is [null] or a number. *)
Definition includeByFrom (ts : float) (fromTs : option float) : bool :=
  match fromTs with
  | None => true
  | Some lb => isFinite ts && (lb <=? ts)%float
  end.

(** [try { const abs = new URL(ref, base).toString();
          if (!seen.has(abs)) { seen.add(abs); results.push(abs); } } catch {}] *)
Definition try_emit (ref base : string) (st : state) : state :=
  match URL_resolve rt ref base with
  | Some abs => emit abs st
  | None => st
  end.

Section Document.

(** One document: its base URL and the lower bound of the call. *)
Context (base : string) (fromTs : option float).

(** *** 1) Sitemap index, lines 127-139 *)

Definition sitemapLoc (it : value) : value :=
  it?."loc" ||| it?."link" ||| (it?."url" &&& it?."url"?."loc").

Definition indexEntry (it : value) (st : state) : outcome :=
  let loc := sitemapLoc it in
  if negb (truthy loc) then Ok st
  else match URL_resolve rt (trim (String_ loc)) base with
       | Some abs =>
           if decide (abs ∈ visited st) then Ok st else Ok (set_queue (abs :: queue st) st)
       | None => Ok st
       end.

Definition sitemapIndex (sitemap : value) : state → outcome :=
  for_each indexEntry (as_array sitemap).

(** *** 2) URL set, lines 143-221 *)

Definition lastmodOf (it : value) : value :=
  it?."lastmod" ?? it?."lastModified" ?? it?."modified" ?? it?."changeDate".

Definition newsDates (it : value) : list value :=
  let newsNode := it?."news" ||| it?."news_news" in
  [newsNode?."publication_date"; newsNode?."published"; newsNode?."updated";
   newsNode?."pubDate"; it?."news:publication_date"].

Definition videoDates (it : value) : list value :=
  let vid := it?."video" ||| it?."video_video" in
  [vid?."publication_date"; vid?."upload_date"; vid?."expiration_date";
   vid?."live_stream_start_time"; vid?."live_stream_end_time"; vid?."release_date"].

(** Lines 150-175: [firstTs(lastmod, newsTs, videoTs)]. *)
Definition urlTs (it : value) : float :=
  let lastmod := lastmodOf it in
  let newsTs := firstTs (newsDates it) in
  let videoTs := firstTs (videoDates it) in
  firstTs [lastmod; JNum newsTs; JNum videoTs].

Definition altHref (l : value) : value :=
  l?."href" ?? l?."@_href" ?? l?."url" ?? JNull.

Definition altRel (l : value) : option string :=
  lowerCase (l?."rel" ?? l?."@_rel" ?? JStr "alternate").

(** The body of the loop over the alternates, lines 203-218; [ts] is the
    timestamp of the enclosing entry. *)
Definition altLink (ts : float) (l : value) (st : state) : outcome :=
  let href := altHref l in
  match altRel l with
  | None => Throw TypeError st
  | Some rel =>
      if negb (truthy href) || negb (String.eqb rel "alternate") then Ok st
      else match URL_resolve rt (trim (String_ href)) base with
           | Some absAlt =>
               let st := note absAlt st in
               if decide (absAlt ∈ seen st) then Ok st
               else if includeByFrom ts fromTs then Ok (push absAlt st)
               else Ok st
           | None => Ok st
           end
  end.

Definition altLinks (it : value) : list value :=
  let xh := it?."xhtml_link" ||| it?."xhtml" ||| it?."link" in
  match xh with
  | JArr xs => xs
  | _ => if truthy xh then [xh] else []
  end.

Definition urlEntry (it : value) (st : state) : outcome :=
  let loc := it?."loc" in
  let ts := urlTs it in
  let include :=
    match fromTs with
    | None => truthy loc
    | Some _ => truthy loc && includeByFrom ts fromTs
    end in
  if negb include then Ok st
  else
    let st := try_emit (trim (String_ loc)) base st in
    for_each (altLink ts) (altLinks it) st.

Definition urlSet (url : value) : state → outcome :=
  for_each urlEntry (as_array url).

(** The tail shared by the RSS, Atom and RDF loops:
    [if (!link) continue; if (!includeByFrom(ts, fromTs)) continue;
     try { ... results.push(abs) ... } catch {}] *)
Definition feedItem (link : value) (ts : float) (st : state) : state :=
  if negb (truthy link) then st
  else if negb (includeByFrom ts fromTs) then st
  else try_emit (trim (String_ link)) base st.

(** *** 3) RSS 2.0, lines 224-243 *)

Definition rssLink (it : value) : value :=
  it?."link" ||| it?."enclosure"?."url" ||| it?."guid".

Definition rssDates (it : value) : list value :=
  [it?."pubDate"; it?."updated"; it?."date"; it?."dc:date"; it?."dcterms:modified";
   it?."issued"].

Definition rssTs (it : value) : float := firstTs (rssDates it).

Definition rssItem (it : value) (st : state) : outcome :=
  Ok (feedItem (rssLink it) (rssTs it) st).

Definition rss (ch : value) : state → outcome :=
  for_each rssItem (as_array_or_empty (ch?."item")).

(** *** 4) Atom, lines 246-293 *)

(** Lines 255-256; [None] is the [TypeError] of [.toLowerCase]. *)
Definition atomRel (l : value) : option string :=
  lowerCase (l?."rel" ||| l?."@_rel" ||| JStr "alternate").

Definition atomHref (l : value) : value := l?."href" ||| l?."@_href".

(** The loop of lines 254-262 over the links that remain, from the current
    value of [chosen]; [None] when the loop throws. *)
Fixpoint chooseLink (L : list value) (chosen : value) : option value :=
  match L with
  | [] => Some chosen
  | l :: L' =>
      match atomRel l with
      | None => None
      | Some rel =>
          let href := atomHref l in
          let chosen := if negb (truthy chosen) then href else chosen in
          if String.eqb rel "alternate" && truthy href then Some href
          else chooseLink L' chosen
      end
  end.

(** Lines 250-268. *)
Definition atomLink (it : value) : option value :=
  let L := it?."link" in
  match L with
  | JArr xs => chooseLink xs JNull
  | _ =>
      if truthy L && typeof_object L then Some (atomHref L)
      else match L with
           | JStr _ => Some L
           | _ => Some JNull
           end
  end.

Definition atomDates (it : value) : list value :=
  [it?."updated"; it?."published"; it?."issued"; it?."dc:date"; it?."dcterms:modified";
   it?."updated_at"; it?."created_at"].

Definition atomTs (it : value) : float := firstTs (atomDates it).

Definition atomEntry (it : value) (st : state) : outcome :=
  match atomLink it with
  | None => Throw TypeError st
  | Some linkVal => Ok (feedItem linkVal (atomTs it) st)
  end.

Definition atom (feed : value) : state → outcome :=
  for_each atomEntry (as_array_or_empty (feed?."entry")).

(** *** 5) RDF / RSS 1.0, lines 296-314 *)

Definition rdfLink (it : value) : value :=
  it?."link" ||| it?."rss:link" ||| it?."rdf:about" ||| it?."guid".

Definition rdfDates (it : value) : list value :=
  [it?."dc:date"; it?."dcterms:modified"; it?."pubDate"; it?."date"; it?."issued"].

Definition rdfTs (it : value) : float := firstTs (rdfDates it).

Definition rdfItem (it : value) (st : state) : outcome :=
  Ok (feedItem (rdfLink it) (rdfTs it) st).

Definition rdf (root : value) : state → outcome :=
  for_each rdfItem (as_array_or_empty (root?."item")).

(** *** 6) Generic fallback, lines 319-381 *)

(** [v && typeof v === "object"]: the children pushed on the stack. *)
Definition is_child (v : value) : bool := truthy v && typeof_object v.

(** [!found] for [found] that is [null] or a string. *)
Definition unset (found : option string) : bool :=
  match found with
  | None => true
  | Some s => String.eqb s ""
  end.

(** The body of the loop over [scalars], lines 343-357. *)
Definition scanScalar (found : option string * option string) (kv : string * value)
  : option string * option string :=
  let sv := trim (String_ (kv.2 ?? JStr "")) in
  let foundUrl :=
    if unset found.1 && (urlKeyLike kv.1 || urlLike sv) then Some sv else found.1 in
  let foundDate :=
    if unset found.2 && (dateKeyLike kv.1 || dateValueLike sv) then Some sv else found.2 in
  (foundUrl, foundDate).

(** Lines 359-380. *)
Definition genericEmit (found : option string * option string) (st : state) : state :=
  match found.1 with
  | None => st
  | Some foundUrl =>
      if String.eqb foundUrl "" then st
      else match fromTs with
           | None => try_emit foundUrl base st
           | Some _ =>
               match found.2 with
               | None => st
               | Some foundDate =>
                   if String.eqb foundDate "" then st
                   else if includeByFrom (toTs (JStr foundDate)) fromTs
                        then try_emit foundUrl base st
                        else st
               end
           end
  end.

(** [while (stack.length) { ... }], lines 325-381; the stack is kept top
    first.  [None]: the fuel ran out. *)
Fixpoint genericLoop (fuel : nat) (stack : list value) (st : state) : option state :=
  match fuel with
  | O => None
  | S fuel =>
      match stack with
      | [] => Some st
      | node :: stack =>
          if negb (truthy node) then genericLoop fuel stack st
          else match node with
               | JArr xs => genericLoop fuel (rev xs ++ stack) st
               | _ =>
                   if negb (typeof_object node) then genericLoop fuel stack st
                   else
                     let children := filter (λ v, is_child v) (map snd (entries node)) in
                     let scalars := filter (λ kv, negb (is_child kv.2)) (entries node) in
                     let found := fold_left scanScalar scalars (None, None) in
                     genericLoop fuel (rev children ++ stack) (genericEmit found st)
               end
      end
  end.

(** The fuel is one more than the number of nodes of the tree, which
    [genericLoop_total] shows is enough. *)
Definition genericFallback (data : value) (st : state) : outcome :=
  match genericLoop (S (vsize data)) [data] st with
  | Some st' => Ok st'
  | None => Timeout
  end.

(** *** The dialect test *)

Definition processDoc (data : value) (st : state) : outcome :=
  if truthy (data?."sitemapindex"?."sitemap") then
    sitemapIndex (data?."sitemapindex"?."sitemap") st
  else if truthy (data?."urlset"?."url") then
    urlSet (data?."urlset"?."url") st
  else if truthy (data?."rss"?."channel") then
    rss (data?."rss"?."channel") st
  else if truthy (data?."feed") then
    atom (data?."feed") st
  else if truthy (data?."RDF") || truthy (data?."rdf") || truthy (data?."rdf:RDF") then
    rdf (data?."RDF" ||| data?."rdf" ||| data?."rdf:RDF") st
  else
    genericFallback data st.

End Document.

(** *** The crawl driver, lines 85-384 *)

Definition initial (xmlUrl : string) : state :=
  mkState [xmlUrl] ∅ [] ∅ [] [].

(** The body of the loop for a [current] that passed the test of line 92,
    lines 93-381. *)
Definition visitDoc (fromTs : option float) (current : string) (st : state) : outcome :=
  let st := log_fetch current (visit current st) in
  match fetch rt current with
  | None => Ok st
  | Some res =>
      if negb (res_ok res) then Ok st
      else match res_body res with
           | BodyError => Throw BodyReadError st
           | NotXml => Ok st
           | Parsed data =>
               processDoc (docBase current res) fromTs data st
           end
  end.

(** [while (queue.length) { ... }]; one unit of fuel per iteration. *)
Fixpoint crawl (fromTs : option float) (fuel : nat) (st : state) : outcome :=
  match fuel with
  | O => Timeout
  | S fuel =>
      match queue st with
      | [] => Ok st
      | current :: q =>
          let st := set_queue q st in
          if String.eqb current "" || bool_decide (current ∈ visited st) then
            crawl fromTs fuel st
          else
            match visitDoc fromTs current st with
            | Ok st' => crawl fromTs fuel st'
            | o => o
            end
      end
  end.

(** What the promise of one call settles to, and the calls to [fetch] it
    made. *)
Inductive promise : Type :=
| Resolved (urls : list string)
| Rejected (e : error)
| Pending.

Record run : Type := mkRun {
  settled : promise;
  fetches : list string }.

Definition finish (o : outcome) : run :=
  match o with
  | Ok st => mkRun (Resolved (results st)) (fetched st)
  | Throw e st => mkRun (Rejected e) (fetched st)
  | Timeout => mkRun Pending []
  end.

(** Lines 73-76: [fromDate == null || fromDate === ""]. *)
Definition absent (fromDate : value) : bool :=
  nullish fromDate || is_empty_string fromDate.

Definition lowerBound (fromDate : value) : option float :=
  if absent fromDate then None else Some (toTs fromDate).

Definition getSitemapUrls (fuel : nat) (xmlUrl : string) (fromDate : value) : run :=
  let fromTs := lowerBound fromDate in
  if negb (absent fromDate)
     && negb (match fromTs with Some t => isFinite t | None => false end)
  then mkRun (Rejected InvalidFromDate) []
  else finish (crawl fromTs fuel (initial xmlUrl)).

End Program.

Arguments String_ rt v : simpl nomatch.

(** ** Notions used in the statements *)

(** A URL string that carries a scheme: [ALPHA *( ALPHA / DIGIT / "+" / "-" / "." ) ":"]. *)
Definition is_scheme_char (c : ascii) : bool :=
  is_alpha c || is_digit c || is_char "+" c || is_char "-" c || is_char "." c.

Definition has_scheme (u : string) : bool :=
  match chars u with
  | c :: r =>
      is_alpha c &&
      match drop_while is_scheme_char r with
      | c' :: _ => is_char ":" c'
      | [] => false
      end
  | [] => false
  end.

(** The first occurrences of a list, in order. *)
Fixpoint first_seen (l : list string) : list string :=
  match l with
  | [] => []
  | x :: r => x :: filter (λ y, y ≠ x) (first_seen r)
  end.

(** [emit] over a list of URLs, in order. *)
Definition emit_all (new : list string) (st : state) : state :=
  fold_left (λ st abs, emit abs st) new st.

(** ** A small runtime for the examples

    [Date.parse] on the two ISO shapes [YYYY-MM-DD] and
    [YYYY-MM-DDTHH:mm:ssZ] (not-a-number elsewhere), [URL] on absolute
    references and on references that start with a slash (it throws on the
    others), and a transport
    that serves a finite table of documents.  The examples never print a
    number or a Date. *)

Module Demo.

Definition num2 (a b : ascii) : Z := digit_val a * 10 + digit_val b.

Definition days_from_civil (y m d : Z) : Z :=
  let y' := if (m <=? 2)%Z then (y - 1)%Z else y in
  let era := (y' / 400)%Z in
  let yoe := (y' - era * 400)%Z in
  let mp := if (2 <? m)%Z then (m - 3)%Z else (m + 9)%Z in
  let doy := ((153 * mp + 2) / 5 + d - 1)%Z in
  let doe := (yoe * 365 + yoe / 4 - yoe / 100 + doy)%Z in
  (era * 146097 + doe - 719468)%Z.

Definition utc_ms (y m d h mi sec : Z) : float :=
  if ((1 <=? m) && (m <=? 12) && (1 <=? d) && (d <=? 31)
      && (h <=? 23) && (mi <=? 59) && (sec <=? 59) && (1970 <=? y))%Z
  then float_of_Z ((((days_from_civil y m d * 24 + h) * 60 + mi) * 60 + sec) * 1000)
  else nan.

Definition parse_date (s : string) : float :=
  match match_shape d4_d2_d2 (chars s), chars s with
  | Some [], [y1; y2; y3; y4; _; m1; m2; _; d1; d2] =>
      utc_ms (num2 y1 y2 * 100 + num2 y3 y4) (num2 m1 m2) (num2 d1 d2) 0 0 0
  | Some [t; h1; h2; c1; mi1; mi2; c2; s1; s2; z],
    y1 :: y2 :: y3 :: y4 :: _ :: m1 :: m2 :: _ :: d1 :: d2 :: _ =>
      if is_char "T" t && is_digit h1 && is_digit h2 && is_char ":" c1 && is_digit mi1
         && is_digit mi2 && is_char ":" c2 && is_digit s1 && is_digit s2 && is_char "Z" z
      then utc_ms (num2 y1 y2 * 100 + num2 y3 y4) (num2 m1 m2) (num2 d1 d2)
                  (num2 h1 h2) (num2 mi1 mi2) (num2 s1 s2)
      else nan
  | _, _ => nan
  end.

Fixpoint take_until_slash (l : list ascii) : list ascii :=
  match l with
  | [] => []
  | c :: r => if is_char "/" c then [] else c :: take_until_slash r
  end.

(** [scheme://host] of an absolute URL. *)
Fixpoint origin (l : list ascii) : list ascii :=
  match l with
  | [] => []
  | c :: r =>
      if is_char ":" c then
        match r with
        | s1 :: s2 :: r' => c :: s1 :: s2 :: take_until_slash r'
        | _ => l
        end
      else c :: origin r
  end.

Definition resolve (ref base : string) : option string :=
  let abs :=
    if has_scheme ref then ref
    else if starts_with (chars "//") (chars ref)
    then (str (take_until_slash (chars base)) ++ ref)%string
    else if starts_with (chars "/") (chars ref)
    then (str (origin (chars base)) ++ ref)%string
    else "" in
  if has_scheme abs then Some abs else None.

(** A transport that serves each document of the table with status 200 at
    the URL it was asked for (no redirect) and fails on any other URL. *)
Fixpoint serve (docs : list (string * value)) (u : string) : option response :=
  match docs with
  | [] => None
  | (u', data) :: docs' =>
      if String.eqb u' u then Some (mkResponse true u (Parsed data)) else serve docs' u
  end.

Definition runtime (docs : list (string * value)) : Runtime :=
  mkRuntime parse_date (λ _, "0") (λ _, "Invalid Date") resolve (serve docs).

End Demo.

(** * Properties *)

(** ** Comparisons of binary64 values *)

Lemma SFcompare_antisym (x y : spec_float) :
  SFcompare y x = option_map CompOpp (SFcompare x y).
Proof.
  destruct x as [sx|sx| |sx mx ex], y as [sy|sy| |sy my ey]; simpl;
    try reflexivity;
    try (destruct sx; try destruct sy; reflexivity);
    try (destruct sy; reflexivity).
  destruct sx, sy; simpl; try reflexivity;
    rewrite (Z.compare_antisym ex ey); destruct (ex ?= ey)%Z; simpl; try reflexivity;
    rewrite (Pos.compare_cont_antisym mx my Eq); reflexivity.
Qed.

Lemma leb_ltb_false (x y : float) : (x <=? y)%float = true → (y <? x)%float = false.
Proof.
  rewrite FloatAxioms.leb_spec, FloatAxioms.ltb_spec. unfold SFleb, SFltb.
  rewrite (SFcompare_antisym (Prim2SF x) (Prim2SF y)).
  destruct (SFcompare (Prim2SF x) (Prim2SF y)) as [[]|]; simpl; congruence.
Qed.

Lemma elem_of_rev {A} (x : A) (l : list A) : x ∈ rev l ↔ x ∈ l.
Proof. rewrite !list_elem_of_In. symmetry. apply in_rev. Qed.

(** ** First occurrences *)

Lemma elem_of_first_seen (x : string) (l : list string) : x ∈ first_seen l ↔ x ∈ l.
Proof.
  induction l as [|a l IH]; simpl; [done|].
  rewrite !elem_of_cons, list_elem_of_filter, IH.
  destruct (decide (x = a)); naive_solver.
Qed.

Lemma NoDup_first_seen (l : list string) : NoDup (first_seen l).
Proof.
  induction l as [|a l IH]; simpl; [constructor|].
  constructor.
  - rewrite list_elem_of_filter. naive_solver.
  - by apply NoDup_filter.
Qed.

Lemma first_seen_snoc (l : list string) (x : string) :
  first_seen (l ++ [x]) = if decide (x ∈ l) then first_seen l else first_seen l ++ [x].
Proof.
  induction l as [|a l IH]; simpl; [done|].
  rewrite IH. destruct (decide (x ∈ l)) as [Hin|Hin].
  - rewrite decide_True by (by right). done.
  - rewrite filter_app. destruct (decide (x = a)) as [->|Hne].
    + rewrite decide_True by (by left).
      rewrite (filter_cons_False _ a) by naive_solver. by rewrite app_nil_r.
    + rewrite decide_False by (rewrite elem_of_cons; naive_solver).
      rewrite (filter_cons_True _ x) by done. done.
Qed.

(** ** The result list and its dedup set *)

(** [seen] is the set of [results], which are the first occurrences of what
    was emitted. *)
Definition deduped (st : state) : Prop :=
  seen st = list_to_set (results st) ∧ results st = first_seen (emitted st).

Lemma deduped_emit (abs : string) (st : state) : deduped st → deduped (emit abs st).
Proof.
  intros [Hseen Hres]. unfold emit, deduped. simpl.
  destruct (decide (abs ∈ seen st)) as [Hin|Hin]; simpl; rewrite first_seen_snoc.
  - split; [done|]. rewrite decide_True; [done|].
    rewrite Hseen, elem_of_list_to_set, Hres in Hin. by apply elem_of_first_seen.
  - split.
    + rewrite Hseen, list_to_set_app_L. set_solver.
    + rewrite decide_False; [by rewrite Hres|].
      rewrite Hseen, elem_of_list_to_set, Hres in Hin.
      by rewrite <- elem_of_first_seen.
Qed.

Lemma deduped_emit_all (new : list string) (st : state) :
  deduped st → deduped (emit_all new st).
Proof.
  revert st. induction new as [|a new IH]; intros st H; [done|].
  apply IH. by apply deduped_emit.
Qed.

Lemma emit_all_app (l1 l2 : list string) (st : state) :
  emit_all (l1 ++ l2) st = emit_all l2 (emit_all l1 st).
Proof. unfold emit_all. by rewrite fold_left_app. Qed.

Lemma emit_frame (abs : string) (st : state) :
  queue (emit abs st) = queue st ∧ visited (emit abs st) = visited st ∧
  fetched (emit abs st) = fetched st ∧ emitted (emit abs st) = emitted st ++ [abs].
Proof. unfold emit. by destruct (decide _). Qed.

Lemma emit_all_frame (new : list string) (st : state) :
  queue (emit_all new st) = queue st ∧ visited (emit_all new st) = visited st ∧
  fetched (emit_all new st) = fetched st ∧ emitted (emit_all new st) = emitted st ++ new.
Proof.
  revert st. induction new as [|a new IH]; intros st; simpl.
  - by rewrite app_nil_r.
  - destruct (IH (emit a st)) as (-> & -> & -> & ->).
    destruct (emit_frame a st) as (-> & -> & -> & ->).
    by rewrite <- app_assoc.
Qed.

Lemma emit_all_set_queue (new : list string) (q : list string) (st : state) :
  emit_all new (set_queue q st) = set_queue q (emit_all new st).
Proof.
  revert st. induction new as [|a new IH]; intros st; simpl; [done|].
  rewrite <- IH. f_equal. unfold emit, set_queue. simpl. by destruct (decide _).
Qed.

(** ** What an extractor does to the state *)

Section Properties.

Context (rt : Runtime).

(** [x] is the serialisation of a reference resolved against [base]. *)
Definition resolved_at (base x : string) : Prop :=
  ∃ ref, URL_resolve rt ref base = Some x.

(** How a loop body ends: normally, or by an exception. *)
Definition ending (e : option error) (st : state) : outcome :=
  match e with
  | None => Ok st
  | Some e => Throw e st
  end.

(** The state an outcome carries. *)
Definition after (o : outcome) : state :=
  match o with
  | Ok st | Throw _ st => st
  | Timeout => initial ""
  end.

(** From every state, [f] emits the same URLs, all resolved against [base]. *)
Definition emits (base : string) (f : state → state) : Prop :=
  ∃ new, Forall (resolved_at base) new ∧ ∀ st, f st = emit_all new st.

(** From every state, [f] emits the same URLs, all resolved against [base],
    and ends the same way; in particular its fuel, if it has any, does not
    run out. *)
Definition harvests (base : string) (f : state → outcome) : Prop :=
  ∃ new e, Forall (resolved_at base) new ∧ ∀ st, f st = ending e (emit_all new st).

Lemma emits_id base : emits base (λ st, st).
Proof. exists []. split; [constructor|done]. Qed.

Lemma emits_try_emit base ref : emits base (try_emit rt ref base).
Proof.
  unfold try_emit. destruct (URL_resolve rt ref base) as [abs|] eqn:E.
  - exists [abs]. split; [|done]. constructor; [by exists ref|constructor].
  - apply emits_id.
Qed.

Lemma harvests_ok base f : emits base f → harvests base (λ st, Ok (f st)).
Proof. intros (new & Hnew & Hf). exists new, None. split; [done|]. intros st. by rewrite Hf. Qed.

Lemma harvests_skip base : harvests base Ok.
Proof. apply (harvests_ok base (λ st, st)), emits_id. Qed.

Lemma harvests_throw base e : harvests base (Throw e).
Proof. exists [], (Some e). split; [constructor|done]. Qed.

Lemma harvests_then base (f g : state → outcome) :
  harvests base f → harvests base g →
  harvests base (λ st, match f st with Ok st' => g st' | o => o end).
Proof.
  intros (n1 & e1 & H1 & Hf) (n2 & e2 & H2 & Hg). destruct e1 as [e1|].
  - exists n1, (Some e1). split; [done|]. intros st. by rewrite Hf.
  - exists (n1 ++ n2), e2. split; [by apply Forall_app|].
    intros st. rewrite Hf. simpl. by rewrite Hg, emit_all_app.
Qed.

Lemma harvests_after base (f : state → state) (g : state → outcome) :
  emits base f → harvests base g → harvests base (λ st, g (f st)).
Proof.
  intros Hf Hg. apply (harvests_then base (λ st, Ok (f st)) g); [by apply harvests_ok|done].
Qed.

Lemma harvests_for_each {A} base (f : A → state → outcome) (l : list A) :
  (∀ x, x ∈ l → harvests base (f x)) → harvests base (for_each f l).
Proof.
  induction l as [|x l IH]; intros Hf.
  - apply harvests_skip.
  - apply (harvests_then base (f x) (for_each f l)).
    + apply Hf. by left.
    + apply IH. intros y Hy. apply Hf. by right.
Qed.

(** The same, seen from one state. *)
Definition harvested (base : string) (st st' : state) : Prop :=
  ∃ new, Forall (resolved_at base) new ∧ st' = emit_all new st.

Definition lands (R : state → Prop) (o : outcome) : Prop :=
  match o with
  | Ok st' | Throw _ st' => R st'
  | Timeout => False
  end.

Lemma harvests_lands base f st : harvests base f → lands (harvested base st) (f st).
Proof.
  intros (new & e & Hnew & Hf). rewrite Hf. destruct e; simpl; by exists new.
Qed.

Lemma harvested_try_emit base ref st : harvested base st (try_emit rt ref base st).
Proof. destruct (emits_try_emit base ref) as (new & Hnew & ->). by exists new. Qed.

Section Extractors.

Context (base : string) (fromTs : option float).

Lemma harvests_altLink ts l :
  includeByFrom ts fromTs = true → harvests base (altLink rt base fromTs ts l).
Proof.
  intros Hinc. unfold altLink.
  destruct (altRel l) as [rel|]; [|apply harvests_throw].
  destruct (negb (truthy (altHref l)) || negb (String.eqb rel "alternate"));
    [apply harvests_skip|].
  destruct (URL_resolve rt (trim (String_ rt (altHref l))) base) as [abs|] eqn:E;
    [|apply harvests_skip].
  rewrite Hinc. exists [abs], None. split.
  - constructor; [by eexists|constructor].
  - intros st. simpl. unfold emit. by destruct (decide _).
Qed.

Lemma harvests_urlEntry it : harvests base (urlEntry rt base fromTs it).
Proof.
  unfold urlEntry.
  destruct (negb _) eqn:Hinc; [apply harvests_skip|].
  assert (Hts : includeByFrom (urlTs rt it) fromTs = true).
  { destruct fromTs; [|done]. apply negb_false_iff, andb_true_iff in Hinc. tauto. }
  apply (harvests_after base (try_emit rt _ base)
           (for_each (altLink rt base fromTs (urlTs rt it)) (altLinks it))).
  - apply emits_try_emit.
  - apply harvests_for_each. intros l _. by apply harvests_altLink.
Qed.

Lemma harvests_urlSet url : harvests base (urlSet rt base fromTs url).
Proof. apply harvests_for_each. intros it _. apply harvests_urlEntry. Qed.

Lemma emits_feedItem link ts : emits base (feedItem rt base fromTs link ts).
Proof.
  unfold feedItem. destruct (negb (truthy link)); [apply emits_id|].
  destruct (negb _); [apply emits_id|apply emits_try_emit].
Qed.

Lemma harvests_rss ch : harvests base (rss rt base fromTs ch).
Proof.
  apply harvests_for_each. intros it _.
  apply (harvests_ok base (feedItem rt base fromTs (rssLink it) (rssTs rt it))),
    emits_feedItem.
Qed.

Lemma harvests_atom feed : harvests base (atom rt base fromTs feed).
Proof.
  apply harvests_for_each. intros it _. unfold atomEntry.
  destruct (atomLink it) as [linkVal|]; [|apply harvests_throw].
  apply (harvests_ok base (feedItem rt base fromTs linkVal (atomTs rt it))), emits_feedItem.
Qed.

Lemma harvests_rdf root : harvests base (rdf rt base fromTs root).
Proof.
  apply harvests_for_each. intros it _.
  apply (harvests_ok base (feedItem rt base fromTs (rdfLink it) (rdfTs rt it))),
    emits_feedItem.
Qed.

Lemma emits_genericEmit found : emits base (genericEmit rt base fromTs found).
Proof.
  unfold genericEmit. destruct found.1 as [foundUrl|]; [|apply emits_id].
  destruct (String.eqb foundUrl ""); [apply emits_id|].
  destruct fromTs as [lb|]; [|apply emits_try_emit].
  destruct found.2 as [foundDate|]; [|apply emits_id].
  destruct (String.eqb foundDate ""); [apply emits_id|].
  destruct (includeByFrom _ _); [apply emits_try_emit|apply emits_id].
Qed.

Lemma vsize_pos v : (0 < vsize v)%nat.
Proof. destruct v; simpl; lia. Qed.

Lemma stack_size_app s1 s2 : stack_size (s1 ++ s2) = stack_size s1 + stack_size s2.
Proof. unfold stack_size. by rewrite map_app, list_sum_app. Qed.

Lemma stack_size_rev s : stack_size (rev s) = stack_size s.
Proof.
  induction s as [|v s IH]; [done|]. simpl rev. rewrite stack_size_app, IH.
  unfold stack_size. simpl. lia.
Qed.

Lemma stack_size_children (kvs : list (string * value)) :
  (stack_size (filter (λ v, is_child v) (map snd kvs))
   ≤ list_sum (map (λ kv, vsize kv.2) kvs))%nat.
Proof.
  induction kvs as [|[k v] kvs IH]; simpl; [done|].
  rewrite filter_cons. destruct (decide _); unfold stack_size in *; simpl; lia.
Qed.

(** The loop of the generic fallback ends, by the empty stack, within as
    many iterations as there are nodes below the stack. *)
Lemma genericLoop_total fuel : ∀ stack,
  (stack_size stack < fuel)%nat →
  ∃ new, Forall (resolved_at base) new
         ∧ ∀ st, genericLoop rt base fromTs fuel stack st = Some (emit_all new st).
Proof.
  induction fuel as [|fuel IH]; intros stack Hfuel; [lia|].
  destruct stack as [|node stack].
  { exists []. split; [constructor|done]. }
  assert (Hstack : stack_size (node :: stack) = vsize node + stack_size stack) by done.
  pose proof (vsize_pos node) as Hpos.
  assert (Hskip : ∃ new, Forall (resolved_at base) new
            ∧ ∀ st, genericLoop rt base fromTs fuel stack st = Some (emit_all new st))
    by (apply IH; lia).
  assert (Harr : ∀ xs, node = JArr xs →
            ∃ new, Forall (resolved_at base) new
              ∧ ∀ st, genericLoop rt base fromTs fuel (rev xs ++ stack) st
                      = Some (emit_all new st)).
  { intros xs ->. apply IH. rewrite stack_size_app, stack_size_rev.
    simpl in Hstack. unfold stack_size at 1. lia. }
  assert (Hobj : ∀ found,
            ∃ new, Forall (resolved_at base) new
              ∧ ∀ st, genericLoop rt base fromTs fuel
                        (rev (filter (λ v, is_child v) (map snd (entries node))) ++ stack)
                        (genericEmit rt base fromTs found st)
                      = Some (emit_all new st)).
  { intros found.
    destruct (IH (rev (filter (λ v, is_child v) (map snd (entries node))) ++ stack))
      as (n2 & Hn2 & Hrun).
    - rewrite stack_size_app, stack_size_rev.
      destruct node as [| | | | | | | |kvs]; simpl in *; rewrite Hstack in Hfuel; try lia.
      pose proof (stack_size_children kvs). lia.
    - destruct (emits_genericEmit found) as (n1 & Hn1 & Hemit).
      exists (n1 ++ n2). split; [by apply Forall_app|].
      intros st. by rewrite Hrun, Hemit, emit_all_app. }
  destruct node; simpl; eauto.
  - destruct b; simpl; eauto.
  - destruct (negb (PrimFloat.is_zero x || PrimFloat.is_nan x)); simpl; eauto.
  - destruct (negb (String.eqb s "")); simpl; eauto.
Qed.

Lemma harvests_genericFallback data : harvests base (genericFallback rt base fromTs data).
Proof.
  destruct (genericLoop_total (S (vsize data)) [data]) as (new & Hnew & Hrun).
  { unfold stack_size. simpl. lia. }
  exists new, None. split; [done|]. intros st. unfold genericFallback. by rewrite Hrun.
Qed.

End Extractors.

(** ** The frontier *)

(** The locations a sitemap index lists, resolved against [base], in
    document order. *)
Definition indexTargets (base : string) (sitemap : value) : list string :=
  omap (λ it, if truthy (sitemapLoc it)
              then URL_resolve rt (trim (String_ rt (sitemapLoc it))) base
              else None)
       (as_array sitemap).

(** [for (abs of targets) if (!visited.has(abs)) queue.push(abs)] *)
Definition enqueue (targets : list string) (st : state) : state :=
  set_queue (rev (filter (λ u, u ∉ visited st) targets) ++ queue st) st.

Lemma set_queue_id st : set_queue (queue st) st = st.
Proof. by destruct st. Qed.

Lemma enqueue_nil st : enqueue [] st = st.
Proof. apply set_queue_id. Qed.

Lemma enqueue_cons t ts st : enqueue (t :: ts) st = enqueue ts (enqueue [t] st).
Proof.
  unfold enqueue, set_queue. simpl. rewrite !filter_cons, filter_nil.
  destruct (decide (t ∉ visited st)); simpl; [|done].
  by rewrite <- app_assoc.
Qed.

Lemma sitemapIndex_spec base sitemap st :
  sitemapIndex rt base sitemap st = Ok (enqueue (indexTargets base sitemap) st).
Proof.
  unfold sitemapIndex, indexTargets. revert st.
  induction (as_array sitemap) as [|it l IH]; intros st; simpl.
  { by rewrite enqueue_nil. }
  unfold indexEntry at 1.
  destruct (truthy (sitemapLoc it)); simpl; [|apply IH].
  destruct (URL_resolve rt _ base) as [abs|]; simpl; [|apply IH].
  rewrite enqueue_cons. unfold enqueue at 2. simpl. rewrite filter_cons, filter_nil.
  destruct (decide (abs ∈ visited st)) as [Hin|Hin].
  - rewrite decide_False by naive_solver. simpl. rewrite set_queue_id. apply IH.
  - rewrite decide_True by done. simpl. apply IH.
Qed.

(** The document [fetch] and the parser give for [u], with its base URL. *)
Definition document (u : string) : option (string * value) :=
  match fetch rt u with
  | Some res =>
      if res_ok res then
        match res_body res with
        | Parsed data => Some (docBase u res, data)
        | _ => None
        end
      else None
  | None => None
  end.

(** The documents the one at [u] refers to: the targets of a sitemap index,
    nothing for any other document. *)
Definition children (u : string) : list string :=
  match document u with
  | Some (base, data) =>
      if truthy (data?."sitemapindex"?."sitemap")
      then indexTargets base (data?."sitemapindex"?."sitemap")
      else []
  | None => []
  end.

(** [x] was resolved against the base URL of the document served at [u]. *)
Definition resolved_in (u x : string) : Prop :=
  ∃ res, fetch rt u = Some res ∧ resolved_at (docBase u res) x.

(** One visit: the URL is marked and fetched, then either the frontier grows
    by the unvisited children or URLs resolved against the document's base
    are emitted - the same ones whatever the state. *)
Lemma visitDoc_spec fromTs c :
  ∃ new e, Forall (resolved_in c) new ∧
    ∀ st, visitDoc rt fromTs c st
          = ending e (emit_all new (enqueue (children c) (log_fetch c (visit c st)))).
Proof.
  unfold visitDoc, children, document.
  assert (Hnone : ∃ new e, Forall (resolved_in c) new ∧
            ∀ st, Ok (log_fetch c (visit c st))
                  = ending e (emit_all new (enqueue [] (log_fetch c (visit c st))))).
  { exists [], None. split; [constructor|]. intros st. by rewrite enqueue_nil. }
  destruct (fetch rt c) as [res|] eqn:Hfetch; [|done].
  destruct (res_ok res); [|done].
  destruct (res_body res) as [| |data]; [|done|].
  { exists [], (Some BodyReadError). split; [constructor|]. intros st.
    by rewrite enqueue_nil. }
  assert (Hharv : ∀ f, harvests (docBase c res) f →
            ∃ new e, Forall (resolved_in c) new ∧
              ∀ st, f (log_fetch c (visit c st))
                    = ending e (emit_all new (enqueue [] (log_fetch c (visit c st))))).
  { intros f (new & e & Hnew & Hf). exists new, e. split.
    - eapply Forall_impl; [done|]. intros x Hx. by exists res.
    - intros st. by rewrite enqueue_nil, Hf. }
  cbn [negb]. unfold processDoc.
  destruct (truthy (data?."sitemapindex"?."sitemap")).
  { exists [], None. split; [constructor|]. intros st. by rewrite sitemapIndex_spec. }
  destruct (truthy _); [apply Hharv, harvests_urlSet|].
  destruct (truthy _); [apply Hharv, harvests_rss|].
  destruct (truthy _); [apply Hharv, harvests_atom|].
  destruct (_ || _); [apply Hharv, harvests_rdf|].
  apply Hharv, harvests_genericFallback.
Qed.

(** What the document at [c] contributes: the URLs a visit emits. *)
Definition harvestOf (fromTs : option float) (c : string) : list string :=
  emitted (after (visitDoc rt fromTs c (initial ""))).

Lemma visitDoc_harvest fromTs c :
  Forall (resolved_in c) (harvestOf fromTs c)
  ∧ ∃ e, ∀ st, visitDoc rt fromTs c st
               = ending e (emit_all (harvestOf fromTs c)
                             (enqueue (children c) (log_fetch c (visit c st)))).
Proof.
  destruct (visitDoc_spec fromTs c) as (new & e & Hnew & Hv).
  assert (Heq : harvestOf fromTs c = new).
  { unfold harvestOf. rewrite Hv.
    assert (Hem : ∀ st, emitted (after (ending e st)) = emitted st) by (by destruct e).
    rewrite Hem. by destruct (emit_all_frame new
      (enqueue (children c) (log_fetch c (visit c (initial ""))))) as (_ & _ & _ & ->). }
  rewrite Heq. split; [done|]. by exists e.
Qed.

(** A property of the state that every iteration of the loop keeps holds
    when the loop ends, normally or by an exception. *)
Lemma crawl_invariant (Inv : state → Prop) fromTs :
  (∀ st c q, Inv st → queue st = c :: q → c = "" ∨ c ∈ visited st → Inv (set_queue q st)) →
  (∀ st c q, Inv st → queue st = c :: q → c ≠ "" → c ∉ visited st →
     Inv (emit_all (harvestOf fromTs c)
            (enqueue (children c) (log_fetch c (visit c (set_queue q st)))))) →
  ∀ fuel st, Inv st →
    match crawl rt fromTs fuel st with
    | Ok st' | Throw _ st' => Inv st'
    | Timeout => True
    end.
Proof.
  intros Hskip Hvisit. induction fuel as [|fuel IH]; intros st HI; simpl; [done|].
  destruct (queue st) as [|c q] eqn:Hq; [done|].
  destruct (String.eqb_spec c "") as [->|Hne]; simpl.
  { apply IH. eapply Hskip; eauto. }
  case_bool_decide as Hvis.
  { apply IH. eapply Hskip; eauto. }
  destruct (visitDoc_harvest fromTs c) as (_ & e & ->).
  destruct e as [e|]; simpl.
  - by eapply Hvisit.
  - apply IH. by eapply Hvisit.
Qed.

End Properties.

(** ** The returned sequence *)

Section Results.

Context (rt : Runtime).

(** What the loop keeps true of the results: they are the first occurrences
    of the emitted URLs, [seen] is their set, and the emitted URLs are the
    contributions of the fetched documents, in the order of the fetches. *)
Definition results_inv (fromTs : option float) (st : state) : Prop :=
  deduped st ∧ emitted st = flat_map (harvestOf rt fromTs) (fetched st).

Lemma results_inv_initial fromTs xmlUrl : results_inv fromTs (initial xmlUrl).
Proof. split; [by split|done]. Qed.

Lemma results_inv_crawl fromTs fuel st :
  results_inv fromTs st →
  match crawl rt fromTs fuel st with
  | Ok st' | Throw _ st' => results_inv fromTs st'
  | Timeout => True
  end.
Proof.
  apply crawl_invariant.
  - by intros ? ? ? [? ?] _ _.
  - clear st. intros st c q [Hd Hem] _ _ _.
    unfold enqueue. rewrite emit_all_set_queue.
    set (st2 := log_fetch c (visit c (set_queue q st))).
    assert (Hd2 : deduped st2) by done.
    split; [by apply deduped_emit_all|]. simpl.
    destruct (emit_all_frame (harvestOf rt fromTs c) st2) as (_ & _ & -> & ->). simpl.
    rewrite flat_map_app, Hem. simpl. by rewrite app_nil_r.
Qed.

(** The sequence a call resolves to, and the calls to [fetch] it made. *)
Lemma resolved_run fuel xmlUrl fromDate urls :
  settled (getSitemapUrls rt fuel xmlUrl fromDate) = Resolved urls →
  urls = first_seen (flat_map (harvestOf rt (lowerBound rt fromDate))
                       (fetches (getSitemapUrls rt fuel xmlUrl fromDate))).
Proof.
  unfold getSitemapUrls.
  destruct (negb (absent fromDate) && _); [done|].
  pose proof (results_inv_crawl (lowerBound rt fromDate) fuel (initial xmlUrl)
                (results_inv_initial _ xmlUrl)) as Hinv.
  destruct (crawl rt _ fuel (initial xmlUrl)) as [st| |]; simpl; [|done..].
  intros [= <-]. destruct Hinv as [[_ Hres] Hem]. by rewrite Hres, Hem.
Qed.

(** C1. The sequence a call resolves to has no duplicate; every element of
    it carries a scheme (given that the serialisations of [URL] do) and was
    resolved against the base of a document the call fetched, which is the
    URL the response ended at after redirects ([res.url]) and the URL asked
    for only when the response carries none; and it lists, by first
    occurrence, what the fetched documents emitted, in the order of
    emission. *)
Theorem getSitemapUrls_results (fuel : nat) (xmlUrl : string) (fromDate : value)
    (urls : list string) :
  (∀ ref base u, URL_resolve rt ref base = Some u → has_scheme u = true) →
  settled (getSitemapUrls rt fuel xmlUrl fromDate) = Resolved urls →
  NoDup urls
  ∧ Forall (λ x, has_scheme x = true) urls
  ∧ (∀ x, x ∈ urls →
       ∃ u res ref, u ∈ fetches (getSitemapUrls rt fuel xmlUrl fromDate) ∧
         fetch rt u = Some res ∧
         URL_resolve rt ref (if String.eqb (res_url res) "" then u else res_url res)
         = Some x)
  ∧ urls = first_seen (flat_map (harvestOf rt (lowerBound rt fromDate))
                         (fetches (getSitemapUrls rt fuel xmlUrl fromDate))).
Proof.
  intros Habs Hrun. pose proof (resolved_run _ _ _ _ Hrun) as Hurls.
  assert (Hfrom : ∀ x, x ∈ urls →
            ∃ u res ref, u ∈ fetches (getSitemapUrls rt fuel xmlUrl fromDate) ∧
              fetch rt u = Some res ∧
              URL_resolve rt ref (if String.eqb (res_url res) "" then u else res_url res)
              = Some x).
  { intros x Hx. rewrite Hurls, elem_of_first_seen, list_elem_of_In, in_flat_map in Hx.
    destruct Hx as (u & Hu & Hx). apply list_elem_of_In in Hu, Hx.
    destruct (visitDoc_harvest rt (lowerBound rt fromDate) u) as [Hres _].
    rewrite Forall_forall in Hres.
    destruct (Hres x Hx) as (res & Hfetch & ref & Href).
    exists u, res, ref. split; [done|]. split; [done|]. exact Href. }
  split; [rewrite Hurls; apply NoDup_first_seen|].
  split; [|by split].
  apply Forall_forall. intros x Hx.
  destruct (Hfrom x Hx) as (u & res & ref & _ & _ & Href). by eapply Habs.
Qed.

End Results.

(** ** Termination and the fetch log *)

Section Termination.

Context (rt : Runtime).

Lemma visit_fields new c q st :
  let st' := emit_all new (enqueue (children rt c) (log_fetch c (visit c (set_queue q st)))) in
  queue st' = rev (filter (λ u, u ∉ {[c]} ∪ visited st) (children rt c)) ++ q
  ∧ visited st' = {[c]} ∪ visited st
  ∧ fetched st' = fetched st ++ [c].
Proof. simpl. by destruct (emit_all_frame new (enqueue (children rt c)
                (log_fetch c (visit c (set_queue q st))))) as (-> & -> & -> & _). Qed.

(** The fetch log has no repetition and lists the visited set; the entry URL
    and the children of every visited document are visited or still queued
    (the empty string, which the loop drops, apart). *)
Definition fetch_inv (xmlUrl : string) (st : state) : Prop :=
  NoDup (fetched st)
  ∧ (∀ u, u ∈ fetched st ↔ u ∈ visited st)
  ∧ (xmlUrl = "" ∨ xmlUrl ∈ visited st ∨ xmlUrl ∈ queue st)
  ∧ (∀ u c, u ∈ visited st → c ∈ children rt u → c = "" ∨ c ∈ visited st ∨ c ∈ queue st).

Lemma fetch_inv_initial xmlUrl : fetch_inv xmlUrl (initial xmlUrl).
Proof.
  unfold fetch_inv, initial. simpl. split; [constructor|].
  split; [set_solver|]. split; [set_solver|]. set_solver.
Qed.

Lemma fetch_inv_crawl xmlUrl fromTs fuel st :
  fetch_inv xmlUrl st →
  match crawl rt fromTs fuel st with
  | Ok st' | Throw _ st' => fetch_inv xmlUrl st'
  | Timeout => True
  end.
Proof.
  apply crawl_invariant.
  - clear st. intros st c q (Hnd & Hlog & Hroot & Hclosed) Hq Hc.
    unfold fetch_inv. simpl. rewrite Hq in *.
    split; [done|]. split; [done|]. split.
    + destruct Hroot as [?|[?|Hin]]; [tauto..|].
      apply elem_of_cons in Hin as [->|?]; tauto.
    + intros u x Hu Hx. destruct (Hclosed u x Hu Hx) as [?|[?|Hin]]; [tauto..|].
      apply elem_of_cons in Hin as [->|?]; tauto.
  - clear st. intros st c q (Hnd & Hlog & Hroot & Hclosed) Hq Hne Hvis.
    unfold fetch_inv.
    destruct (visit_fields (harvestOf rt fromTs c) c q st) as (-> & -> & ->).
    rewrite Hq in *.
    split; [|split; [|split]].
    + apply NoDup_app. split; [done|]. split; [|apply NoDup_singleton].
      intros u Hu ->%list_elem_of_singleton. by apply Hvis, Hlog.
    + intros u. rewrite elem_of_app, list_elem_of_singleton, Hlog. set_solver.
    + destruct Hroot as [?|[?|Hin]]; [tauto|set_solver|].
      apply elem_of_cons in Hin as [->|?]; [set_solver|].
      right. right. apply elem_of_app. tauto.
    + intros u x Hu Hx.
      destruct (decide (x = "")) as [?|Hx0]; [by left|].
      destruct (decide (x ∈ {[c]} ∪ visited st)) as [?|Hnew]; [tauto|].
      right. right. apply elem_of_app.
      apply elem_of_union in Hu as [->%elem_of_singleton|Hu].
      * left. apply elem_of_rev, list_elem_of_filter. done.
      * destruct (Hclosed u x Hu Hx) as [?|[?|Hin]]; [done|set_solver|].
        apply elem_of_cons in Hin as [->|?]; [set_solver|by right].
Qed.

Lemma crawl_S fromTs fuel st :
  crawl rt fromTs (S fuel) st =
  match queue st with
  | [] => Ok st
  | current :: q =>
      if String.eqb current "" || bool_decide (current ∈ visited (set_queue q st))
      then crawl rt fromTs fuel (set_queue q st)
      else match visitDoc rt fromTs current (set_queue q st) with
           | Ok st' => crawl rt fromTs fuel st'
           | o => o
           end
  end.
Proof. reflexivity. Qed.

(** More fuel does not change an outcome that did not need it. *)
Lemma crawl_fuel_mono fromTs fuel : ∀ st fuel',
  crawl rt fromTs fuel st ≠ Timeout → (fuel ≤ fuel')%nat →
  crawl rt fromTs fuel' st = crawl rt fromTs fuel st.
Proof.
  induction fuel as [|fuel IH]; intros st fuel' Hrun Hle; [done|].
  destruct fuel' as [|fuel']; [lia|]. rewrite !crawl_S in *.
  destruct (queue st) as [|c q]; [done|].
  destruct (String.eqb c "" || bool_decide (c ∈ visited (set_queue q st))).
  { apply IH; [done|lia]. }
  destruct (visitDoc rt fromTs c (set_queue q st)); [|done..].
  apply IH; [done|lia].
Qed.

Section Finite.

(** A finite set of URLs that holds the children of each of its members. *)
Context (U : gset string).
Hypothesis U_closed : ∀ u c, u ∈ U → c ∈ children rt u → c ∈ U.

Lemma crawl_fuel fromTs (n : nat) : ∀ st,
  size (U ∖ visited st) = n → Forall (λ u, u ∈ U) (queue st) →
  ∃ fuel, crawl rt fromTs fuel st ≠ Timeout.
Proof.
  induction n as [n IHn] using lt_wf_ind. intros st Hn Hqueue.
  remember (queue st) as q eqn:Hq. revert st Hn Hqueue Hq.
  induction q as [|c q IHq]; intros st Hn Hqueue Hq.
  { exists 1%nat. rewrite crawl_S. by rewrite <- Hq. }
  apply Forall_cons in Hqueue as [Hc Hqueue].
  destruct (decide (c = "" ∨ c ∈ visited st)) as [Hskip|Hvisit].
  - destruct (IHq (set_queue q st)) as [fuel Hfuel]; [done..|].
    exists (S fuel). rewrite crawl_S, <- Hq.
    replace (String.eqb c "" || bool_decide (c ∈ visited (set_queue q st))) with true; [done|].
    symmetry. apply orb_true_iff. destruct Hskip as [->|Hin]; [by left|].
    right. by apply bool_decide_eq_true.
  - assert (Hcond : String.eqb c "" || bool_decide (c ∈ visited (set_queue q st)) = false).
    { apply orb_false_iff. split.
      - apply String.eqb_neq. tauto.
      - apply bool_decide_eq_false. simpl. tauto. }
    destruct (visitDoc_harvest rt fromTs c) as (_ & e & Hv).
    specialize (Hv (set_queue q st)).
    set (st' := emit_all (harvestOf rt fromTs c)
                  (enqueue (children rt c) (log_fetch c (visit c (set_queue q st))))) in *.
    destruct e as [e|]; simpl in Hv; rename Hv into Hdoc; [|].
    2: {
      destruct (visit_fields (harvestOf rt fromTs c) c q st) as (Hq' & Hvis' & _).
      fold st' in Hq', Hvis'.
      assert (Hlt : (size (U ∖ visited st') < n)%nat).
      { subst n. rewrite Hvis'. apply subset_size. set_solver. }
      assert (Hqueue' : Forall (λ u, u ∈ U) (queue st')).
      { rewrite Hq'. apply Forall_app. split; [|done].
        apply Forall_forall. intros x [_ Hx]%elem_of_rev%list_elem_of_filter. eauto. }
      destruct (IHn _ Hlt st' eq_refl Hqueue') as [fuel Hfuel].
      exists (S fuel). rewrite crawl_S, <- Hq, Hcond, Hdoc. done. }
    exists 1%nat. rewrite crawl_S, <- Hq, Hcond, Hdoc. done.
Qed.

End Finite.

(** C5, amended. On a finite graph of documents - a finite set of URLs
    that holds the entry URL and the children of each of its members,
    whatever cycles the references form - the loop ends: from some fuel on
    the call settles, to the same run, which fetched no URL twice; when it
    resolves, the entry URL was fetched, so was every child of every
    fetched document (each of two indexes that list each other is fetched,
    once), and what each fetched document emits is among the results.
    Without the finite set the loop need not end. *)
Theorem crawl_terminates_fetching_once (U : gset string) (xmlUrl : string) (fromDate : value) :
  xmlUrl ∈ U →
  (∀ u c, u ∈ U → c ∈ children rt u → c ∈ U) →
  ∃ fuel, ∀ fuel', (fuel ≤ fuel')%nat →
    let r := getSitemapUrls rt fuel' xmlUrl fromDate in
    r = getSitemapUrls rt fuel xmlUrl fromDate
    ∧ settled r ≠ Pending
    ∧ NoDup (fetches r)
    ∧ (∀ urls, settled r = Resolved urls →
       (xmlUrl ≠ "" → xmlUrl ∈ fetches r)
       ∧ (∀ u c, u ∈ fetches r → c ∈ children rt u → c ≠ "" → c ∈ fetches r)
       ∧ (∀ u x, u ∈ fetches r → x ∈ harvestOf rt (lowerBound rt fromDate) u → x ∈ urls)).
Proof.
  intros Hroot Hclosed.
  destruct (crawl_fuel U Hclosed (lowerBound rt fromDate) _ (initial xmlUrl) eq_refl)
    as [fuel Hfuel].
  { simpl. by repeat constructor. }
  exists fuel. intros fuel' Hle. unfold getSitemapUrls. simpl.
  destruct (negb (absent fromDate) && _).
  { simpl. split; [done|]. split; [done|]. split; [constructor|]. by intros ? [=]. }
  rewrite (crawl_fuel_mono _ _ _ _ Hfuel Hle). split; [done|].
  pose proof (fetch_inv_crawl xmlUrl (lowerBound rt fromDate) fuel (initial xmlUrl)
                (fetch_inv_initial xmlUrl)) as Hinv.
  destruct (crawl rt _ fuel (initial xmlUrl)) as [st|e st|] eqn:Hrun; [| |done]; simpl.
  - destruct Hinv as (Hnd & Hlog & Hin & Hch).
    split; [done|]. split; [done|]. intros urls [= <-].
    assert (Hempty : queue st = []).
    { clear -Hrun. revert Hrun. generalize (initial xmlUrl).
      induction fuel as [|fuel IH]; intros st0; [done|]. rewrite crawl_S.
      destruct (queue st0) as [|c q] eqn:Hq; [by intros [= <-]|].
      destruct (_ || _); [apply IH|].
      destruct (visitDoc _ _ _ _); [apply IH|done..]. }
    rewrite Hempty in *. split; [|split].
    + intros Hne. apply Hlog. set_solver.
    + intros u c Hu Hc Hne. apply Hlog. apply Hlog in Hu.
      destruct (Hch u c Hu Hc) as [?|[?|?]]; set_solver.
    + intros u x Hu Hx.
      pose proof (results_inv_crawl rt (lowerBound rt fromDate) fuel (initial xmlUrl)
                    (results_inv_initial rt _ xmlUrl)) as Hres.
      rewrite Hrun in Hres. destruct Hres as [[_ Hres] Hem].
      rewrite Hres, Hem, elem_of_first_seen, list_elem_of_In, in_flat_map.
      exists u. by rewrite <- !list_elem_of_In.
  - destruct Hinv as (Hnd & _). split; [done|]. split; [done|]. by intros ? [=].
Qed.

End Termination.

(** ** The timestamp normaliser *)

Section Timestamps.

Context (rt : Runtime).

Lemma chars_str (l : list ascii) : chars (str l) = l.
Proof. apply list_ascii_of_string_of_list_ascii. Qed.

Lemma digit_not_space (c : ascii) : is_digit c = true → is_space c = false.
Proof. destruct c as [[] [] [] [] [] [] [] []]; vm_compute; congruence. Qed.

Lemma digit_not_minus (c : ascii) : is_digit c = true → Ascii.eqb c "-" = false.
Proof. destruct c as [[] [] [] [] [] [] [] []]; vm_compute; congruence. Qed.

Lemma drop_while_head p c l : p c = false → drop_while p (c :: l) = c :: l.
Proof. intros H. simpl. by rewrite H. Qed.

(** [trim] leaves a string alone whose first and last characters are not
    white space. *)
Lemma trim_tight (c c' : ascii) (l : list ascii) :
  is_space c = false → is_space c' = false →
  trim (str (c :: l ++ [c'])) = str (c :: l ++ [c']).
Proof.
  intros Hc Hc'. unfold trim. rewrite chars_str, drop_while_head by done.
  replace (rev (c :: l ++ [c'])) with (c' :: rev (c :: l)).
  - rewrite drop_while_head by done.
    change (c' :: rev (c :: l)) with (rev [c'] ++ rev (c :: l)).
    rewrite <- rev_app_distr, rev_involutive. done.
  - change (c :: l ++ [c']) with ((c :: l) ++ [c']). by rewrite rev_app_distr.
Qed.

(** A run of nine to thirteen digits, split as first, middle, last. *)
Lemma digits_split (ds : list ascii) :
  forallb is_digit ds = true → (9 ≤ length ds)%nat →
  ∃ c l c', ds = c :: l ++ [c'] ∧ is_digit c = true ∧ is_digit c' = true.
Proof.
  intros Hds Hlen. destruct ds as [|c r]; [simpl in Hlen; lia|].
  destruct (exists_last (l := r)) as (l & c' & ->).
  { intros ->. simpl in Hlen. lia. }
  exists c, l, c'. simpl in Hds. rewrite forallb_app in Hds. simpl in Hds.
  apply andb_true_iff in Hds as [Hc [_ [Hc' _]%andb_true_iff]%andb_true_iff]. done.
Qed.

Lemma toTs_epoch_string (s : string) :
  is_empty_string (JStr s) = false → trim s = s → re_epoch s = true →
  toTs rt (JStr s) = scale (Number_epoch s).
Proof.
  intros Hne Htrim Hre. unfold toTs. cbn [nullish orb]. rewrite Hne.
  cbn [String_]. rewrite Htrim, Hre. done.
Qed.

Lemma toTs_digits (ds : list ascii) :
  forallb is_digit ds = true → (9 ≤ length ds ≤ 13)%nat →
  toTs rt (JStr (str ds)) = scale (float_of_Z (digits_val ds))
  ∧ toTs rt (JStr (str ("-"%char :: ds))) = scale (- float_of_Z (digits_val ds)).
Proof.
  intros Hds [Hlo Hhi].
  destruct (digits_split ds Hds Hlo) as (c & l & c' & Heq & Hc & Hc').
  assert (Hlen : (9 <=? length ds)%nat && (length ds <=? 13)%nat = true).
  { apply andb_true_iff. split; apply Nat.leb_le; lia. }
  assert (Hstrip : strip_minus ds = ds).
  { rewrite Heq. unfold strip_minus. by rewrite (digit_not_minus c Hc). }
  split.
  - rewrite toTs_epoch_string.
    + unfold Number_epoch. rewrite chars_str. subst ds.
      by rewrite (digit_not_minus c Hc).
    + by subst ds.
    + subst ds. apply trim_tight; by apply digit_not_space.
    + unfold re_epoch. rewrite chars_str, Hstrip, Hds. cbn [andb]. apply Hlen.
  - rewrite toTs_epoch_string.
    + unfold Number_epoch. by rewrite chars_str.
    + done.
    + subst ds. apply (trim_tight "-" c' (c :: l)); [done|by apply digit_not_space].
    + unfold re_epoch. rewrite chars_str. cbn [strip_minus Ascii.eqb Bool.eqb].
      rewrite Hds. cbn [andb]. apply Hlen.
Qed.

(** C6, amended. A number is scaled by 1000 when it compares below 10^12 -
    a signed comparison - and is returned as it is otherwise; a string of 9
    to 13 digits, with or without a minus sign before them, is converted to
    the number it denotes and treated the same way. *)
Theorem toTs_numeric :
  (∀ x, (x <? 1e12)%float = true → toTs rt (JNum x) = (x * 1000)%float)
  ∧ (∀ x, (x <? 1e12)%float = false → toTs rt (JNum x) = x)
  ∧ (∀ ds, forallb is_digit ds = true → (9 ≤ length ds ≤ 13)%nat →
       toTs rt (JStr (str ds)) = toTs rt (JNum (float_of_Z (digits_val ds)))
       ∧ toTs rt (JStr (str ("-"%char :: ds)))
         = toTs rt (JNum (- float_of_Z (digits_val ds)))).
Proof.
  split; [|split].
  - intros x Hx. unfold toTs, scale. simpl. by rewrite Hx.
  - intros x Hx. unfold toTs, scale. simpl. by rewrite Hx.
  - intros ds Hds Hlen. by apply toTs_digits.
Qed.

(** C4, amended. Normalising again the millisecond value [toTs] gave
    returns it when it is at least 10^12 (an instant from 2001-09-09T01:46:40Z
    on); a value that compares below 10^12 is read as seconds and multiplied
    by 1000. *)
Theorem toTs_idempotent_from_1e12 (v : value) :
  ((1e12 <=? toTs rt v)%float = true → toTs rt (JNum (toTs rt v)) = toTs rt v)
  ∧ ((toTs rt v <? 1e12)%float = true →
     toTs rt (JNum (toTs rt v)) = (toTs rt v * 1000)%float).
Proof.
  split; intros H.
  - apply leb_ltb_false in H. unfold toTs at 1, scale. simpl. by rewrite H.
  - unfold toTs at 1, scale. simpl. by rewrite H.
Qed.

(** C10. The string of a minus sign and nine digits is accepted by the
    epoch rule: its timestamp is finite and negative, [firstTs] returns it,
    and the lower-bound test compares it like any other. *)
Theorem toTs_negative_epoch :
  re_epoch "-123456789" = true
  ∧ toTs rt (JStr "-123456789") = (-123456789000)%float
  ∧ isFinite (toTs rt (JStr "-123456789")) = true
  ∧ (toTs rt (JStr "-123456789") <? 0)%float = true
  ∧ firstTs rt [JNull; JStr "-123456789"] = (-123456789000)%float
  ∧ includeByFrom (toTs rt (JStr "-123456789")) (Some (-200000000000)%float) = true
  ∧ includeByFrom (toTs rt (JStr "-123456789")) (Some 0%float) = false.
Proof.
  assert (H : toTs rt (JStr "-123456789") = (-123456789000)%float).
  { destruct (toTs_digits (chars "123456789") eq_refl) as [_ H].
    - simpl. lia.
    - exact H. }
  assert (H0 : toTs rt JNull = nan) by reflexivity.
  unfold firstTs. rewrite H0, H.
  repeat split; vm_compute; reflexivity.
Qed.

(** *** The inclusion predicate *)

Lemma firstTs_none (vals : list value) :
  Forall (λ v, isFinite (toTs rt v) = false) vals → firstTs rt vals = nan.
Proof.
  induction 1 as [|v vals Hv _ IH]; [done|]. simpl. by rewrite Hv.
Qed.

Lemma includeByFrom_nan (lb : float) : includeByFrom nan (Some lb) = false.
Proof. reflexivity. Qed.

Lemma urlTs_none (it : value) :
  isFinite (toTs rt (lastmodOf it)) = false →
  Forall (λ v, isFinite (toTs rt v) = false) (newsDates it) →
  Forall (λ v, isFinite (toTs rt v) = false) (videoDates it) →
  urlTs rt it = nan.
Proof.
  intros Hl Hn Hv. unfold urlTs. rewrite (firstTs_none _ Hn), (firstTs_none _ Hv).
  apply firstTs_none. repeat constructor; done.
Qed.

Section Inclusion.

Context (base : string).

(** C2. [includeByFrom] is true when there is no lower bound; with one, it
    is true exactly when the timestamp is finite and not below the bound.
    So an entry none of whose date fields normalises to a finite value is
    left out under a lower bound, in each dialect. *)
Theorem includeByFrom_spec :
  (∀ ts, includeByFrom ts None = true)
  ∧ (∀ ts lb, includeByFrom ts (Some lb) = true ↔
              isFinite ts = true ∧ (lb <=? ts)%float = true)
  ∧ (∀ vals lb, Forall (λ v, isFinite (toTs rt v) = false) vals →
                includeByFrom (firstTs rt vals) (Some lb) = false)
  ∧ (∀ it lb st,
       isFinite (toTs rt (lastmodOf it)) = false →
       Forall (λ v, isFinite (toTs rt v) = false) (newsDates it) →
       Forall (λ v, isFinite (toTs rt v) = false) (videoDates it) →
       urlEntry rt base (Some lb) it st = Ok st)
  ∧ (∀ it lb st, Forall (λ v, isFinite (toTs rt v) = false) (rssDates it) →
       rssItem rt base (Some lb) it st = Ok st)
  ∧ (∀ it lb st st', Forall (λ v, isFinite (toTs rt v) = false) (atomDates it) →
       atomEntry rt base (Some lb) it st = Ok st' → st' = st)
  ∧ (∀ it lb st, Forall (λ v, isFinite (toTs rt v) = false) (rdfDates it) →
       rdfItem rt base (Some lb) it st = Ok st)
  ∧ (∀ foundUrl foundDate lb st,
       (∀ d, foundDate = Some d → isFinite (toTs rt (JStr d)) = false) →
       genericEmit rt base (Some lb) (foundUrl, foundDate) st = st).
Proof.
  assert (Hfeed : ∀ link vals lb st, Forall (λ v, isFinite (toTs rt v) = false) vals →
            feedItem rt base (Some lb) link (firstTs rt vals) st = st).
  { intros link vals lb st Hvals. unfold feedItem.
    rewrite (firstTs_none _ Hvals), includeByFrom_nan. by destruct (negb (truthy link)). }
  split; [done|]. split.
  { intros ts lb. simpl. apply andb_true_iff. }
  split.
  { intros vals lb Hvals. by rewrite (firstTs_none _ Hvals). }
  split.
  { intros it lb st Hl Hn Hv. unfold urlEntry.
    rewrite (urlTs_none it Hl Hn Hv), includeByFrom_nan. by rewrite andb_false_r. }
  split.
  { intros it lb st Hvals. unfold rssItem, rssTs. by rewrite Hfeed. }
  split.
  { intros it lb st st' Hvals. unfold atomEntry, atomTs.
    destruct (atomLink it); [|done]. rewrite Hfeed by done. by intros [= <-]. }
  split.
  { intros it lb st Hvals. unfold rdfItem, rdfTs. by rewrite Hfeed. }
  intros foundUrl foundDate lb st Hdate. unfold genericEmit. simpl.
  destruct foundUrl as [u|]; [|done]. destruct (String.eqb u ""); [done|].
  destruct foundDate as [d|]; [|done]. destruct (String.eqb d ""); [done|].
  unfold includeByFrom. by rewrite (Hdate d eq_refl).
Qed.

(** C3. A [fromDate] that is given, is not the empty string and does not
    normalise to a finite timestamp rejects the call with no fetch made,
    whatever the fuel; an absent one ([undefined], [null] or the empty
    string) gives the traversal without lower bound, where an entry is
    included when it has a location. *)
Theorem fromDate_validation (xmlUrl : string) :
  (∀ fuel fromDate, absent fromDate = false → isFinite (toTs rt fromDate) = false →
     getSitemapUrls rt fuel xmlUrl fromDate = mkRun (Rejected InvalidFromDate) [])
  ∧ (∀ fuel fromDate, fromDate = JUndef ∨ fromDate = JNull ∨ fromDate = JStr "" →
       lowerBound rt fromDate = None
       ∧ getSitemapUrls rt fuel xmlUrl fromDate = finish (crawl rt None fuel (initial xmlUrl)))
  ∧ (∀ it st, truthy (it?."loc") = true →
       urlEntry rt base None it st
       = for_each (altLink rt base None (urlTs rt it)) (altLinks it)
           (try_emit rt (trim (String_ rt (it?."loc"))) base st))
  ∧ (∀ link ts st, truthy link = true →
       feedItem rt base None link ts st = try_emit rt (trim (String_ rt link)) base st)
  ∧ (∀ foundUrl foundDate st, foundUrl ≠ "" →
       genericEmit rt base None (Some foundUrl, foundDate) st = try_emit rt foundUrl base st).
Proof.
  split.
  { intros fuel fromDate Habs Hts. unfold getSitemapUrls, lowerBound.
    by rewrite Habs, Hts. }
  split.
  { intros fuel fromDate Hcase.
    assert (Habs : absent fromDate = true) by (by destruct Hcase as [->|[->| ->]]).
    unfold getSitemapUrls, lowerBound. by rewrite Habs. }
  split.
  { intros it st Hloc. unfold urlEntry. by rewrite Hloc. }
  split.
  { intros link ts st Hlink. unfold feedItem. by rewrite Hlink. }
  intros foundUrl foundDate st Hne. unfold genericEmit. simpl.
  by apply String.eqb_neq in Hne as ->.
Qed.

End Inclusion.

End Timestamps.

(** ** The dialect test *)

Inductive dialect : Type :=
| SitemapIndex | UrlSet | Rss | Atom | Rdf | Generic.

(** The branch [processDoc] takes. *)
Definition classify (data : value) : dialect :=
  if truthy (data?."sitemapindex"?."sitemap") then SitemapIndex
  else if truthy (data?."urlset"?."url") then UrlSet
  else if truthy (data?."rss"?."channel") then Rss
  else if truthy (data?."feed") then Atom
  else if truthy (data?."RDF") || truthy (data?."rdf") || truthy (data?."rdf:RDF") then Rdf
  else Generic.

(** [k in v] for a plain object. *)
Definition has_key (k : string) (v : value) : bool :=
  match v with
  | JObj kvs => existsb (λ kv, String.eqb kv.1 k) kvs
  | _ => false
  end.

Section Dialects.

Context (rt : Runtime).

(** C7, amended. Each document is handled by exactly one extractor, chosen
    by testing in the fixed order sitemap index, URL set, RSS, Atom, RDF
    whether the value at the container path is truthy - not whether the key
    is present; the generic fallback takes what is left. *)
Theorem processDoc_dispatch (data : value) :
  (∀ base fromTs st,
     processDoc rt base fromTs data st =
     match classify data with
     | SitemapIndex => sitemapIndex rt base (data?."sitemapindex"?."sitemap") st
     | UrlSet => urlSet rt base fromTs (data?."urlset"?."url") st
     | Rss => rss rt base fromTs (data?."rss"?."channel") st
     | Atom => atom rt base fromTs (data?."feed") st
     | Rdf => rdf rt base fromTs (data?."RDF" ||| data?."rdf" ||| data?."rdf:RDF") st
     | Generic => genericFallback rt base fromTs data st
     end)
  ∧ (classify data = SitemapIndex ↔ truthy (data?."sitemapindex"?."sitemap") = true)
  ∧ (classify data = UrlSet ↔
       truthy (data?."sitemapindex"?."sitemap") = false
       ∧ truthy (data?."urlset"?."url") = true)
  ∧ (classify data = Rss ↔
       truthy (data?."sitemapindex"?."sitemap") = false
       ∧ truthy (data?."urlset"?."url") = false
       ∧ truthy (data?."rss"?."channel") = true)
  ∧ (classify data = Atom ↔
       truthy (data?."sitemapindex"?."sitemap") = false
       ∧ truthy (data?."urlset"?."url") = false
       ∧ truthy (data?."rss"?."channel") = false
       ∧ truthy (data?."feed") = true)
  ∧ (classify data = Rdf ↔
       truthy (data?."sitemapindex"?."sitemap") = false
       ∧ truthy (data?."urlset"?."url") = false
       ∧ truthy (data?."rss"?."channel") = false
       ∧ truthy (data?."feed") = false
       ∧ (truthy (data?."RDF") = true ∨ truthy (data?."rdf") = true
          ∨ truthy (data?."rdf:RDF") = true)).
Proof.
  unfold processDoc, classify.
  destruct (truthy (data?."sitemapindex"?."sitemap")).
  { repeat split; intros; try done; naive_solver. }
  destruct (truthy (data?."urlset"?."url")).
  { repeat split; intros; try done; naive_solver. }
  destruct (truthy (data?."rss"?."channel")).
  { repeat split; intros; try done; naive_solver. }
  destruct (truthy (data?."feed")).
  { repeat split; intros; try done; naive_solver. }
  destruct (truthy (data?."RDF")), (truthy (data?."rdf")), (truthy (data?."rdf:RDF"));
    simpl; repeat split; intros; try done; naive_solver.
Qed.

End Dialects.

(** ** Link selection in Atom entries *)

(** A link whose relation is [alternate] (also by default) and that carries
    an href. *)
Definition is_alternate (l : value) : bool :=
  match atomRel l with
  | Some rel => String.eqb rel "alternate" && truthy (atomHref l)
  | None => false
  end.

(** The relation of the link can be read: it is absent, falsy or a string. *)
Definition rel_ok (l : value) : Prop := is_Some (atomRel l).

Lemma chooseLink_alternate (pre post : list value) (alt : value) : ∀ chosen,
  Forall (λ l, rel_ok l ∧ is_alternate l = false) pre →
  is_alternate alt = true →
  chooseLink (pre ++ alt :: post) chosen = Some (atomHref alt).
Proof.
  unfold is_alternate, rel_ok.
  induction pre as [|l pre IH]; intros chosen Hpre Halt; simpl.
  - destruct (atomRel alt) as [rel|]; [|done]. by rewrite Halt.
  - apply Forall_cons in Hpre as [[[rel Hrel] Hl] Hpre]. rewrite Hrel in *.
    rewrite Hl. by apply IH.
Qed.

Lemma chooseLink_keep (L : list value) : ∀ chosen,
  truthy chosen = true →
  Forall (λ l, rel_ok l ∧ is_alternate l = false) L →
  chooseLink L chosen = Some chosen.
Proof.
  unfold is_alternate, rel_ok.
  induction L as [|l L IH]; intros chosen Hchosen HL; simpl; [done|].
  apply Forall_cons in HL as [[[rel Hrel] Hl] HL]. rewrite Hrel in *.
  rewrite Hl, Hchosen. simpl. by apply IH.
Qed.

Lemma chooseLink_first_href (pre post : list value) (l : value) : ∀ chosen,
  truthy chosen = false →
  Forall (λ l, rel_ok l ∧ truthy (atomHref l) = false) pre →
  rel_ok l → truthy (atomHref l) = true → is_alternate l = false →
  Forall (λ l, rel_ok l ∧ is_alternate l = false) post →
  chooseLink (pre ++ l :: post) chosen = Some (atomHref l).
Proof.
  unfold is_alternate, rel_ok.
  induction pre as [|l0 pre IH]; intros chosen Hchosen Hpre [rel Hrel] Hhref Hl Hpost; simpl.
  - rewrite Hrel in *. rewrite Hl, Hchosen. simpl. by apply chooseLink_keep.
  - apply Forall_cons in Hpre as [[[rel0 Hrel0] Hl0] Hpre]. rewrite Hrel0, Hl0, Hchosen.
    rewrite andb_false_r. simpl. apply IH; eauto.
Qed.

(** C8, amended. In a list of links, the first one that is [alternate] (by
    its relation or by default) and carries an href is selected, whatever
    follows it; when there is none, the selection is the href of the first
    link that carries one - not of the first link when that one has none. *)
Theorem chooseLink_spec :
  (∀ pre alt post,
     Forall (λ l, rel_ok l ∧ is_alternate l = false) pre →
     is_alternate alt = true →
     chooseLink (pre ++ alt :: post) JNull = Some (atomHref alt))
  ∧ (∀ pre l post,
       Forall (λ l, rel_ok l ∧ truthy (atomHref l) = false) pre →
       rel_ok l → truthy (atomHref l) = true →
       Forall (λ l, rel_ok l ∧ is_alternate l = false) (l :: post) →
       chooseLink (pre ++ l :: post) JNull = Some (atomHref l))
  ∧ atomLink (JObj [("link", JArr [JObj [("rel", JStr "self"); ("href", JStr "A")];
                                   JObj [("rel", JStr "alternate"); ("href", JStr "B")]])])
    = Some (JStr "B").
Proof.
  split; [|split].
  - intros pre alt post Hpre Halt. by apply chooseLink_alternate.
  - intros pre l post Hpre Hrel Hhref [[_ Hl] Hpost]%Forall_cons.
    by apply chooseLink_first_href.
  - reflexivity.
Qed.

(** ** Alternates of a URL-set entry *)

Section Alternates.

Context (rt : Runtime) (base : string) (fromTs : option float).

Lemma emit_results_mono abs st x : x ∈ results st → x ∈ results (emit abs st).
Proof.
  unfold emit. destruct (decide _); simpl; [done|]. intros. apply elem_of_app. by left.
Qed.

Lemma harvested_results_mono st st' x :
  harvested rt base st st' → x ∈ results st → x ∈ results st'.
Proof.
  intros (new & _ & ->). revert st. induction new as [|a new IH]; intros st Hx; [done|].
  simpl. apply IH. by apply emit_results_mono.
Qed.

Lemma harvested_deduped st st' : harvested rt base st st' → deduped st → deduped st'.
Proof. intros (new & _ & ->). apply deduped_emit_all. Qed.

Lemma emit_results abs st : deduped st → abs ∈ results (emit abs st).
Proof.
  intros [Hseen _]. unfold emit. destruct (decide _) as [Hin|Hin]; simpl.
  - simpl in Hin. by rewrite Hseen, elem_of_list_to_set in Hin.
  - apply elem_of_app. right. by left.
Qed.

(** Under a timestamp that passes the filter, the loop over the alternates
    puts the resolution of each qualifying link in the results. *)
Lemma altLinks_reach ts links : ∀ st st' l abs,
  includeByFrom ts fromTs = true → deduped st →
  for_each (altLink rt base fromTs ts) links st = Ok st' →
  l ∈ links → truthy (altHref l) = true → altRel l = Some "alternate" →
  URL_resolve rt (trim (String_ rt (altHref l))) base = Some abs →
  abs ∈ results st'.
Proof.
  induction links as [|l0 links IH]; intros st st' l abs Hinc Hd Hrun Hl Hhref Hrel Habs.
  { by apply elem_of_nil in Hl. }
  simpl in Hrun.
  pose proof (harvests_lands rt base _ st (harvests_altLink rt base fromTs ts l0 Hinc))
    as Hland.
  destruct (altLink rt base fromTs ts l0 st) as [st1| |] eqn:Hstep; [|done..].
  simpl in Hland.
  pose proof (harvests_lands rt base _ st1
                (harvests_for_each rt base (altLink rt base fromTs ts) links
                   (λ l _, harvests_altLink rt base fromTs ts l Hinc))) as Hrest.
  rewrite Hrun in Hrest. simpl in Hrest.
  apply elem_of_cons in Hl as [->|Hl].
  - eapply harvested_results_mono; [done|].
    unfold altLink in Hstep. rewrite Hrel, Hhref, Habs, Hinc in Hstep. simpl in Hstep.
    pose proof (emit_results abs st Hd) as Hemit. unfold emit in Hemit.
    destruct (decide _); by injection Hstep as <-.
  - apply (IH st1 st' l abs Hinc); [by eapply harvested_deduped|done..].
Qed.

(** C9, amended. For an entry that has a location, the resolution of a
    child link that is [alternate] and carries an href is in the results
    after the entry exactly when it was there before or the timestamp of the
    entry passes the filter; no date of the link is looked at.  An entry
    without a location is skipped together with its alternates: it leaves
    the state as it is, whatever its timestamp and its links.  A link that
    gives no relation counts as [alternate]. *)
Theorem alternates_follow_parent (it : value) (st : state) :
  (∀ st' l abs,
     deduped st →
     truthy (it?."loc") = true →
     urlEntry rt base fromTs it st = Ok st' →
     l ∈ altLinks it → truthy (altHref l) = true → altRel l = Some "alternate" →
     URL_resolve rt (trim (String_ rt (altHref l))) base = Some abs →
     (abs ∈ results st' ↔ abs ∈ results st ∨ includeByFrom (urlTs rt it) fromTs = true))
  ∧ (truthy (it?."loc") = false → urlEntry rt base fromTs it st = Ok st)
  ∧ (∀ l, nullish (l?."rel") = true → nullish (l?."@_rel") = true →
          altRel l = Some "alternate").
Proof.
  split; [|split].
  - intros st' l abs Hd Hloc Hrun Hl Hhref Hrel Habs.
    destruct (includeByFrom (urlTs rt it) fromTs) eqn:Hinc.
    + split; [by right|]. intros _.
      unfold urlEntry in Hrun. rewrite Hloc, Hinc in Hrun.
      assert (Hgo : for_each (altLink rt base fromTs (urlTs rt it)) (altLinks it)
                      (try_emit rt (trim (String_ rt (it?."loc"))) base st) = Ok st').
      { by destruct fromTs. }
      apply (altLinks_reach _ _ _ st' l abs Hinc) with (2 := Hgo); [|done..].
      eapply harvested_deduped; [apply harvested_try_emit|done].
    + unfold urlEntry in Hrun. rewrite Hloc, Hinc in Hrun.
      destruct fromTs; [|done]. simpl in Hrun. injection Hrun as <-. naive_solver.
  - intros Hloc. unfold urlEntry. rewrite Hloc. by destruct fromTs.
  - intros l Hrel Hrel'. unfold altRel, js_coalesce. by rewrite Hrel, Hrel'.
Qed.

End Alternates.

(** * Examples *)

Module Examples.

Definition A : string := "https://a.example/index-a.xml".
Definition B : string := "https://a.example/index-b.xml".
Definition C : string := "https://a.example/c.xml".
Definition D : string := "https://a.example/d.xml".

(** [<sitemapindex><sitemap><loc>u</loc></sitemap>...</sitemapindex>] *)
Definition index (locs : list string) : value :=
  JObj [("sitemapindex",
         JObj [("sitemap", JArr (map (λ u, JObj [("loc", JStr u)]) locs))])].

(** [<urlset><url><loc>u</loc><lastmod>d</lastmod></url>...</urlset>] *)
Definition urlset (urls : list (string * string)) : value :=
  JObj [("urlset",
         JObj [("url", JArr (map (λ u, JObj [("loc", JStr u.1); ("lastmod", JStr u.2)])
                                 urls))])].

(** Two indexes that list each other, and a URL set below each. *)
Definition docs : list (string * value) :=
  [(A, index [B; C]);
   (B, index [A; D]);
   (C, urlset [("/c1", "2023-01-01"); ("/c2", "20240101")]);
   (D, urlset [("https://a.example/c1", "2023-01-01 10:00:00"); ("/d1", "2024-05-05")])].

Definition rt : Runtime := Demo.runtime docs.

Lemma resolve_has_scheme (ref base u : string) :
  Demo.resolve ref base = Some u → has_scheme u = true.
Proof.
  unfold Demo.resolve.
  destruct (has_scheme (if has_scheme ref then ref else _)) eqn:E; [|done].
  by intros [= <-].
Qed.

Example cyclic_run :
  getSitemapUrls rt 10 A JUndef
  = mkRun (Resolved ["https://a.example/c1"; "https://a.example/c2"; "https://a.example/d1"])
          [A; C; B; D].
Proof. vm_compute. reflexivity. Qed.

Example filtered_run :
  getSitemapUrls rt 10 A (JStr "2023-06-01")
  = mkRun (Resolved ["https://a.example/c2"; "https://a.example/d1"]) [A; C; B; D].
Proof. vm_compute. reflexivity. Qed.

(** The entry URL redirects: the response ends at another host, and the
    path of the entry is resolved there. *)
Definition landing : string := "https://b.example/maps/sitemap.xml".

Definition moved : Runtime :=
  mkRuntime Demo.parse_date (λ _, "0") (λ _, "Invalid Date") Demo.resolve
            (λ u, if String.eqb u A
                  then Some (mkResponse true landing (Parsed (urlset [("/p1", "2023-01-01")])))
                  else None).

Example redirected_run :
  getSitemapUrls moved 5 A JUndef = mkRun (Resolved ["https://b.example/p1"]) [A].
Proof. vm_compute. reflexivity. Qed.

Lemma getSitemapUrls_results_witness :
  (∀ ref base u, URL_resolve moved ref base = Some u → has_scheme u = true)
  ∧ settled (getSitemapUrls moved 5 A JUndef) = Resolved ["https://b.example/p1"]
  ∧ NoDup ["https://b.example/p1"]
  ∧ Forall (λ x, has_scheme x = true) ["https://b.example/p1"]
  ∧ (∀ x, x ∈ ["https://b.example/p1"] →
       ∃ u res ref, u ∈ fetches (getSitemapUrls moved 5 A JUndef) ∧
         fetch moved u = Some res ∧
         URL_resolve moved ref (if String.eqb (res_url res) "" then u else res_url res)
         = Some x)
  ∧ ["https://b.example/p1"]
    = first_seen (flat_map (harvestOf moved (lowerBound moved JUndef))
                    (fetches (getSitemapUrls moved 5 A JUndef))).
Proof.
  assert (H1 : ∀ ref base u, URL_resolve moved ref base = Some u → has_scheme u = true)
    by apply resolve_has_scheme.
  assert (H2 : settled (getSitemapUrls moved 5 A JUndef) = Resolved ["https://b.example/p1"])
    by (vm_compute; reflexivity).
  split; [exact H1|]. split; [exact H2|].
  exact (getSitemapUrls_results moved 5 A JUndef _ H1 H2).
Defined.


(** *** Timestamps *)

Lemma toTs_idempotent_from_1e12_witness :
  (1e12 <=? toTs rt (JStr "2023-01-01"))%float = true
  ∧ toTs rt (JNum (toTs rt (JStr "2023-01-01"))) = toTs rt (JStr "2023-01-01")
  ∧ (toTs rt (JStr "123456789") <? 1e12)%float = true
  ∧ toTs rt (JNum (toTs rt (JStr "123456789"))) = (toTs rt (JStr "123456789") * 1000)%float.
Proof.
  assert (H1 : (1e12 <=? toTs rt (JStr "2023-01-01"))%float = true) by reflexivity.
  assert (H2 : (toTs rt (JStr "123456789") <? 1e12)%float = true) by reflexivity.
  split; [exact H1|]. split.
  - exact (proj1 (toTs_idempotent_from_1e12 rt (JStr "2023-01-01")) H1).
  - split; [exact H2|].
    exact (proj2 (toTs_idempotent_from_1e12 rt (JStr "123456789")) H2).
Defined.

(** C4 as stated fails on dates before 2001-09-09T01:46:40Z: 2000-01-01 in
    the [YYYYMMDD] shape, and an epoch in seconds, are multiplied by 1000
    when their millisecond value is normalised again. *)
Lemma toTs_not_idempotent_below_1e12 :
  toTs rt (JStr "20000101") = 946684800000%float
  ∧ toTs rt (JNum 946684800000%float) = 946684800000000%float
  ∧ toTs rt (JNum (toTs rt (JStr "20000101"))) ≠ toTs rt (JStr "20000101")
  ∧ toTs rt (JStr "123456789") = 123456789000%float
  ∧ toTs rt (JNum (toTs rt (JStr "123456789"))) ≠ toTs rt (JStr "123456789").
Proof.
  assert (Hne : ∀ x y : float, (x <? 1e14)%float ≠ (y <? 1e14)%float → x ≠ y)
    by (intros x y H ->; done).
  split; [reflexivity|]. split; [reflexivity|]. split; [|split; [reflexivity|]].
  - apply Hne. vm_compute. discriminate.
  - apply Hne. vm_compute. discriminate.
Qed.

Lemma toTs_numeric_witness :
  (1700000000 <? 1e12)%float = true
  ∧ toTs rt (JNum 1700000000%float) = 1700000000000%float
  ∧ (1700000000000 <? 1e12)%float = false
  ∧ toTs rt (JNum 1700000000000%float) = 1700000000000%float
  ∧ toTs rt (JStr "1700000000") = 1700000000000%float
  ∧ toTs rt (JStr "-1700000000") = (-1700000000000)%float.
Proof.
  destruct (toTs_numeric rt) as (Hlt & Hge & Hstr).
  assert (H1 : (1700000000 <? 1e12)%float = true) by reflexivity.
  assert (H2 : (1700000000000 <? 1e12)%float = false) by reflexivity.
  destruct (Hstr (chars "1700000000") eq_refl) as [H3 H4]; [simpl; lia|].
  split; [exact H1|].
  split; [etransitivity; [exact (Hlt 1700000000%float H1)|reflexivity]|].
  split; [exact H2|]. split; [exact (Hge 1700000000000%float H2)|].
  split.
  - etransitivity; [exact H3|]. reflexivity.
  - etransitivity; [exact H4|]. reflexivity.
Defined.

(** C6 as stated fails on a negative number of magnitude 10^12 or more: the
    comparison is signed, so the value is scaled although its magnitude is
    not below 10^12. *)
Lemma toTs_scales_large_negative :
  (abs (-2000000000000) <? 1e12)%float = false
  ∧ toTs rt (JNum (-2000000000000)%float) = (-2000000000000000)%float
  ∧ toTs rt (JNum (-2000000000000)%float) ≠ (-2000000000000)%float
  ∧ toTs rt (JStr "-2000000000000") = (-2000000000000000)%float.
Proof.
  split; [reflexivity|]. split; [reflexivity|]. split; [|reflexivity].
  intros H. apply (f_equal (λ x, (x <? -1e15)%float)) in H. vm_compute in H. discriminate.
Qed.

(** *** The inclusion predicate and the lower bound *)

Definition base : string := "https://a.example/sitemap.xml".

(** An entry whose dates do not parse. *)
Definition undated : value :=
  JObj [("loc", JStr "/x"); ("lastmod", JStr "yesterday");
        ("news", JObj [("publication_date", JStr "soon")])].

Lemma includeByFrom_spec_witness :
  isFinite (toTs rt (lastmodOf undated)) = false
  ∧ Forall (λ v, isFinite (toTs rt v) = false) (newsDates undated)
  ∧ Forall (λ v, isFinite (toTs rt v) = false) (videoDates undated)
  ∧ urlEntry rt base (Some 1700000000000%float) undated (initial "") = Ok (initial "")
  ∧ includeByFrom (firstTs rt (newsDates undated)) (Some 0%float) = false
  ∧ (includeByFrom 5 (Some 4%float) = true ↔ isFinite 5 = true ∧ (4 <=? 5)%float = true).
Proof.
  destruct (includeByFrom_spec rt base) as (_ & Hiff & Hfirst & Hurl & _).
  assert (H1 : isFinite (toTs rt (lastmodOf undated)) = false) by reflexivity.
  assert (H2 : Forall (λ v, isFinite (toTs rt v) = false) (newsDates undated))
    by (repeat (apply List.Forall_cons; [reflexivity|]); apply List.Forall_nil).
  assert (H3 : Forall (λ v, isFinite (toTs rt v) = false) (videoDates undated))
    by (repeat (apply List.Forall_cons; [reflexivity|]); apply List.Forall_nil).
  split; [exact H1|]. split; [exact H2|]. split; [exact H3|].
  split; [exact (Hurl undated _ (initial "") H1 H2 H3)|].
  split; [exact (Hfirst _ _ H2)|]. apply Hiff.
Defined.

Lemma fromDate_validation_witness :
  absent (JStr "not-a-date") = false
  ∧ isFinite (toTs rt (JStr "not-a-date")) = false
  ∧ getSitemapUrls rt 10 A (JStr "not-a-date") = mkRun (Rejected InvalidFromDate) []
  ∧ getSitemapUrls rt 10 A JNull = finish (crawl rt None 10 (initial A))
  ∧ feedItem rt base None (JStr "/x") nan (initial "") = try_emit rt "/x" base (initial "").
Proof.
  destruct (fromDate_validation rt base A) as (Hbad & Habsent & _ & Hfeed & _).
  assert (H1 : absent (JStr "not-a-date") = false) by reflexivity.
  assert (H2 : isFinite (toTs rt (JStr "not-a-date")) = false) by reflexivity.
  split; [exact H1|]. split; [exact H2|]. split; [exact (Hbad 10%nat _ H1 H2)|].
  split.
  - exact (proj2 (Habsent 10%nat JNull (or_intror (or_introl eq_refl)))).
  - exact (Hfeed (JStr "/x") nan (initial "") eq_refl).
Defined.

(** *** Dialects *)

(** C7 as stated fails on [<feed/>], which the parser gives as an empty
    string under the key [feed]: the key is there, no earlier container is,
    and the document goes to the generic fallback. *)
Lemma empty_feed_is_generic :
  has_key "feed" (JObj [("feed", JStr "")]) = true
  ∧ has_key "sitemapindex" (JObj [("feed", JStr "")]) = false
  ∧ has_key "urlset" (JObj [("feed", JStr "")]) = false
  ∧ has_key "rss" (JObj [("feed", JStr "")]) = false
  ∧ classify (JObj [("feed", JStr "")]) = Generic
  ∧ classify (JObj [("feed", JStr "")]) ≠ Atom
  ∧ processDoc rt base None (JObj [("feed", JStr "")]) (initial "")
    = genericFallback rt base None (JObj [("feed", JStr "")]) (initial "").
Proof. repeat split; try reflexivity. discriminate. Qed.

(** *** Atom links *)

Definition link (rel href : string) : value := JObj [("rel", JStr rel); ("href", JStr href)].

Lemma chooseLink_spec_witness :
  chooseLink [link "self" "A"; link "alternate" "B"; link "alternate" "C"] JNull
  = Some (JStr "B")
  ∧ chooseLink [JObj [("rel", JStr "self")]; link "self" "X"; link "related" "Y"] JNull
    = Some (JStr "X").
Proof.
  destruct chooseLink_spec as (Halt & Hfirst & _).
  split.
  - apply (Halt [link "self" "A"] (link "alternate" "B") [link "alternate" "C"]).
    + repeat constructor. by eexists.
    + reflexivity.
  - apply (Hfirst [JObj [("rel", JStr "self")]] (link "self" "X") [link "related" "Y"]).
    + repeat constructor. by eexists.
    + by eexists.
    + reflexivity.
    + repeat constructor; by eexists.
Defined.

(** C8 as stated fails when the first link has no href: the default is then
    the href of a later link, not that of the first link encountered. *)
Lemma first_link_without_href :
  atomHref (JObj [("rel", JStr "self")]) = JUndef
  ∧ is_alternate (JObj [("rel", JStr "self")]) = false
  ∧ is_alternate (link "self" "X") = false
  ∧ chooseLink [JObj [("rel", JStr "self")]; link "self" "X"] JNull = Some (JStr "X")
  ∧ chooseLink [JObj [("rel", JStr "self")]; link "self" "X"] JNull
    ≠ Some (atomHref (JObj [("rel", JStr "self")])).
Proof. repeat split; try reflexivity. discriminate. Qed.


(** *** Alternates *)

Definition hreflang (href : string) : value :=
  JObj [("rel", JStr "alternate"); ("hreflang", JStr "fr"); ("href", JStr href);
        ("lastmod", JStr "1999-01-01")].

(** An entry of 2024 with one alternate, whose own date is of 1999. *)
Definition localized : value :=
  JObj [("loc", JStr "/en"); ("lastmod", JStr "2024-01-01"); ("link", hreflang "/fr")].

(** 2023-06-01T00:00:00Z *)
Definition june2023 : option float := Some 1685577600000%float.

(** 2025-01-01T00:00:00Z *)
Definition january2025 : option float := Some 1735689600000%float.

Lemma alternates_follow_parent_witness :
  deduped (initial "")
  ∧ truthy (localized?."loc") = true
  ∧ urlEntry rt base june2023 localized (initial "")
    = Ok (after (urlEntry rt base june2023 localized (initial "")))
  ∧ hreflang "/fr" ∈ altLinks localized
  ∧ truthy (altHref (hreflang "/fr")) = true
  ∧ altRel (hreflang "/fr") = Some "alternate"
  ∧ URL_resolve rt (trim (String_ rt (altHref (hreflang "/fr")))) base
    = Some "https://a.example/fr"
  ∧ ("https://a.example/fr" ∈ results (after (urlEntry rt base june2023 localized (initial "")))
     ↔ "https://a.example/fr" ∈ results (initial "")
       ∨ includeByFrom (urlTs rt localized) june2023 = true)
  ∧ results (after (urlEntry rt base june2023 localized (initial "")))
    = ["https://a.example/en"; "https://a.example/fr"]
  ∧ results (after (urlEntry rt base january2025 localized (initial ""))) = [].
Proof.
  assert (H1 : deduped (initial "")) by (by split).
  assert (H2 : truthy (localized?."loc") = true) by reflexivity.
  assert (H3 : urlEntry rt base june2023 localized (initial "")
               = Ok (after (urlEntry rt base june2023 localized (initial ""))))
    by (vm_compute; reflexivity).
  assert (H4 : hreflang "/fr" ∈ altLinks localized) by (vm_compute; left).
  assert (H5 : truthy (altHref (hreflang "/fr")) = true) by reflexivity.
  assert (H6 : altRel (hreflang "/fr") = Some "alternate") by reflexivity.
  assert (H7 : URL_resolve rt (trim (String_ rt (altHref (hreflang "/fr")))) base
               = Some "https://a.example/fr") by reflexivity.
  repeat (split; [assumption|]).
  split; [exact (proj1 (alternates_follow_parent rt base june2023 localized (initial ""))
                   _ _ _ H1 H2 H3 H4 H5 H6 H7)|].
  split; vm_compute; reflexivity.
Defined.

(** An entry without location, dated 2024, with one alternate. *)
Definition unlocated : value :=
  JObj [("lastmod", JStr "2024-01-01"); ("link", hreflang "/fr")].

(** C9 as stated fails on an entry that has no location: the timestamp of
    the entry passes the filter and the alternate qualifies, but the entry
    is skipped as a whole and its alternate is not appended. *)
Lemma alternates_need_a_location :
  includeByFrom (urlTs rt unlocated) june2023 = true
  ∧ hreflang "/fr" ∈ altLinks unlocated
  ∧ truthy (altHref (hreflang "/fr")) = true
  ∧ altRel (hreflang "/fr") = Some "alternate"
  ∧ URL_resolve rt (trim (String_ rt (altHref (hreflang "/fr")))) base
    = Some "https://a.example/fr"
  ∧ urlEntry rt base june2023 unlocated (initial "") = Ok (initial "")
  ∧ "https://a.example/fr" ∉ results (initial "").
Proof.
  split; [reflexivity|]. split; [vm_compute; left|].
  repeat (split; [reflexivity|]). apply not_elem_of_nil.
Qed.

(** *** A cycle of two indexes *)

Definition site : gset string := {[A]} ∪ {[B]} ∪ {[C]} ∪ {[D]}.

Lemma children_site :
  children rt A = [B; C] ∧ children rt B = [A; D]
  ∧ children rt C = [] ∧ children rt D = [].
Proof. repeat split; vm_compute; reflexivity. Qed.

Lemma crawl_terminates_fetching_once_witness :
  A ∈ site
  ∧ (∀ u c, u ∈ site → c ∈ children rt u → c ∈ site)
  ∧ ∃ fuel, ∀ fuel', (fuel ≤ fuel')%nat →
      getSitemapUrls rt fuel' A JUndef = getSitemapUrls rt fuel A JUndef
      ∧ settled (getSitemapUrls rt fuel' A JUndef) ≠ Pending
      ∧ NoDup (fetches (getSitemapUrls rt fuel' A JUndef))
      ∧ (∀ urls, settled (getSitemapUrls rt fuel' A JUndef) = Resolved urls →
           (A ≠ "" → A ∈ fetches (getSitemapUrls rt fuel' A JUndef))
           ∧ (∀ u c, u ∈ fetches (getSitemapUrls rt fuel' A JUndef) →
                c ∈ children rt u → c ≠ "" →
                c ∈ fetches (getSitemapUrls rt fuel' A JUndef))
           ∧ (∀ u x, u ∈ fetches (getSitemapUrls rt fuel' A JUndef) →
                x ∈ harvestOf rt (lowerBound rt JUndef) u → x ∈ urls)).
Proof.
  assert (H1 : A ∈ site) by (unfold site; set_solver).
  assert (H2 : ∀ u c, u ∈ site → c ∈ children rt u → c ∈ site).
  { destruct children_site as (HA & HB & HC & HD).
    intros u c Hu Hc. unfold site in *.
    repeat (apply elem_of_union in Hu as [Hu|Hu]);
      apply elem_of_singleton in Hu; subst u;
      rewrite ?HA, ?HB, ?HC, ?HD in Hc; set_solver. }
  split; [exact H1|]. split; [exact H2|].
  exact (crawl_terminates_fetching_once rt site A JUndef H1 H2).
Defined.

(** *** An endless chain of indexes *)

(** Every URL serves a sitemap index that lists the relative reference
    [x/], and a reference is resolved by appending it to the base: each
    document refers to a new one. *)
Definition endless : Runtime :=
  mkRuntime Demo.parse_date (λ _, "0") (λ _, "Invalid Date")
            (λ ref base, Some (base ++ ref)%string)
            (λ u, Some (mkResponse true u (Parsed (index ["x/"])))).

Definition root : string := "https://a.example/".

Lemma length_append (s1 s2 : string) :
  String.length (s1 ++ s2) = (String.length s1 + String.length s2)%nat.
Proof. induction s1 as [|c s1 IH]; simpl; [done|]. by rewrite IH. Qed.

Lemma endless_visit fromTs u st :
  visitDoc endless fromTs u st
  = Ok (enqueue [(u ++ "x/")%string] (log_fetch u (visit u st))).
Proof.
  unfold visitDoc. cbn [fetch endless res_ok res_body negb]. unfold processDoc.
  change (truthy ((index ["x/"])?."sitemapindex"?."sitemap")) with true. cbn iota.
  rewrite sitemapIndex_spec. do 2 f_equal.
  unfold docBase. cbn [res_url]. by destruct (String.eqb u "").
Qed.

(** The chain is walked for ever: one URL is queued, longer than every
    URL visited so far. *)
Lemma endless_crawl fromTs fuel : ∀ u st,
  queue st = [u] → u ≠ "" →
  (∀ v, v ∈ visited st → (String.length v < String.length u)%nat) →
  crawl endless fromTs fuel st = Timeout.
Proof.
  induction fuel as [|fuel IH]; intros u st Hq Hne Hvis; [done|].
  rewrite crawl_S, Hq.
  apply String.eqb_neq in Hne as Hne'. rewrite Hne'. cbn [orb].
  rewrite bool_decide_eq_false_2.
  2:{ intros Hin. apply Hvis in Hin. lia. }
  rewrite endless_visit. apply (IH (u ++ "x/")%string).
  - unfold enqueue. simpl. rewrite filter_cons, filter_nil.
    rewrite decide_True; [done|].
    intros [Hin%elem_of_singleton|Hin]%elem_of_union.
    + apply (f_equal String.length) in Hin. rewrite length_append in Hin. simpl in Hin. lia.
    + apply Hvis in Hin. rewrite length_append in Hin. simpl in Hin. lia.
  - intros Heq. apply (f_equal String.length) in Heq. rewrite length_append in Heq.
    simpl in Heq. lia.
  - simpl. intros v [Hin%elem_of_singleton|Hin]%elem_of_union.
    + subst v. rewrite length_append. simpl. lia.
    + apply Hvis in Hin. rewrite length_append. lia.
Qed.

(** C5 as stated fails on a graph that is not finite: every document of
    the chain lists one new document, no URL is ever met twice, and the
    call is still pending after any number of iterations. *)
Lemma endless_chain_never_settles :
  children endless root = ["https://a.example/x/"]
  ∧ children endless "https://a.example/x/" = ["https://a.example/x/x/"]
  ∧ (∀ u, children endless u = [(u ++ "x/")%string])
  ∧ (∀ fuel fromDate,
       absent fromDate = true ∨ isFinite (toTs endless fromDate) = true →
       settled (getSitemapUrls endless fuel root fromDate) = Pending).
Proof.
  split; [reflexivity|]. split; [reflexivity|]. split.
  - intros u. unfold children, document. cbn [fetch endless res_ok res_body].
    change (truthy ((index ["x/"])?."sitemapindex"?."sitemap")) with true. cbn iota.
    unfold docBase. cbn [res_url]. by destruct (String.eqb u "").
  - intros fuel fromDate Hvalid. unfold getSitemapUrls.
    assert (Hgo : negb (absent fromDate)
                  && negb match lowerBound endless fromDate with
                          | Some t => isFinite t
                          | None => false
                          end = false).
    { unfold lowerBound. destruct (absent fromDate); [done|].
      destruct Hvalid as [Hv|Hv]; [done|]. by rewrite Hv. }
    rewrite Hgo. rewrite (endless_crawl _ fuel root); [done|done|done|].
    intros v Hv. by apply elem_of_empty in Hv.
Qed.

End Examples.

(** * Further properties of the normaliser *)

Section Normaliser.

Context (rt : Runtime).

(** X1. [firstTs] returns the timestamp of the first candidate that
    normalises to a finite value, whatever follows it; its result is finite
    or not-a-number, never an infinity. *)
Theorem firstTs_first_finite :
  (∀ pre v post,
     Forall (λ w, isFinite (toTs rt w) = false) pre →
     isFinite (toTs rt v) = true →
     firstTs rt (pre ++ v :: post) = toTs rt v)
  ∧ (∀ vals, isFinite (firstTs rt vals) = true ∨ firstTs rt vals = nan).
Proof.
  split.
  - intros pre v post Hpre Hv. induction Hpre as [|w pre Hw _ IH]; simpl.
    + by rewrite Hv.
    + by rewrite Hw.
  - induction vals as [|v vals IH]; simpl; [by right|].
    destruct (isFinite (toTs rt v)) eqn:Hv; [by left|done].
Qed.

Definition tight_head (l : list ascii) : Prop :=
  match l with
  | [] => True
  | c :: _ => is_space c = false
  end.

Lemma drop_while_tight l : tight_head (drop_while is_space l).
Proof.
  induction l as [|c l IH]; simpl; [done|].
  destruct (is_space c) eqn:Hc; [done|]. simpl. done.
Qed.

Lemma drop_while_id l : tight_head l → drop_while is_space l = l.
Proof. destruct l as [|c l]; simpl; [done|]. by intros ->. Qed.

Lemma drop_while_snoc l c :
  is_space c = false → drop_while is_space (l ++ [c]) = drop_while is_space l ++ [c].
Proof.
  intros Hc. induction l as [|a l IH]; simpl.
  - by rewrite Hc.
  - destruct (is_space a); [done|done].
Qed.

Lemma trim_idempotent (s : string) : trim (trim s) = trim s.
Proof.
  unfold trim. rewrite chars_str.
  set (l1 := drop_while is_space (chars s)).
  assert (H1 : tight_head l1) by apply drop_while_tight.
  assert (H2 : tight_head (rev (drop_while is_space (rev l1)))).
  { destruct l1 as [|c r]; [done|]. simpl in H1. simpl rev.
    rewrite drop_while_snoc by done. by rewrite rev_app_distr. }
  rewrite (drop_while_id _ H2), rev_involutive.
  by rewrite (drop_while_id _ (drop_while_tight _)).
Qed.

Lemma drop_while_spaces pre l :
  Forall (λ c, is_space c = true) pre → drop_while is_space (pre ++ l) = drop_while is_space l.
Proof. induction 1 as [|c pre Hc _ IH]; simpl; [done|]. by rewrite Hc. Qed.

Lemma drop_while_app l m :
  drop_while is_space (l ++ m)
  = match drop_while is_space l with
    | [] => drop_while is_space m
    | d => d ++ m
    end.
Proof.
  induction l as [|c l IH]; simpl; [by destruct (drop_while is_space m)|].
  destruct (is_space c); [apply IH|done].
Qed.

Lemma trim_padded (s : string) (pre post : list ascii) :
  Forall (λ c, is_space c = true) pre → Forall (λ c, is_space c = true) post →
  trim (str (pre ++ chars s ++ post)) = trim s.
Proof.
  intros Hpre Hpost. unfold trim. rewrite chars_str, drop_while_spaces by done.
  rewrite drop_while_app.
  assert (Hrev : Forall (λ c, is_space c = true) (rev post)).
  { apply Forall_forall. intros c Hc. rewrite Forall_forall in Hpost.
    apply Hpost. by apply elem_of_rev. }
  destruct (drop_while is_space (chars s)) as [|c d] eqn:Hd.
  - replace (drop_while is_space post) with (drop_while is_space (post ++ []))
      by (by rewrite app_nil_r).
    rewrite (drop_while_spaces post []) by done. done.
  - rewrite rev_app_distr, drop_while_spaces by done. done.
Qed.

(** X2. White space around a date string does not matter - the white space
    of [trim], the no-break space included: a string that is not blank
    normalises to what its trimmed form normalises to, and padding it with
    white space on either side does not change its timestamp. *)
Theorem toTs_ignores_outer_space (s : string) :
  trim s ≠ "" →
  toTs rt (JStr s) = toTs rt (JStr (trim s))
  ∧ ∀ pre post,
      Forall (λ c, is_space c = true) pre → Forall (λ c, is_space c = true) post →
      toTs rt (JStr (str (pre ++ chars s ++ post))) = toTs rt (JStr s).
Proof.
  assert (Htrim : ∀ x, trim x ≠ "" → toTs rt (JStr x) = toTs rt (JStr (trim x))).
  { intros x Hne.
    assert (Hx : String.eqb x "" = false).
    { apply String.eqb_neq. intros ->. by apply Hne. }
    apply String.eqb_neq in Hne.
    unfold toTs. cbn [nullish orb is_empty_string String_].
    by rewrite Hx, Hne, trim_idempotent. }
  intros Hne. split; [by apply Htrim|].
  intros pre post Hpre Hpost.
  rewrite (Htrim s Hne), Htrim; rewrite trim_padded by done; done.
Qed.

End Normaliser.

(** * The calendar rules of the normaliser *)

Section Calendar.

Context (rt : Runtime).

Lemma strip_minus_length l : (length (strip_minus l) ≤ length l)%nat.
Proof. destruct l as [|c r]; simpl; [done|]. destruct (Ascii.eqb c "-"); simpl; lia. Qed.

Lemma strip_minus_length_ge l : (length l ≤ S (length (strip_minus l)))%nat.
Proof. destruct l as [|c r]; simpl; [lia|]. destruct (Ascii.eqb c "-"); simpl; lia. Qed.

(** The epoch rule takes 9 to 13 digits: shorter and longer strings pass on
    to the calendar rules. *)
Lemma re_epoch_length l :
  (length l < 9 ∨ 14 < length l)%nat → re_epoch (str l) = false.
Proof.
  intros Hlen. unfold re_epoch. rewrite chars_str.
  pose proof (strip_minus_length l). pose proof (strip_minus_length_ge l).
  destruct Hlen.
  - replace (9 <=? length (strip_minus l))%nat with false
      by (symmetry; apply Nat.leb_gt; lia).
    by rewrite andb_false_r.
  - replace (length (strip_minus l) <=? 13)%nat with false
      by (symmetry; apply Nat.leb_gt; lia).
    by rewrite andb_false_r.
Qed.

Lemma match_shape_short shape l :
  (length l < length shape)%nat → match_shape shape l = None.
Proof.
  revert l. induction shape as [|p ps IH]; intros l Hlen; simpl in *; [lia|].
  destruct l as [|c r]; [done|]. destruct (p c); [|done]. apply IH. simpl in Hlen. lia.
Qed.

Lemma digit_not_blank (c : ascii) : is_digit c = true → Ascii.eqb c " " = false.
Proof. destruct c as [[] [] [] [] [] [] [] []]; vm_compute; congruence. Qed.

(** X3. A string of exactly eight digits is read as [YYYYMMDD] at UTC
    midnight: its timestamp is what [Date.parse] gives for
    [YYYY-MM-DDT00:00:00Z]; only when that is not finite (no such day) does
    the string go to [Date.parse] as it is. *)
Theorem toTs_basic_date (y1 y2 y3 y4 m1 m2 d1 d2 : ascii) :
  Forall (λ c, is_digit c = true) [y1; y2; y3; y4; m1; m2; d1; d2] →
  toTs rt (JStr (str [y1; y2; y3; y4; m1; m2; d1; d2]))
  = let t := Date_parse rt
               (str ([y1; y2; y3; y4; "-"; m1; m2; "-"; d1; d2]%char ++ chars "T00:00:00Z")) in
    if isFinite t then t
    else let t' := Date_parse rt (str [y1; y2; y3; y4; m1; m2; d1; d2]) in
         if isFinite t' then t' else nan.
Proof.
  intros Hd.
  assert (Hall : forallb is_digit [y1; y2; y3; y4; m1; m2; d1; d2] = true).
  { apply forallb_forall. intros c Hc. rewrite Forall_forall in Hd.
    apply Hd. by apply list_elem_of_In. }
  apply Forall_cons in Hd as [Hy1 Hd].
  assert (Hd2 : is_digit d2 = true).
  { rewrite Forall_forall in Hd. apply Hd. set_solver. }
  set (l := [y1; y2; y3; y4; m1; m2; d1; d2]) in *.
  assert (Htrim : trim (str l) = str l).
  { apply (trim_tight y1 d2 [y2; y3; y4; m1; m2; d1]); by apply digit_not_space. }
  assert (Hepoch : re_epoch (str l) = false) by (apply re_epoch_length; simpl; lia).
  assert (Hbasic : re_basic_date (str l) = true).
  { unfold re_basic_date. by rewrite chars_str, Hall. }
  assert (Hunz : re_unzoned (str l) = false).
  { unfold re_unzoned. rewrite chars_str, match_shape_short; [done|simpl; lia]. }
  unfold toTs. cbn [nullish orb is_empty_string String_].
  replace (String.eqb (str l) "") with false by done.
  rewrite Htrim, Hepoch, Hbasic, Hunz. reflexivity.
Qed.

(** X4. A date-time [YYYY-MM-DD HH:mm:ss] (or with [T] for the blank) that
    names no zone is read as UTC: its timestamp is what [Date.parse] gives
    for the same text with [T] as separator and [Z] appended; only when that
    is not finite does the string go to [Date.parse] as it is. *)
Theorem toTs_unzoned_is_utc (sep y1 y2 y3 y4 m1 m2 d1 d2 h1 h2 i1 i2 s1 s2 : ascii) :
  Forall (λ c, is_digit c = true)
    [y1; y2; y3; y4; m1; m2; d1; d2; h1; h2; i1; i2; s1; s2] →
  sep = " "%char ∨ sep = "T"%char →
  toTs rt (JStr (str [y1; y2; y3; y4; "-"; m1; m2; "-"; d1; d2; sep;
                      h1; h2; ":"; i1; i2; ":"; s1; s2]%char))
  = let t := Date_parse rt
               (str [y1; y2; y3; y4; "-"; m1; m2; "-"; d1; d2; "T";
                     h1; h2; ":"; i1; i2; ":"; s1; s2; "Z"]%char) in
    if isFinite t then t
    else let t' := Date_parse rt
                     (str [y1; y2; y3; y4; "-"; m1; m2; "-"; d1; d2; sep;
                           h1; h2; ":"; i1; i2; ":"; s1; s2]%char) in
         if isFinite t' then t' else nan.
Proof.
  intros Hd Hsep.
  repeat (apply Forall_cons in Hd as [? Hd]).
  set (l := [y1; y2; y3; y4; "-"; m1; m2; "-"; d1; d2; sep;
             h1; h2; ":"; i1; i2; ":"; s1; s2]%char).
  assert (Htrim : trim (str l) = str l).
  { apply (trim_tight y1 s2 [y2; y3; y4; "-"; m1; m2; "-"; d1; d2; sep;
                             h1; h2; ":"; i1; i2; ":"; s1]%char);
      by apply digit_not_space. }
  assert (Hepoch : re_epoch (str l) = false) by (apply re_epoch_length; simpl; lia).
  assert (Hbasic : re_basic_date (str l) = false).
  { unfold re_basic_date. rewrite chars_str. simpl length. by rewrite andb_false_r. }
  assert (Hunz : re_unzoned (str l) = true).
  { unfold re_unzoned. rewrite chars_str. unfold l, d4_d2_d2. cbn [app match_shape].
    repeat match goal with
           | Hc : is_digit ?c = true |- context [is_digit ?c] => rewrite Hc
           end.
    by destruct Hsep as [-> | ->]. }
  assert (Hrepl : str (replace_blank (chars (str l)))
                  = str [y1; y2; y3; y4; "-"; m1; m2; "-"; d1; d2; "T";
                         h1; h2; ":"; i1; i2; ":"; s1; s2]%char).
  { rewrite chars_str. unfold l. cbn [replace_blank].
    repeat match goal with
           | Hc : is_digit ?c = true |- context [Ascii.eqb ?c " "] =>
               rewrite (digit_not_blank c Hc)
           end.
    by destruct Hsep as [-> | ->]. }
  unfold toTs. cbn [nullish orb is_empty_string String_].
  replace (String.eqb (str l) "") with false by done.
  rewrite Htrim, Hepoch, Hbasic, Hunz, Hrepl. reflexivity.
Qed.

End Calendar.

(** * Further properties of the driver *)

Section Driver.

Context (rt : Runtime).

Lemma emit_all_results new st : ∃ more, results (emit_all new st) = results st ++ more.
Proof.
  revert st. induction new as [|a new IH]; intros st; simpl.
  - exists []. by rewrite app_nil_r.
  - destruct (IH (emit a st)) as [more ->]. unfold emit.
    destruct (decide _); simpl.
    + by exists more.
    + exists (a :: more). by rewrite <- app_assoc.
Qed.

(** X5. A sitemap index only grows the frontier: it never throws, leaves
    the results and both sets as they are, and pushes the locations that
    resolve and are not visited yet, so that the one listed last is on top
    of the queue. *)
Theorem sitemapIndex_only_enqueues (base : string) (sitemap : value) (st : state) :
  ∃ st', sitemapIndex rt base sitemap st = Ok st'
    ∧ queue st' = rev (filter (λ u, u ∉ visited st) (indexTargets rt base sitemap)) ++ queue st
    ∧ visited st' = visited st
    ∧ results st' = results st
    ∧ seen st' = seen st.
Proof.
  rewrite sitemapIndex_spec. eexists. split; [reflexivity|]. by repeat split.
Qed.

(** X6. Only a sitemap index grows the frontier: a document of any other
    dialect leaves the queue and the visited set as they are, whether its
    extractor ends normally or throws, and what it does to the results is
    to append to them. *)
Theorem harvest_keeps_frontier (base : string) (fromTs : option float) (data : value)
    (st : state) :
  truthy (data?."sitemapindex"?."sitemap") = false →
  ∃ e st' more, processDoc rt base fromTs data st = ending e st'
    ∧ queue st' = queue st
    ∧ visited st' = visited st
    ∧ results st' = results st ++ more.
Proof.
  intros Hindex.
  assert (Hharv : ∃ new e, Forall (resolved_at rt base) new ∧
            ∀ st, processDoc rt base fromTs data st = ending e (emit_all new st)).
  { unfold processDoc. rewrite Hindex.
    destruct (truthy (data?."urlset"?."url")); [apply harvests_urlSet|].
    destruct (truthy (data?."rss"?."channel")); [apply harvests_rss|].
    destruct (truthy (data?."feed")); [apply harvests_atom|].
    destruct (_ || _); [apply harvests_rdf|].
    apply harvests_genericFallback. }
  destruct Hharv as (new & e & _ & Hrun).
  destruct (emit_all_results new st) as [more Hmore].
  destruct (emit_all_frame new st) as (Hq & Hv & _).
  exists e, (emit_all new st), more. by rewrite Hrun.
Qed.

(** The loop hands on what the body of an iteration throws. *)
Lemma crawl_single fromTs fuel c st :
  c ≠ "" → c ∉ visited st → queue st = [c] →
  crawl rt fromTs (S (S fuel)) st
  = match visitDoc rt fromTs c (set_queue [] st) with
    | Ok st' => match queue st' with
                | [] => Ok st'
                | _ => crawl rt fromTs (S fuel) st'
                end
    | o => o
    end.
Proof.
  intros Hne Hvis Hq. rewrite crawl_S, Hq.
  replace (String.eqb c "" || bool_decide (c ∈ visited (set_queue [] st))) with false.
  - destruct (visitDoc rt fromTs c (set_queue [] st)) as [st'| |]; [|done..].
    rewrite crawl_S. by destruct (queue st').
  - symmetry. apply orb_false_iff. split; [by apply String.eqb_neq|].
    by apply bool_decide_eq_false.
Qed.

(** X7. What a failing entry document does to the call: when [fetch]
    throws, the status is not a success or the text does not parse, the call
    resolves to the empty list after that one fetch; when reading the body
    rejects, the call rejects. An empty entry URL resolves to the empty list
    with no fetch at all. *)
Theorem entry_document_failures (fuel : nat) (xmlUrl : string) (fromDate : value) :
  absent fromDate = true ∨ isFinite (toTs rt fromDate) = true →
  (xmlUrl = "" →
     getSitemapUrls rt (S (S fuel)) xmlUrl fromDate = mkRun (Resolved []) [])
  ∧ (xmlUrl ≠ "" → fetch rt xmlUrl = None →
     getSitemapUrls rt (S (S fuel)) xmlUrl fromDate = mkRun (Resolved []) [xmlUrl])
  ∧ (∀ res, xmlUrl ≠ "" → fetch rt xmlUrl = Some res →
       res_ok res = false ∨ (res_ok res = true ∧ res_body res = NotXml) →
       getSitemapUrls rt (S (S fuel)) xmlUrl fromDate = mkRun (Resolved []) [xmlUrl])
  ∧ (∀ res, xmlUrl ≠ "" → fetch rt xmlUrl = Some res →
       res_ok res = true → res_body res = BodyError →
       getSitemapUrls rt (S (S fuel)) xmlUrl fromDate
       = mkRun (Rejected BodyReadError) [xmlUrl]).
Proof.
  intros Hvalid.
  assert (Hgo : getSitemapUrls rt (S (S fuel)) xmlUrl fromDate
                = finish (crawl rt (lowerBound rt fromDate) (S (S fuel)) (initial xmlUrl))).
  { unfold getSitemapUrls, lowerBound.
    destruct (absent fromDate); [done|]. destruct Hvalid as [H|H]; [done|].
    by rewrite H. }
  rewrite Hgo. clear Hgo.
  split; [by intros ->|].
  assert (Hstep : xmlUrl ≠ "" →
            crawl rt (lowerBound rt fromDate) (S (S fuel)) (initial xmlUrl)
            = match visitDoc rt (lowerBound rt fromDate) xmlUrl
                      (set_queue [] (initial xmlUrl)) with
              | Ok st' => match queue st' with
                          | [] => Ok st'
                          | _ => crawl rt (lowerBound rt fromDate) (S fuel) st'
                          end
              | o => o
              end).
  { intros Hne. apply crawl_single; [done| |done]. simpl. set_solver. }
  split; [|split].
  - intros Hne Hfetch. rewrite (Hstep Hne). unfold visitDoc. by rewrite Hfetch.
  - intros res Hne Hfetch Hres. rewrite (Hstep Hne). unfold visitDoc. rewrite Hfetch.
    destruct Hres as [Hok|[Hok Hbody]]; rewrite Hok; [done|]. by rewrite Hbody.
  - intros res Hne Hfetch Hok Hbody. rewrite (Hstep Hne). unfold visitDoc.
    by rewrite Hfetch, Hok, Hbody.
Qed.

(** Every URL in the queue or in the visited set is the entry URL or a
    child of a document that was fetched. *)
Definition reached_inv (xmlUrl : string) (st : state) : Prop :=
  (∀ u, u ∈ fetched st ↔ u ∈ visited st)
  ∧ ∀ u, u ∈ queue st ∨ u ∈ visited st →
         u = xmlUrl ∨ ∃ p, p ∈ fetched st ∧ u ∈ children rt p.

Lemma reached_inv_crawl xmlUrl fromTs fuel st :
  reached_inv xmlUrl st →
  match crawl rt fromTs fuel st with
  | Ok st' | Throw _ st' => reached_inv xmlUrl st'
  | Timeout => True
  end.
Proof.
  apply crawl_invariant.
  - clear st. intros st c q [Hlog Hreach] Hq Hc. split; [done|]. simpl.
    intros u Hu. apply Hreach. rewrite Hq. set_solver.
  - clear st. intros st c q [Hlog Hreach] Hq Hne Hvis. unfold reached_inv.
    destruct (visit_fields rt (harvestOf rt fromTs c) c q st) as (-> & -> & ->).
    split.
    + intros u. rewrite elem_of_app, list_elem_of_singleton, Hlog. set_solver.
    + intros u Hu.
      assert (Hcases : u ∈ children rt c ∨ u ∈ queue st ∨ u ∈ visited st).
      { rewrite Hq. destruct Hu as [Hu|Hu].
        - apply elem_of_app in Hu as [Hu|Hu]; [|set_solver].
          apply elem_of_rev, list_elem_of_filter in Hu. tauto.
        - apply elem_of_union in Hu as [->%elem_of_singleton|Hu]; set_solver. }
      destruct Hcases as [Hu'|Hu'].
      * right. exists c. split; [|done]. apply elem_of_app. right. by left.
      * destruct (Hreach u Hu') as [->|(p & Hp & Hup)]; [by left|].
        right. exists p. split; [|done]. apply elem_of_app. by left.
Qed.

(** X8. The traversal fetches nothing but the entry URL and the documents a
    fetched sitemap index lists: a URL found in a URL set or a feed is never
    fetched for that. *)
Theorem fetches_are_reached (fuel : nat) (xmlUrl : string) (fromDate : value) (u : string) :
  u ∈ fetches (getSitemapUrls rt fuel xmlUrl fromDate) →
  u = xmlUrl ∨ ∃ p, p ∈ fetches (getSitemapUrls rt fuel xmlUrl fromDate)
                    ∧ u ∈ children rt p.
Proof.
  unfold getSitemapUrls.
  destruct (negb (absent fromDate) && _); simpl; [by intros ?%elem_of_nil|].
  pose proof (reached_inv_crawl xmlUrl (lowerBound rt fromDate) fuel (initial xmlUrl)) as H.
  assert (Hinit : reached_inv xmlUrl (initial xmlUrl)).
  { split; simpl; [set_solver|]. intros v [Hv|Hv]; [left|]; set_solver. }
  specialize (H Hinit).
  destruct (crawl rt _ fuel (initial xmlUrl)) as [st|e st|]; simpl;
    [| |by intros ?%elem_of_nil].
  all: destruct H as [Hlog Hreach]; intros Hu; apply Hreach; right; by apply Hlog.
Qed.

Lemma filter_all {A} (P : A → Prop) `{∀ x, Decision (P x)} (l : list A) :
  (∀ x, x ∈ l → P x) → filter P l = l.
Proof.
  induction l as [|a l IH]; intros Hall; [done|].
  rewrite filter_cons_True by (apply Hall; by left).
  f_equal. apply IH. intros x Hx. apply Hall. by right.
Qed.

Lemma NoDup_rev_stack {A} (l : list A) : NoDup l → NoDup (rev l).
Proof. rewrite !NoDup_ListNoDup. apply List.NoDup_rev. Qed.

(** A queue of documents that are not indexes is fetched from the top down. *)
Lemma crawl_leaves fromTs fuel : ∀ st st',
  crawl rt fromTs fuel st = Ok st' →
  NoDup (queue st) →
  (∀ c, c ∈ queue st → c ≠ "" ∧ (c ∉ visited st) ∧ children rt c = []) →
  fetched st' = fetched st ++ queue st.
Proof.
  induction fuel as [|fuel IH]; intros st st' Hrun Hnd Hleaf; [done|].
  rewrite crawl_S in Hrun. destruct (queue st) as [|c q] eqn:Hq.
  { injection Hrun as <-. by rewrite app_nil_r. }
  destruct (Hleaf c ltac:(by left)) as (Hne & Hvis & Hch).
  replace (String.eqb c "" || bool_decide (c ∈ visited (set_queue q st))) with false in Hrun.
  2: { symmetry. apply orb_false_iff. split; [by apply String.eqb_neq|].
       by apply bool_decide_eq_false. }
  destruct (visitDoc_harvest rt fromTs c) as (_ & e & Hv).
  rewrite Hv, Hch in Hrun. destruct e as [e|]; [done|]. simpl in Hrun.
  destruct (visit_fields rt (harvestOf rt fromTs c) c q st) as (Hq' & Hvis' & Hf').
  rewrite Hch in Hq', Hvis', Hf'. simpl in Hq'.
  apply NoDup_cons in Hnd as [Hcq Hnd].
  rewrite (IH _ _ Hrun).
  - rewrite Hf', Hq'. by rewrite <- app_assoc.
  - by rewrite Hq'.
  - intros c' Hc'. rewrite Hq' in Hc'. rewrite Hvis'.
    destruct (Hleaf c' ltac:(by right)) as (? & ? & ?).
    repeat split; [done| |done]. set_solver.
Qed.

(** X9. The queue is a stack: when the entry document is an index of
    distinct documents that are not indexes themselves, a call that resolves
    has fetched the entry URL and then its children from the last listed to
    the first. *)
Theorem index_children_last_first (fuel : nat) (xmlUrl : string) (fromDate : value)
    (urls : list string) :
  xmlUrl ≠ "" → NoDup (children rt xmlUrl) →
  (∀ c, c ∈ children rt xmlUrl → c ≠ "" ∧ c ≠ xmlUrl ∧ children rt c = []) →
  settled (getSitemapUrls rt fuel xmlUrl fromDate) = Resolved urls →
  fetches (getSitemapUrls rt fuel xmlUrl fromDate) = xmlUrl :: rev (children rt xmlUrl).
Proof.
  intros Hne Hnd Hleaf. unfold getSitemapUrls.
  destruct (negb (absent fromDate) && _); [done|].
  destruct fuel as [|fuel]; [done|].
  rewrite crawl_S. cbn [initial queue].
  replace (String.eqb xmlUrl "" || bool_decide (xmlUrl ∈ visited (set_queue [] (initial xmlUrl))))
    with false.
  2: { symmetry. apply orb_false_iff. split; [by apply String.eqb_neq|].
       apply bool_decide_eq_false. simpl. set_solver. }
  destruct (visitDoc_harvest rt (lowerBound rt fromDate) xmlUrl) as (_ & e & Hv).
  rewrite Hv. destruct e as [e|]; [done|]. simpl.
  set (st1 := emit_all _ _).
  destruct (visit_fields rt (harvestOf rt (lowerBound rt fromDate) xmlUrl) xmlUrl []
              (initial xmlUrl)) as (Hq & Hvis & Hf).
  fold st1 in Hq, Hvis, Hf. simpl in Hq, Hvis, Hf.
  assert (Hfilter : filter (λ u, u ∉ ({[xmlUrl]} ∪ ∅ : gset string)) (children rt xmlUrl)
                    = children rt xmlUrl).
  { apply filter_all. intros c Hc. destruct (Hleaf c Hc) as (_ & ? & _). set_solver. }
  rewrite Hfilter, app_nil_r in Hq.
  intros Hres.
  destruct (crawl rt _ fuel st1) as [st'| |] eqn:Hrun; [|done..]. simpl.
  rewrite (crawl_leaves _ _ _ _ Hrun).
  - by rewrite Hf, Hq.
  - rewrite Hq. by apply NoDup_rev_stack.
  - intros c Hc. rewrite Hq, elem_of_rev in Hc.
    destruct (Hleaf c Hc) as (? & ? & ?). rewrite Hvis. repeat split; [done| |done].
    set_solver.
Qed.

End Driver.

(** * Further properties of the extractors *)

Section Entries.

Context (rt : Runtime) (base : string).

(** The text of a scalar, as the generic fallback reads it. *)
Definition scalarText (kv : string * value) : string :=
  trim (String_ rt (kv.2 ?? JStr "")).

(** The scalar marks a URL, by its key or by its text. *)
Definition marksUrl (kv : string * value) : bool :=
  urlKeyLike kv.1 || urlLike (scalarText kv).

Lemma scan_keeps_url scalars : ∀ found s,
  found.1 = Some s → s ≠ "" →
  (fold_left (scanScalar rt) scalars found).1 = Some s.
Proof.
  induction scalars as [|kv scalars IH]; intros found s Hfound Hs; [done|].
  simpl. apply IH; [|done]. unfold scanScalar. cbn [fst].
  rewrite Hfound. cbn [unset]. by apply String.eqb_neq in Hs as ->.
Qed.

(** X10. Within one node the first scalar that marks a URL and has text
    wins: scalars before it that do not mark a URL, or mark one with empty
    text, do not count, and no scalar after it replaces it. *)
Theorem scan_first_url_wins (pre post : list (string * value)) (kv : string * value) :
  Forall (λ x, marksUrl x = false ∨ scalarText x = "") pre →
  marksUrl kv = true → scalarText kv ≠ "" →
  (fold_left (scanScalar rt) (pre ++ kv :: post) (None, None)).1 = Some (scalarText kv).
Proof.
  intros Hpre Hkv Htext.
  assert (Hgen : ∀ found, unset found.1 = true →
            (fold_left (scanScalar rt) (pre ++ kv :: post) found).1 = Some (scalarText kv)).
  { induction Hpre as [|x pre Hx _ IH]; intros found Hun; simpl.
    - apply scan_keeps_url; [|done]. unfold scanScalar. cbn [fst].
      fold (scalarText kv). unfold marksUrl in Hkv. by rewrite Hun, Hkv.
    - apply IH. unfold scanScalar. cbn [fst]. fold (scalarText x). rewrite Hun.
      unfold marksUrl in Hx. destruct Hx as [Hx|Hx].
      + by rewrite Hx.
      + destruct (_ || _); [|done]. simpl. by rewrite Hx. }
  by apply Hgen.
Qed.

Lemma altLink_readable fromTs ts l st :
  is_Some (altRel l) → ∃ st', altLink rt base fromTs ts l st = Ok st'.
Proof.
  intros [rel Hrel]. unfold altLink. rewrite Hrel.
  destruct (_ || _); [by eexists|].
  destruct (URL_resolve rt _ base); [|by eexists].
  destruct (decide _); [by eexists|].
  destruct (includeByFrom _ _); by eexists.
Qed.

Lemma for_each_throws {A} (f : A → state → outcome) e pre x post :
  Forall (λ y, ∀ st, ∃ st', f y st = Ok st') pre →
  (∀ st, f x st = Throw e st) →
  ∀ st, ∃ st', for_each f (pre ++ x :: post) st = Throw e st'.
Proof.
  intros Hpre Hx. induction Hpre as [|y pre Hy _ IH]; intros st; simpl.
  - rewrite Hx. by eexists.
  - destruct (Hy st) as [st' ->]. apply IH.
Qed.

(** X11. A relation that is not a string stops the whole call: in a URL-set
    entry that is included, the first alternate link whose relation cannot
    be lower-cased throws a [TypeError] out of the entry, and so does the
    first such link of an Atom entry, before any link is chosen. *)
Theorem unreadable_relation_throws (fromTs : option float) :
  (∀ it pre l post st,
     truthy (it?."loc") = true → includeByFrom (urlTs rt it) fromTs = true →
     altLinks it = pre ++ l :: post →
     Forall (λ x, is_Some (altRel x)) pre → altRel l = None →
     ∃ st', urlEntry rt base fromTs it st = Throw TypeError st')
  ∧ (∀ it pre l post st,
       it?."link" = JArr (pre ++ l :: post) →
       Forall (λ x, rel_ok x ∧ is_alternate x = false) pre → atomRel l = None →
       atomEntry rt base fromTs it st = Throw TypeError st).
Proof.
  split.
  - intros it pre l post st Hloc Hinc Hlinks Hpre Hrel.
    unfold urlEntry. rewrite Hloc, Hinc, Hlinks.
    replace (negb match fromTs with Some _ => true && true | None => true end) with false
      by (by destruct fromTs).
    apply for_each_throws.
    + eapply Forall_impl; [exact Hpre|]. intros x Hx st0. by apply altLink_readable.
    + intros st0. unfold altLink. by rewrite Hrel.
  - intros it pre l post st Hlink Hpre Hrel.
    unfold atomEntry, atomLink. rewrite Hlink.
    assert (Hgo : ∀ chosen, chooseLink (pre ++ l :: post) chosen = None).
    { clear Hlink. induction Hpre as [|x pre Hx _ IH]; intros chosen; simpl.
      - by rewrite Hrel.
      - destruct Hx as [[rel Hx] Halt]. unfold is_alternate in Halt.
        rewrite Hx in Halt. rewrite Hx, Halt. apply IH. }
    by rewrite Hgo.
Qed.

(** X12. The timestamp of a URL-set entry: a [lastmod] that normalises wins;
    without one the first News date is taken, then the first Video date -
    each normalised a second time, as a number, so that a News or Video
    date whose milliseconds compare below 10^12 counts a thousandfold. *)
Theorem urlTs_priority (it : value) :
  (isFinite (toTs rt (lastmodOf it)) = true → urlTs rt it = toTs rt (lastmodOf it))
  ∧ (isFinite (toTs rt (lastmodOf it)) = false →
     isFinite (scale (firstTs rt (newsDates it))) = true →
     urlTs rt it = scale (firstTs rt (newsDates it)))
  ∧ (isFinite (toTs rt (lastmodOf it)) = false →
     isFinite (scale (firstTs rt (newsDates it))) = false →
     isFinite (scale (firstTs rt (videoDates it))) = true →
     urlTs rt it = scale (firstTs rt (videoDates it)))
  ∧ (isFinite (toTs rt (lastmodOf it)) = false →
     isFinite (scale (firstTs rt (newsDates it))) = false →
     isFinite (scale (firstTs rt (videoDates it))) = false →
     urlTs rt it = nan).
Proof.
  assert (Hnum : ∀ x, toTs rt (JNum x) = scale x) by done.
  unfold urlTs. cbn [firstTs]. rewrite !Hnum.
  repeat split; intros; repeat match goal with H : isFinite _ = _ |- _ => rewrite H end;
    done.
Qed.

End Entries.

(** * A lower bound only removes URLs *)

Section Filter.

Context (rt : Runtime).

(** [fF] emits a part of what [fN] emits. *)
Definition thins (fF fN : state → state) : Prop :=
  ∃ newF newN, newF ⊆ newN
    ∧ (∀ st, fF st = emit_all newF st) ∧ (∀ st, fN st = emit_all newN st).

(** The same for extractors that may throw: when [fN] does not throw,
    neither does [fF], and it emits a part of what [fN] emits. *)
Definition narrows (fF fN : state → outcome) : Prop :=
  ∃ newF eF newN eN,
    (∀ st, fF st = ending eF (emit_all newF st))
    ∧ (∀ st, fN st = ending eN (emit_all newN st))
    ∧ (eN = None → eF = None ∧ newF ⊆ newN).

Lemma thins_same base f : emits rt base f → thins f f.
Proof. intros (new & _ & Hf). by exists new, new. Qed.

Lemma thins_drop base f : emits rt base f → thins (λ st, st) f.
Proof. intros (new & _ & Hf). exists [], new. split; [|done]. by intros x Hx%elem_of_nil. Qed.

Lemma narrows_ok fF fN : thins fF fN → narrows (λ st, Ok (fF st)) (λ st, Ok (fN st)).
Proof.
  intros (newF & newN & Hsub & HF & HN). exists newF, None, newN, None.
  split; [intros st; by rewrite HF|]. split; [intros st; by rewrite HN|done].
Qed.

Lemma narrows_same base f : harvests rt base f → narrows f f.
Proof. intros (new & e & _ & Hf). by exists new, e, new, e. Qed.

Lemma narrows_skip base f : harvests rt base f → narrows Ok f.
Proof.
  intros (new & e & _ & Hf). exists [], None, new, e. split; [done|]. split; [done|].
  intros _. split; [done|]. by intros x Hx%elem_of_nil.
Qed.

Lemma narrows_ext (fF fF' fN fN' : state → outcome) :
  (∀ st, fF st = fF' st) → (∀ st, fN st = fN' st) → narrows fF fN → narrows fF' fN'.
Proof.
  intros HF HN (newF & eF & newN & eN & H1 & H2 & H3). exists newF, eF, newN, eN.
  split; [intros st; by rewrite <- HF|]. split; [intros st; by rewrite <- HN|done].
Qed.

Lemma narrows_then (fF fN gF gN : state → outcome) :
  narrows fF fN → narrows gF gN →
  narrows (λ st, match fF st with Ok st' => gF st' | o => o end)
          (λ st, match fN st with Ok st' => gN st' | o => o end).
Proof.
  intros (nF1 & eF1 & nN1 & eN1 & HF1 & HN1 & H1) (nF2 & eF2 & nN2 & eN2 & HF2 & HN2 & H2).
  destruct eN1 as [eN1|].
  { destruct eF1 as [eF1|].
    - exists nF1, (Some eF1), nN1, (Some eN1).
      split; [intros st; by rewrite HF1|]. split; [intros st; by rewrite HN1|done].
    - exists (nF1 ++ nF2), eF2, nN1, (Some eN1).
      split; [intros st; by rewrite HF1; simpl; rewrite HF2, emit_all_app|].
      split; [intros st; by rewrite HN1|done]. }
  destruct H1 as [-> Hsub1]; [done|].
  exists (nF1 ++ nF2), eF2, (nN1 ++ nN2), eN2.
  split; [intros st; by rewrite HF1; simpl; rewrite HF2, emit_all_app|].
  split; [intros st; by rewrite HN1; simpl; rewrite HN2, emit_all_app|].
  intros HeN. destruct (H2 HeN) as [-> Hsub2]. split; [done|]. set_solver.
Qed.

Lemma narrows_for_each {A} (f g : A → state → outcome) (l : list A) :
  (∀ x, narrows (f x) (g x)) → narrows (for_each f l) (for_each g l).
Proof.
  intros Hfg. induction l as [|x l IH].
  - apply (narrows_ok (λ st, st) (λ st, st)). by exists [], [].
  - apply (narrows_then (f x) (g x) (for_each f l) (for_each g l)); [apply Hfg|apply IH].
Qed.

(** The bound [fF] lets through only timestamps that [fN] lets through. *)
Definition stricter (fF fN : option float) : Prop :=
  ∀ ts, includeByFrom ts fF = true → includeByFrom ts fN = true.

Section Extractors.

Context (base : string) (fF fN : option float).
Hypothesis Hstricter : stricter fF fN.

Lemma thins_feedItem link ts :
  thins (feedItem rt base fF link ts) (feedItem rt base fN link ts).
Proof.
  unfold feedItem. destruct (negb (truthy link)); [apply (thins_same base), emits_id|].
  destruct (includeByFrom ts fF) eqn:HF; cbn [negb].
  - rewrite (Hstricter ts HF). apply (thins_same base), emits_try_emit.
  - destruct (negb _); [apply (thins_same base), emits_id|].
    apply (thins_drop base), emits_try_emit.
Qed.

Lemma urlEntry_included f it st :
  truthy (it?."loc") = true → includeByFrom (urlTs rt it) f = true →
  urlEntry rt base f it st
  = for_each (altLink rt base None (urlTs rt it)) (altLinks it)
      (try_emit rt (trim (String_ rt (it?."loc"))) base st).
Proof.
  intros Hloc Hinc. unfold urlEntry. rewrite Hloc, Hinc.
  replace (negb match f with Some _ => true && true | None => true end) with false
    by (by destruct f).
  generalize (try_emit rt (trim (String_ rt (it?."loc"))) base st).
  induction (altLinks it) as [|l ls IH]; intros st'; simpl; [done|].
  assert (Hl : altLink rt base f (urlTs rt it) l st'
               = altLink rt base None (urlTs rt it) l st').
  { unfold altLink. by rewrite Hinc. }
  rewrite Hl. destruct (altLink rt base None _ l st'); [apply IH|done|done].
Qed.

Lemma narrows_urlEntry it :
  narrows (urlEntry rt base fF it) (urlEntry rt base fN it).
Proof.
  destruct (truthy (it?."loc")) eqn:Hloc.
  2:{ apply (narrows_ext Ok _ Ok _); [| |apply (narrows_same base), harvests_skip];
        intros st; unfold urlEntry; rewrite Hloc; [by destruct fF|by destruct fN]. }
  destruct (includeByFrom (urlTs rt it) fF) eqn:Hinc.
  - apply (narrows_ext (urlEntry rt base fN it) _ (urlEntry rt base fN it) _);
      [|done|apply (narrows_same base), harvests_urlEntry].
    intros st. rewrite !urlEntry_included; auto.
  - apply (narrows_ext Ok _ (urlEntry rt base fN it) _);
      [|done|apply (narrows_skip base), harvests_urlEntry].
    intros st. unfold urlEntry. rewrite Hloc, Hinc. destruct fF; [done|]. done.
Qed.

Lemma narrows_atomEntry it :
  narrows (atomEntry rt base fF it) (atomEntry rt base fN it).
Proof.
  unfold atomEntry. destruct (atomLink it) as [linkVal|].
  - apply (narrows_ok (feedItem rt base fF linkVal (atomTs rt it))
                      (feedItem rt base fN linkVal (atomTs rt it))), thins_feedItem.
  - apply (narrows_same base), harvests_throw.
Qed.

Lemma thins_genericEmit found :
  thins (genericEmit rt base fF found) (genericEmit rt base fN found).
Proof.
  unfold genericEmit. destruct found.1 as [foundUrl|]; [|apply (thins_same base), emits_id].
  destruct (String.eqb foundUrl ""); [apply (thins_same base), emits_id|].
  destruct fF as [lbF|], fN as [lbN|].
  - destruct found.2 as [foundDate|]; [|apply (thins_same base), emits_id].
    destruct (String.eqb foundDate ""); [apply (thins_same base), emits_id|].
    destruct (includeByFrom (toTs rt (JStr foundDate)) (Some lbF)) eqn:HF.
    + rewrite (Hstricter _ HF). apply (thins_same base), emits_try_emit.
    + destruct (includeByFrom (toTs rt (JStr foundDate)) (Some lbN)).
      * apply (thins_drop base), emits_try_emit.
      * apply (thins_same base), emits_id.
  - destruct found.2 as [foundDate|]; [|apply (thins_drop base), emits_try_emit].
    destruct (String.eqb foundDate ""); [apply (thins_drop base), emits_try_emit|].
    destruct (includeByFrom (toTs rt (JStr foundDate)) (Some lbF)).
    + apply (thins_same base), emits_try_emit.
    + apply (thins_drop base), emits_try_emit.
  - specialize (Hstricter nan eq_refl). by rewrite includeByFrom_nan in Hstricter.
  - apply (thins_same base), emits_try_emit.
Qed.

Lemma thins_genericLoop fuel : ∀ stack,
  (stack_size stack < fuel)%nat →
  ∃ newF newN, newF ⊆ newN
    ∧ (∀ st, genericLoop rt base fF fuel stack st = Some (emit_all newF st))
    ∧ (∀ st, genericLoop rt base fN fuel stack st = Some (emit_all newN st)).
Proof.
  induction fuel as [|fuel IH]; intros stack Hfuel; [lia|].
  destruct stack as [|node stack].
  { by exists [], []. }
  assert (Hstack : stack_size (node :: stack) = vsize node + stack_size stack) by done.
  pose proof (vsize_pos node) as Hpos.
  assert (Hskip : ∃ newF newN, newF ⊆ newN
            ∧ (∀ st, genericLoop rt base fF fuel stack st = Some (emit_all newF st))
            ∧ (∀ st, genericLoop rt base fN fuel stack st = Some (emit_all newN st)))
    by (apply IH; lia).
  assert (Harr : ∀ xs, node = JArr xs →
            ∃ newF newN, newF ⊆ newN
              ∧ (∀ st, genericLoop rt base fF fuel (rev xs ++ stack) st
                       = Some (emit_all newF st))
              ∧ (∀ st, genericLoop rt base fN fuel (rev xs ++ stack) st
                       = Some (emit_all newN st))).
  { intros xs ->. apply IH. rewrite stack_size_app, stack_size_rev.
    simpl in Hstack. unfold stack_size at 1. lia. }
  assert (Hobj : ∀ found,
            ∃ newF newN, newF ⊆ newN
              ∧ (∀ st, genericLoop rt base fF fuel
                         (rev (filter (λ v, is_child v) (map snd (entries node))) ++ stack)
                         (genericEmit rt base fF found st)
                       = Some (emit_all newF st))
              ∧ (∀ st, genericLoop rt base fN fuel
                         (rev (filter (λ v, is_child v) (map snd (entries node))) ++ stack)
                         (genericEmit rt base fN found st)
                       = Some (emit_all newN st))).
  { intros found.
    destruct (IH (rev (filter (λ v, is_child v) (map snd (entries node))) ++ stack))
      as (f2 & n2 & Hsub2 & HF2 & HN2).
    - rewrite stack_size_app, stack_size_rev.
      destruct node as [| | | | | | | |kvs]; simpl in *; rewrite Hstack in Hfuel; try lia.
      pose proof (stack_size_children kvs). lia.
    - destruct (thins_genericEmit found) as (f1 & n1 & Hsub1 & HF1 & HN1).
      exists (f1 ++ f2), (n1 ++ n2). split; [set_solver|].
      split; intros st; [by rewrite HF2, HF1, emit_all_app|by rewrite HN2, HN1, emit_all_app]. }
  destruct node; simpl; eauto.
  - destruct b; simpl; eauto.
  - destruct (negb (PrimFloat.is_zero x || PrimFloat.is_nan x)); simpl; eauto.
  - destruct (negb (String.eqb s "")); simpl; eauto.
Qed.

Lemma narrows_genericFallback data :
  narrows (genericFallback rt base fF data) (genericFallback rt base fN data).
Proof.
  destruct (thins_genericLoop (S (vsize data)) [data]) as (newF & newN & Hsub & HF & HN).
  { unfold stack_size. simpl. lia. }
  exists newF, None, newN, None. unfold genericFallback.
  split; [intros st; by rewrite HF|]. split; [intros st; by rewrite HN|done].
Qed.

End Extractors.

Section Runs.

Context (fF fN : option float).
Hypothesis Hstricter : stricter fF fN.

Lemma visitDoc_narrows c :
  ∃ newF eF newN eN,
    (∀ st, visitDoc rt fF c st
           = ending eF (emit_all newF (enqueue (children rt c) (log_fetch c (visit c st)))))
    ∧ (∀ st, visitDoc rt fN c st
             = ending eN (emit_all newN (enqueue (children rt c) (log_fetch c (visit c st)))))
    ∧ (eN = None → eF = None ∧ newF ⊆ newN).
Proof.
  unfold visitDoc, children, document.
  assert (Hnone : ∃ newF eF newN eN,
            (∀ st, Ok (log_fetch c (visit c st))
                   = ending eF (emit_all newF (enqueue [] (log_fetch c (visit c st)))))
            ∧ (∀ st, Ok (log_fetch c (visit c st))
                     = ending eN (emit_all newN (enqueue [] (log_fetch c (visit c st)))))
            ∧ (eN = None → eF = None ∧ newF ⊆ newN)).
  { exists [], None, [], None. split; [|split; [|done]]; intros st; by rewrite enqueue_nil. }
  destruct (fetch rt c) as [res|] eqn:Hfetch; [|done].
  destruct (res_ok res); [|done].
  destruct (res_body res) as [| |data]; [|done|].
  { exists [], (Some BodyReadError), [], (Some BodyReadError).
    split; [|split; [|done]]; intros st; by rewrite enqueue_nil. }
  assert (Hnar : ∀ gF gN, narrows gF gN →
            ∃ newF eF newN eN,
              (∀ st, gF (log_fetch c (visit c st))
                     = ending eF (emit_all newF (enqueue [] (log_fetch c (visit c st)))))
              ∧ (∀ st, gN (log_fetch c (visit c st))
                       = ending eN (emit_all newN (enqueue [] (log_fetch c (visit c st)))))
              ∧ (eN = None → eF = None ∧ newF ⊆ newN)).
  { intros gF gN (newF & eF & newN & eN & HF & HN & H). exists newF, eF, newN, eN.
    split; [|split; [|done]]; intros st; by rewrite enqueue_nil. }
  cbn [negb]. unfold processDoc.
  destruct (truthy (data?."sitemapindex"?."sitemap")).
  { exists [], None, [], None.
    split; [|split; [|done]]; intros st; by rewrite sitemapIndex_spec. }
  destruct (truthy _); [apply Hnar, narrows_for_each; intros it; by apply narrows_urlEntry|].
  destruct (truthy _).
  { apply Hnar, narrows_for_each. intros it.
    apply (narrows_ok (feedItem rt _ fF (rssLink it) (rssTs rt it))
                      (feedItem rt _ fN (rssLink it) (rssTs rt it))). by apply thins_feedItem. }
  destruct (truthy _); [apply Hnar, narrows_for_each; intros it; by apply narrows_atomEntry|].
  destruct (_ || _).
  { apply Hnar, narrows_for_each. intros it.
    apply (narrows_ok (feedItem rt _ fF (rdfLink it) (rdfTs rt it))
                      (feedItem rt _ fN (rdfLink it) (rdfTs rt it))). by apply thins_feedItem. }
  apply Hnar. by apply narrows_genericFallback.
Qed.

(** The set of seen URLs is the set of the results. *)
Definition tracked (st : state) : Prop := ∀ u, u ∈ seen st ↔ u ∈ results st.

Lemma tracked_emit_all new : ∀ st,
  tracked st →
  tracked (emit_all new st) ∧ ∀ u, u ∈ results (emit_all new st) ↔ u ∈ results st ∨ u ∈ new.
Proof.
  induction new as [|a new IH]; intros st Ht; simpl.
  { split; [done|]. set_solver. }
  assert (Ha : tracked (emit a st) ∧ ∀ u, u ∈ results (emit a st) ↔ u ∈ results st ∨ u = a).
  { unfold emit. destruct (decide _) as [Hin|Hout]; simpl in *.
    - split; [done|]. intros u. split; [tauto|]. intros [Hu| ->]; [done|]. by apply Ht.
    - split; intros u; [specialize (Ht u)|]; set_solver. }
  destruct Ha as [Ht' Hres]. destruct (IH _ Ht') as [Ht'' Hres'].
  split; [done|]. intros u. rewrite Hres', Hres. set_solver.
Qed.

(** The run under the stricter bound walks the same frontier as the other
    run and holds a part of its results. *)
Definition follows (stF stN : state) : Prop :=
  queue stF = queue stN ∧ visited stF = visited stN ∧ fetched stF = fetched stN
  ∧ results stF ⊆ results stN ∧ tracked stF ∧ tracked stN.

Lemma follows_set_queue q stF stN :
  follows stF stN → follows (set_queue q stF) (set_queue q stN).
Proof. intros (Hq & Hv & Hf & Hr & HtF & HtN). unfold follows. simpl. tauto. Qed.

Lemma follows_visit newF newN c stF stN :
  follows stF stN → newF ⊆ newN →
  follows (emit_all newF (enqueue (children rt c) (log_fetch c (visit c stF))))
          (emit_all newN (enqueue (children rt c) (log_fetch c (visit c stN)))).
Proof.
  intros (Hq & Hv & Hf & Hr & HtF & HtN) Hsub.
  set (xF := enqueue (children rt c) (log_fetch c (visit c stF))).
  set (xN := enqueue (children rt c) (log_fetch c (visit c stN))).
  assert (Hx : follows xF xN).
  { unfold xF, xN, enqueue, follows. simpl. rewrite Hq, Hv, Hf. tauto. }
  destruct Hx as (Hq' & Hv' & Hf' & Hr' & HtF' & HtN'). unfold follows.
  destruct (emit_all_frame newF xF) as (-> & -> & -> & _).
  destruct (emit_all_frame newN xN) as (-> & -> & -> & _).
  destruct (tracked_emit_all newF xF HtF') as [HF HresF].
  destruct (tracked_emit_all newN xN HtN') as [HN HresN].
  split; [done|]. split; [done|]. split; [done|]. split; [|done].
  intros u. rewrite HresF, HresN. set_solver.
Qed.

Lemma crawl_follows fuel : ∀ stF stN stN',
  follows stF stN → crawl rt fN fuel stN = Ok stN' →
  ∃ stF', crawl rt fF fuel stF = Ok stF' ∧ follows stF' stN'.
Proof.
  induction fuel as [|fuel IH]; intros stF stN stN' Hfol Hrun; [done|].
  rewrite crawl_S in *. pose proof Hfol as (Hq & Hv & _).
  rewrite Hq. destruct (queue stN) as [|c q]; [exists stF; split; [done|congruence]|].
  assert (Hvis : visited (set_queue q stF) = visited (set_queue q stN)) by done.
  rewrite Hvis. apply (follows_set_queue q) in Hfol.
  destruct (String.eqb c "" || bool_decide (c ∈ visited (set_queue q stN))).
  { by apply (IH _ (set_queue q stN)). }
  destruct (visitDoc_narrows c) as (newF & eF & newN & eN & HF & HN & Hnar).
  rewrite HF. rewrite HN in Hrun. destruct eN as [eN|]; [done|].
  destruct Hnar as [-> Hsub]; [done|]. simpl in *.
  eapply IH; [|exact Hrun]. by apply follows_visit.
Qed.

Lemma run_follows fuel xmlUrl urls :
  finish (crawl rt fN fuel (initial xmlUrl)) = mkRun (Resolved urls)
         (fetches (finish (crawl rt fN fuel (initial xmlUrl)))) →
  ∃ kept, settled (finish (crawl rt fF fuel (initial xmlUrl))) = Resolved kept
          ∧ kept ⊆ urls
          ∧ fetches (finish (crawl rt fF fuel (initial xmlUrl)))
            = fetches (finish (crawl rt fN fuel (initial xmlUrl))).
Proof.
  destruct (crawl rt fN fuel (initial xmlUrl)) as [stN'| |] eqn:Hrun; [|done|done].
  intros [= <-].
  destruct (crawl_follows fuel (initial xmlUrl) (initial xmlUrl) stN')
    as (stF' & -> & (_ & _ & Hf & Hr & _)); [|done|].
  { unfold follows, tracked. simpl. set_solver. }
  exists (results stF'). simpl. by rewrite Hf.
Qed.

End Runs.

Lemma finite_not_absent v : isFinite (toTs rt v) = true → absent v = false.
Proof.
  unfold toTs, absent. by destruct (nullish v || is_empty_string v).
Qed.

Lemma resolved_finish o urls :
  settled (finish o) = Resolved urls → finish o = mkRun (Resolved urls) (fetches (finish o)).
Proof. destruct o; simpl; congruence. Qed.

(** X13. A lower bound only removes URLs: when the call without a date
    resolves, the call with a valid date resolves as well, fetches the same
    documents in the same order, and every URL it returns is one the call
    without a date returns. *)
Theorem lower_bound_only_removes (fuel : nat) (xmlUrl : string) (fromDate : value)
    (urls : list string) :
  absent fromDate = true ∨ isFinite (toTs rt fromDate) = true →
  settled (getSitemapUrls rt fuel xmlUrl JNull) = Resolved urls →
  ∃ kept, settled (getSitemapUrls rt fuel xmlUrl fromDate) = Resolved kept
          ∧ kept ⊆ urls
          ∧ fetches (getSitemapUrls rt fuel xmlUrl fromDate)
            = fetches (getSitemapUrls rt fuel xmlUrl JNull).
Proof.
  intros Hvalid. unfold getSitemapUrls, lowerBound. cbn [absent nullish orb negb andb].
  destruct (absent fromDate) eqn:Habs; cbn [negb andb].
  { intros Hrun. exists urls. by rewrite Hrun. }
  destruct Hvalid as [|Hfin]; [done|]. rewrite Hfin. cbn [negb].
  intros Hrun. by apply run_follows, resolved_finish.
Qed.

Lemma SFleb_trans (x y z : spec_float) :
  SFleb x y = true → SFleb y z = true → SFleb x z = true.
Proof.
  unfold SFleb.
  destruct x as [sx|sx| |sx mx ex], y as [sy|sy| |sy my ey], z as [sz|sz| |sz mz ez];
    simpl; try done;
    try (destruct sx; try done; destruct sy; try done; destruct sz; done);
    try (destruct sx; try done; destruct sz; try done; destruct sy; done);
    try (destruct sy; try done; destruct sz; try done; destruct sx; done).
  destruct sx, sy, sz; simpl; try done;
    destruct (Z.compare_spec ex ey), (Z.compare_spec ey ez), (Z.compare_spec ex ez);
    simpl; try done; try lia; subst;
    repeat match goal with
           | |- context [PosDef.Pos.compare_cont Eq ?a ?b] =>
               change (PosDef.Pos.compare_cont Eq a b) with (Pos.compare a b)
           end;
    destruct (Pos.compare_spec mx my), (Pos.compare_spec my mz), (Pos.compare_spec mx mz);
    simpl; try done; lia.
Qed.

(** X18. A later lower bound removes more: of two valid dates, when the
    call with the earlier one resolves, the call with the later one
    resolves as well, fetches the same documents in the same order, and
    returns only URLs that the call with the earlier date returns. *)
Theorem later_bound_removes_more (fuel : nat) (xmlUrl : string) (earlier later : value)
    (urls : list string) :
  isFinite (toTs rt earlier) = true → isFinite (toTs rt later) = true →
  (toTs rt earlier <=? toTs rt later)%float = true →
  settled (getSitemapUrls rt fuel xmlUrl earlier) = Resolved urls →
  ∃ kept, settled (getSitemapUrls rt fuel xmlUrl later) = Resolved kept
          ∧ kept ⊆ urls
          ∧ fetches (getSitemapUrls rt fuel xmlUrl later)
            = fetches (getSitemapUrls rt fuel xmlUrl earlier).
Proof.
  intros Hearlier Hlater Hle. unfold getSitemapUrls, lowerBound.
  rewrite (finite_not_absent _ Hearlier), (finite_not_absent _ Hlater), Hearlier, Hlater.
  cbn [negb andb]. intros Hrun. apply run_follows; [|by apply resolved_finish].
  intros ts. unfold includeByFrom. intros [Hfin Hts]%andb_true_iff.
  rewrite Hfin. cbn [andb]. rewrite FloatAxioms.leb_spec in *.
  by eapply SFleb_trans.
Qed.

End Filter.

(** * The generic fallback as a traversal *)

Section Traversal.

Context (rt : Runtime) (base : string) (fromTs : option float).

(** The URL and the date found among the scalars of an object. *)
Definition foundIn (kvs : list (string * value)) : option string * option string :=
  fold_left (scanScalar rt) (filter (λ kv, negb (is_child kv.2)) kvs) (None, None).

(** The fallback by recursion on the parsed tree: an object first emits
    for its own scalars; the members of an array and the children of an
    object are then walked from the last one to the first. *)
Fixpoint walk (v : value) (st : state) : state :=
  match v with
  | JArr xs => fold_right walk st xs
  | JObj kvs =>
      fold_right (λ kv acc, if is_child kv.2 then walk kv.2 acc else acc)
                 (genericEmit rt base fromTs (foundIn kvs) st) kvs
  | _ => st
  end.

Lemma fold_left_rev {A B} (f : A → B → B) (l : list A) (i : B) :
  fold_left (λ acc x, f x acc) (rev l) i = fold_right f i l.
Proof. rewrite <- (rev_involutive l) at 2. by rewrite fold_left_rev_right. Qed.

Lemma walk_children (kvs : list (string * value)) (st : state) :
  fold_left (λ st v, walk v st) (rev (filter (λ v, is_child v) (map snd kvs))) st
  = fold_right (λ kv acc, if is_child kv.2 then walk kv.2 acc else acc) st kvs.
Proof.
  rewrite fold_left_rev.
  induction kvs as [|[k v] kvs IH]; simpl; [done|].
  rewrite filter_cons. simpl. destruct (decide _) as [Hc|Hc].
  - apply Is_true_true in Hc. rewrite Hc. simpl. by rewrite IH.
  - apply Is_true_false in Hc. by rewrite Hc.
Qed.

Lemma walk_falsy v st : truthy v = false → walk v st = st.
Proof. by destruct v. Qed.

Lemma genericLoop_walk fuel : ∀ stack st,
  (stack_size stack < fuel)%nat →
  genericLoop rt base fromTs fuel stack st = Some (fold_left (λ st v, walk v st) stack st).
Proof.
  induction fuel as [|fuel IH]; intros stack st Hfuel; [lia|].
  destruct stack as [|node stack]; [done|].
  assert (Hstack : stack_size (node :: stack) = vsize node + stack_size stack) by done.
  pose proof (vsize_pos node) as Hpos.
  assert (Hskip : ∀ st', genericLoop rt base fromTs fuel stack st'
                         = Some (fold_left (λ st v, walk v st) stack st'))
    by (intros st'; apply IH; lia).
  cbn [genericLoop fold_left].
  destruct (truthy node) eqn:Htruthy; cbn [negb]; [|by rewrite Hskip, walk_falsy].
  destruct node as [| | | | | | |xs|kvs]; try done; cbn [typeof_object negb];
    try (by rewrite Hskip).
  - rewrite IH.
    + by rewrite fold_left_app, fold_left_rev.
    + rewrite stack_size_app, stack_size_rev. simpl in Hstack. unfold stack_size at 1. lia.
  - cbn [entries]. rewrite IH.
    + rewrite fold_left_app, walk_children. done.
    + rewrite stack_size_app, stack_size_rev. pose proof (stack_size_children kvs).
      simpl in *. rewrite Hstack in Hfuel. lia.
Qed.

(** X14. The worklist of the generic fallback is a depth-first traversal
    of the parsed tree: the call returns normally, and its result is the
    one of [walk], in which an object emits for its own scalars before its
    children, and the members of an array - like the children of an object -
    are handled from the last to the first. *)
Theorem genericFallback_depth_first (data : value) (st : state) :
  genericFallback rt base fromTs data st = Ok (walk data st)
  ∧ ∀ xs, genericFallback rt base fromTs (JArr xs) st
          = Ok (fold_left (λ st v, walk v st) (rev xs) st).
Proof.
  assert (Hrun : ∀ v, genericFallback rt base fromTs v st = Ok (walk v st)).
  { intros v. unfold genericFallback. rewrite genericLoop_walk; [done|].
    unfold stack_size. simpl. lia. }
  split; [apply Hrun|]. intros xs. rewrite Hrun. simpl. by rewrite fold_left_rev.
Qed.

End Traversal.

(** * Where a rejection comes from *)

Section Rejections.

Context (rt : Runtime).

Lemma for_each_thrown {A} (f : A → state → outcome) (l : list A) : ∀ st e st',
  for_each f l st = Throw e st' → ∃ x st0, x ∈ l ∧ f x st0 = Throw e st'.
Proof.
  induction l as [|a l IH]; intros st e st' Hrun; simpl in Hrun; [done|].
  destruct (f a st) as [st1|e1 st1|] eqn:Ha; [|injection Hrun as -> ->|done].
  - destruct (IH _ _ _ Hrun) as (x & st0 & Hx & Hthrow). exists x, st0. split; [by right|done].
  - exists a, st. split; [by left|done].
Qed.

Lemma urlEntry_thrown base fromTs it st e st' :
  urlEntry rt base fromTs it st = Throw e st' → e = TypeError.
Proof.
  unfold urlEntry. destruct (negb _); [done|]. intros Hrun.
  apply for_each_thrown in Hrun as (l & st0 & _ & Hl). unfold altLink in Hl.
  destruct (altRel l); [|congruence].
  destruct (_ || _); [done|]. destruct (URL_resolve rt _ base); [|done].
  destruct (decide _); [done|]. by destruct (includeByFrom _ _).
Qed.

Lemma atomEntry_thrown base fromTs it st e st' :
  atomEntry rt base fromTs it st = Throw e st' → e = TypeError.
Proof. unfold atomEntry. destruct (atomLink it); [done|congruence]. Qed.

(** The document that makes a visit throw. *)
Definition offends (e : error) (res : response) : Prop :=
  res_ok res = true
  ∧ ((e = BodyReadError ∧ res_body res = BodyError)
     ∨ (e = TypeError
        ∧ ∃ data, res_body res = Parsed data
            ∧ truthy (data?."sitemapindex"?."sitemap") = false
            ∧ (truthy (data?."urlset"?."url") = true ∨ truthy (data?."feed") = true))).

Lemma visitDoc_thrown fromTs c st e st' :
  visitDoc rt fromTs c st = Throw e st' →
  fetched st' = fetched st ++ [c] ∧ ∃ res, fetch rt c = Some res ∧ offends e res.
Proof.
  intros Hrun. split.
  { destruct (visitDoc_spec rt fromTs c) as (new & e0 & _ & Hspec).
    rewrite Hspec in Hrun. destruct e0; [|done]. injection Hrun as _ <-.
    by destruct (emit_all_frame new (enqueue (children rt c) (log_fetch c (visit c st))))
      as (_ & _ & -> & _). }
  unfold visitDoc in Hrun. destruct (fetch rt c) as [res|]; [|done].
  exists res. split; [done|]. unfold offends.
  destruct (res_ok res); [|done]. split; [done|]. cbn [negb] in Hrun.
  destruct (res_body res) as [| |data]; [left; split; congruence|done|].
  right. unfold processDoc in Hrun.
  destruct (truthy (data?."sitemapindex"?."sitemap")) eqn:Hindex.
  { by rewrite sitemapIndex_spec in Hrun. }
  destruct (truthy (data?."urlset"?."url")) eqn:Hurlset.
  { apply for_each_thrown in Hrun as (it & st0 & _ & Hit).
    apply urlEntry_thrown in Hit. split; [done|]. exists data. tauto. }
  destruct (truthy (data?."rss"?."channel")).
  { by apply for_each_thrown in Hrun as (it & st0 & _ & Hit). }
  destruct (truthy (data?."feed")) eqn:Hfeed.
  { apply for_each_thrown in Hrun as (it & st0 & _ & Hit).
    apply atomEntry_thrown in Hit. split; [done|]. exists data. tauto. }
  destruct (_ || _).
  { by apply for_each_thrown in Hrun as (it & st0 & _ & Hit). }
  unfold genericFallback in Hrun. by destruct (genericLoop _ _ _ _ _ _).
Qed.

Lemma crawl_thrown fromTs fuel : ∀ st e st',
  crawl rt fromTs fuel st = Throw e st' →
  ∃ pre u res, fetched st' = pre ++ [u] ∧ fetch rt u = Some res ∧ offends e res.
Proof.
  induction fuel as [|fuel IH]; intros st e st' Hrun; [done|].
  rewrite crawl_S in Hrun. destruct (queue st) as [|c q]; [done|].
  destruct (_ || _); [by eapply IH|].
  destruct (visitDoc rt fromTs c (set_queue q st)) as [st1|e1 st1|] eqn:Hvisit;
    [by eapply IH| |done].
  injection Hrun as -> ->.
  apply visitDoc_thrown in Hvisit as (Hf & res & Hres & Hoff). by exists (fetched st), c, res.
Qed.

(** *** Values that print

    [String(v)] at line 17 is outside any [try].  For an object it calls
    the object's [toString], and [Object.prototype.toString] when the
    object owns none; an own property [toString] that is not a function -
    the parser makes one for an element of that name - makes it throw a
    [TypeError].  [String_js] is [String] with this outcome ([None]), for
    values that hold no function under these names; [String_], which the
    embedding uses, is its value on the trees where it cannot throw. *)

Fixpoint all_some {A} (l : list (option A)) : option (list A) :=
  match l with
  | [] => Some []
  | x :: r =>
      match x, all_some r with
      | Some a, Some r' => Some (a :: r')
      | _, _ => None
      end
  end.

Fixpoint String_js (v : value) : option string :=
  match v with
  | JArr xs =>
      option_map (String.concat ",")
        (all_some (map (λ x, match x with
                             | JUndef | JNull => Some ""
                             | _ => String_js x
                             end) xs))
  | JObj kvs =>
      if existsb (λ kv, String.eqb kv.1 "toString") kvs then None
      else Some "[object Object]"
  | _ => Some (String_ rt v)
  end.

(** No object of the tree owns a property [toString] or [valueOf]. *)
Fixpoint plain (v : value) : bool :=
  match v with
  | JArr xs => forallb plain xs
  | JObj kvs =>
      forallb (λ kv, negb (String.eqb kv.1 "toString") && negb (String.eqb kv.1 "valueOf")
                     && plain kv.2) kvs
  | _ => true
  end.

Lemma String_js_plain_sized (n : nat) : ∀ v,
  (vsize v ≤ n)%nat → plain v = true → String_js v = Some (String_ rt v).
Proof.
  induction n as [|n IH]; intros v Hsize Hplain.
  { pose proof (vsize_pos v). lia. }
  destruct v as [| | | | | | |xs|kvs]; try done.
  - cbn [String_js String_]. cbn [plain] in Hplain. cbn [vsize] in Hsize.
    assert (Hsum : (list_sum (map vsize xs) ≤ n)%nat) by lia. clear Hsize.
    assert (Hall : all_some (map (λ x, match x with
                                       | JUndef | JNull => Some ""
                                       | _ => String_js x
                                       end) xs)
                   = Some (map (λ x, match x with
                                     | JUndef | JNull => ""
                                     | _ => String_ rt x
                                     end) xs)).
    { induction xs as [|x xs IHxs]; [done|].
      cbn [forallb] in Hplain. apply andb_true_iff in Hplain as [Hx Hxs].
      simpl in Hsum. cbn [map all_some].
      rewrite IHxs by (done || lia).
      assert (Hx' : String_js x = Some (String_ rt x)) by (apply IH; [lia|done]).
      destruct x; try done; by rewrite Hx'. }
    by rewrite Hall.
  - cbn [String_js String_]. cbn [plain] in Hplain.
    assert (Hown : existsb (λ kv, String.eqb kv.1 "toString") kvs = false).
    { clear Hsize. induction kvs as [|kv kvs IHkvs]; [done|].
      cbn [forallb] in Hplain.
      apply andb_true_iff in Hplain as [[[Hk _]%andb_true_iff _]%andb_true_iff Hkvs].
      cbn [existsb]. apply negb_true_iff in Hk. rewrite Hk. by apply IHkvs. }
    by rewrite Hown.
Qed.

(** On a plain tree [String] does not throw, and is [String_]. *)
Lemma String_js_plain (v : value) : plain v = true → String_js v = Some (String_ rt v).
Proof. by apply (String_js_plain_sized (vsize v)). Qed.



End Rejections.

(** * The transport: from a response to a parsed document

    Lines 55-71 and 95-121 of the source, which the [fetch] field of
    [Runtime] stands for: the body is read, gunzipped when it looks
    compressed, decoded and parsed.  What these lines call and do not
    define is the [Platform] record. *)

Module Transport.

(** A [Uint8Array], and a decoded text as UTF-16 code units. *)
Definition bytes : Type := list N.
Definition text : Type := list N.

(** What [fetch] resolves to. *)
Record Response : Type := mkRaw {
  raw_ok : bool;                       (* [res.ok] *)
  raw_url : string;                    (* [res.url] *)
  content_encoding : option string;    (* [res.headers.get("content-encoding")] *)
  content_type : option string;        (* [res.headers.get("content-type")] *)
  arrayBuffer : option bytes }.        (* [None]: the promise rejects *)

Record Platform : Type := mkPlatform {
  (* [fetch(u, {redirect: "follow"})] of undici; [None] when it throws *)
  undici_fetch : string → option Response;
  (* [gunzipSync(buf)]; [None] when it throws *)
  gunzipSync : bytes → option bytes;
  (* [new TextDecoder(label).decode]; [None] when the label is refused *)
  TextDecoder : string → option (bytes → text);
  (* [Buffer.from(buf).toString("latin1")] *)
  latin1 : bytes → text;
  (* [parser.parse(xml)]; [None] when it throws *)
  XMLParser_parse : text → option value }.

Fixpoint take_while (p : ascii → bool) (l : list ascii) : list ascii :=
  match l with
  | c :: r => if p c then c :: take_while p r else []
  | [] => []
  end.

(** [[\w-]] *)
Definition is_label_char (c : ascii) : bool :=
  is_alpha c || is_digit c || is_char "_" c || is_char "-" c.

(** [/charset=([\w-]+)/i] matched at the head of the input: the group. *)
Definition charset_at (l : list ascii) : option (list ascii) :=
  if starts_with (chars "charset=") (map lower_char l) then
    match take_while is_label_char (drop 8 l) with
    | [] => None
    | w => Some w
    end
  else None.

(** [exec]: the leftmost position that matches. *)
Fixpoint charset_exec (l : list ascii) : option (list ascii) :=
  match charset_at l with
  | Some w => Some w
  | None =>
      match l with
      | [] => None
      | _ :: r => charset_exec r
      end
  end.

(** [(m && m[1].toLowerCase()) || "utf-8"], lines 57-58. *)
Definition charsetOf (contentType : string) : string :=
  match charset_exec (chars contentType) with
  | Some w => let label := toLowerCase (str w) in
              if String.eqb label "" then "utf-8" else label
  | None => "utf-8"
  end.

(** [if (xml.charCodeAt(0) === 0xfeff) xml = xml.slice(1)] *)
Definition strip_bom (xml : text) : text :=
  match xml with
  | c :: r => if (c =? 65279)%N then r else xml
  | [] => []
  end.

(** [String.prototype.includes] *)
Fixpoint includes (needle hay : list ascii) : bool :=
  starts_with needle hay
  || match hay with
     | [] => false
     | _ :: r => includes needle r
     end.

(** [(res.headers.get(name) || "").toLowerCase()] *)
Definition header (h : option string) : string :=
  toLowerCase (match h with Some s => s | None => "" end).

(** [buf[0] === 0x1f && buf[1] === 0x8b] *)
Definition gz_magic (buf : bytes) : bool :=
  match buf with
  | b0 :: b1 :: _ => (b0 =? 31)%N && (b1 =? 139)%N
  | _ => false
  end.

Section Pipeline.

Context (p : Platform).

(** [decodeBuffer], lines 55-71. *)
Definition decodeBuffer (buf : bytes) (contentType : string) : text :=
  match TextDecoder p (charsetOf contentType) with
  | Some decode => strip_bom (decode buf)
  | None =>
      match TextDecoder p "utf-8" with
      | Some decode => decode buf
      | None => latin1 p buf
      end
  end.

(** Lines 103-121. *)
Definition body_of (res : Response) : body :=
  match arrayBuffer res with
  | None => BodyError
  | Some buf =>
      let enc := header (content_encoding res) in
      let ctype := header (content_type res) in
      let buf :=
        if includes (chars "gzip") (chars enc) || includes (chars "gzip") (chars ctype)
           || gz_magic buf
        then match gunzipSync p buf with
             | Some plain => plain
             | None => buf
             end
        else buf in
      match XMLParser_parse p (decodeBuffer buf ctype) with
      | Some data => Parsed data
      | None => NotXml
      end
  end.

(** The response as the loop sees it; the body of a response that is not
    [ok] is never read. *)
Definition receive (res : Response) : response :=
  mkResponse (raw_ok res) (raw_url res) (body_of res).

(** The runtime whose [fetch] is this pipeline. *)
Definition over (rt : Runtime) : Runtime :=
  mkRuntime (Date_parse rt) (Number_toString rt) (Date_toString rt) (URL_resolve rt)
            (λ u, option_map receive (undici_fetch p u)).

End Pipeline.

Lemma starts_with_split (key l : list ascii) (f : ascii → ascii) :
  starts_with key (map f l) = true →
  ∃ k rest, l = k ++ rest ∧ map f k = key ∧ drop (length key) l = rest.
Proof.
  revert l. induction key as [|a key IH]; intros l Hl.
  { by exists [], l. }
  destruct l as [|c l]; [done|]. simpl in Hl.
  apply andb_true_iff in Hl as [Hc Hl]. apply Ascii.eqb_eq in Hc.
  destruct (IH l Hl) as (k & rest & -> & Hk & Hdrop).
  exists (c :: k), rest. simpl. by rewrite Hk, Hc.
Qed.

Lemma take_while_spec (q : ascii → bool) (l : list ascii) :
  ∃ rest, l = take_while q l ++ rest
          ∧ Forall (λ c, q c = true) (take_while q l)
          ∧ ∀ c r, rest = c :: r → q c = false.
Proof.
  induction l as [|c l (rest & Hl & Hall & Hrest)]; simpl.
  { exists []. by repeat split. }
  destruct (q c) eqn:Hc.
  - exists rest. split; [simpl; f_equal; exact Hl|]. split; [by constructor|done].
  - exists (c :: l). split; [done|]. split; [constructor|]. by intros c' r [= <- _].
Qed.

(** What a match at the head of the input is. *)
Definition labelled (suf w : list ascii) : Prop :=
  ∃ key rest, suf = key ++ w ++ rest
    ∧ map lower_char key = chars "charset="
    ∧ w ≠ [] ∧ Forall (λ c, is_label_char c = true) w
    ∧ ∀ c r, rest = c :: r → is_label_char c = false.

Lemma charset_at_labelled (suf w : list ascii) : charset_at suf = Some w → labelled suf w.
Proof.
  unfold charset_at. destruct (starts_with _ _) eqn:Hkey; [|done].
  apply starts_with_split in Hkey as (key & rest0 & -> & Hkey & Hdrop).
  change (length (chars "charset=")) with 8%nat in Hdrop. rewrite Hdrop.
  destruct (take_while_spec is_label_char rest0) as (rest & Hsplit & Hall & Hrest).
  destruct (take_while is_label_char rest0) as [|c w'] eqn:Hw; [done|].
  intros [= <-]. exists key, rest. by rewrite <- Hsplit.
Qed.

Lemma charset_exec_leftmost (l : list ascii) :
  match charset_exec l with
  | Some w =>
      ∃ pre suf, l = pre ++ suf ∧ charset_at suf = Some w
        ∧ ∀ pre' suf', l = pre' ++ suf' → (length pre' < length pre)%nat →
                       charset_at suf' = None
  | None => ∀ pre suf, l = pre ++ suf → charset_at suf = None
  end.
Proof.
  induction l as [|c l IH].
  { simpl. intros pre suf Hsplit. symmetry in Hsplit.
    by apply app_eq_nil in Hsplit as [-> ->]. }
  cbn [charset_exec]. destruct (charset_at (c :: l)) as [w|] eqn:Hat.
  { exists [], (c :: l). split; [done|]. split; [done|].
    intros pre' suf' _ Hlen. simpl in Hlen. lia. }
  destruct (charset_exec l) as [w|].
  - destruct IH as (pre & suf & -> & Hsuf & Hleft).
    exists (c :: pre), suf. split; [done|]. split; [done|].
    intros pre' suf' Hsplit Hlen. destruct pre' as [|c' pre'].
    + simpl in Hsplit. by rewrite <- Hsplit.
    + injection Hsplit as _ Hsplit. apply (Hleft pre' suf' Hsplit). simpl in Hlen. lia.
  - intros pre suf Hsplit. destruct pre as [|c' pre].
    + simpl in Hsplit. by rewrite <- Hsplit.
    + injection Hsplit as _ Hsplit. by apply (IH pre suf).
Qed.

(** X16. The charset label [decodeBuffer] asks the decoder for is never
    empty.  It is [utf-8] when no position of the content type carries
    [charset=] (in any case) followed by a word character or a hyphen -
    so also for a quoted label.  Otherwise it is the lower-cased longest
    run of such characters after the leftmost such position. *)
Theorem charset_label_spec (contentType : string) :
  charsetOf contentType ≠ ""
  ∧ (((∀ pre suf, chars contentType = pre ++ suf → charset_at suf = None)
      ∧ charsetOf contentType = "utf-8")
     ∨ ∃ pre suf w,
         chars contentType = pre ++ suf ∧ labelled suf w
         ∧ charsetOf contentType = toLowerCase (str w)
         ∧ ∀ pre' suf', chars contentType = pre' ++ suf' →
                        (length pre' < length pre)%nat → charset_at suf' = None).
Proof.
  unfold charsetOf. pose proof (charset_exec_leftmost (chars contentType)) as Hexec.
  destruct (charset_exec (chars contentType)) as [w|]; [|split; [done|by left]].
  destruct Hexec as (pre & suf & Hsplit & Hat & Hleft).
  pose proof (charset_at_labelled suf w Hat) as Hlab.
  assert (Hne : String.eqb (toLowerCase (str w)) "" = false).
  { destruct Hlab as (_ & _ & _ & _ & Hw & _). destruct w as [|c w]; [done|].
    unfold toLowerCase. rewrite chars_str. simpl. done. }
  rewrite Hne. split; [by apply String.eqb_neq|].
  right. by exists pre, suf, w.
Qed.

(** X17. Only a body that cannot be read rejects the call as a body error:
    over this pipeline a call rejected with [BodyReadError] has fetched,
    last, an accepted response whose [arrayBuffer] rejected.  A gunzip that
    throws, a charset the decoder refuses and a text the parser refuses
    never reject. *)
Theorem only_unread_bodies_reject (p : Platform) (rt : Runtime) (fuel : nat)
    (xmlUrl : string) (fromDate : value) :
  settled (getSitemapUrls (over p rt) fuel xmlUrl fromDate) = Rejected BodyReadError →
  ∃ pre u res,
    fetches (getSitemapUrls (over p rt) fuel xmlUrl fromDate) = pre ++ [u]
    ∧ undici_fetch p u = Some res ∧ raw_ok res = true ∧ arrayBuffer res = None.
Proof.
  assert (Hthrown : ∀ fromTs st',
            crawl (over p rt) fromTs fuel (initial xmlUrl) = Throw BodyReadError st' →
            ∃ pre u res, fetched st' = pre ++ [u]
              ∧ fetch (over p rt) u = Some res ∧ offends BodyReadError res)
    by (intros fromTs st'; apply crawl_thrown).
  unfold getSitemapUrls. destruct (negb (absent fromDate) && _); [done|].
  destruct (crawl (over p rt) _ fuel (initial xmlUrl)) as [st'|e st'|] eqn:Hrun; [done| |done].
  intros [= ->]. destruct (Hthrown _ _ Hrun) as (pre & u & res & Hf & Hres & Hok & Hwhy).
  exists pre, u. simpl in Hres. destruct (undici_fetch p u) as [raw|]; [|done].
  injection Hres as <-. exists raw. split; [done|]. split; [done|]. split; [done|].
  destruct Hwhy as [[_ Hbody]|[? _]]; [|done].
  simpl in Hbody. unfold body_of in Hbody.
  destruct (arrayBuffer raw); [|done]. by destruct (XMLParser_parse p _).
Qed.

End Transport.

(** * The further properties on concrete documents *)

Module Cases.

Definition rt : Runtime := Examples.rt.
Definition base : string := Examples.base.

Definition missing : string := "https://a.example/missing.xml".
Definition broken : string := "https://a.example/broken.xml".

(** A transport whose one document is accepted and cannot be read. *)
Definition unreadable : Runtime :=
  mkRuntime Demo.parse_date (λ _, "0") (λ _, "Invalid Date") Demo.resolve
            (λ u, if String.eqb u broken then Some (mkResponse true u BodyError) else None).

(** An index over two URL sets. *)
Definition flat : Runtime :=
  Demo.runtime
    [(Examples.A, Examples.index [Examples.C; Examples.D]);
     (Examples.C, Examples.urlset [("/c1", "2023-01-01")]);
     (Examples.D, Examples.urlset [("/d1", "2024-05-05")])].

(** A platform on which nothing decodes and no body can be read. *)
Definition deaf : Transport.Platform :=
  Transport.mkPlatform (λ u, Some (Transport.mkRaw true u None None None))
                       (λ _, None) (λ _, None) (λ buf, buf) (λ _, None).

Lemma firstTs_first_finite_witness :
  firstTs rt [JStr "soon"; JUndef; JStr "2024-05-05"; JStr "2023-01-01"]
  = toTs rt (JStr "2024-05-05").
Proof.
  apply (proj1 (firstTs_first_finite rt) [JStr "soon"; JUndef] (JStr "2024-05-05")
           [JStr "2023-01-01"]).
  - repeat constructor.
  - reflexivity.
Defined.

(** An epoch in seconds between two no-break spaces. *)
Definition nbsp : ascii := ascii_of_N 160.

Lemma toTs_ignores_outer_space_witness :
  trim "1700000000" ≠ ""
  ∧ Forall (λ c, is_space c = true) [nbsp; " "%char]
  ∧ Forall (λ c, is_space c = true) [nbsp]
  ∧ toTs rt (JStr (str ([nbsp; " "%char] ++ chars "1700000000" ++ [nbsp])))
    = toTs rt (JStr "1700000000")
  ∧ toTs rt (JStr (str ([nbsp; " "%char] ++ chars "1700000000" ++ [nbsp])))
    = 1700000000000%float.
Proof.
  assert (H : trim "1700000000" ≠ "") by (vm_compute; discriminate).
  assert (H1 : Forall (λ c, is_space c = true) [nbsp; " "%char]) by (repeat constructor).
  assert (H2 : Forall (λ c, is_space c = true) [nbsp]) by (repeat constructor).
  split; [exact H|]. split; [exact H1|]. split; [exact H2|].
  split; [exact (proj2 (toTs_ignores_outer_space rt "1700000000" H) _ _ H1 H2)|].
  reflexivity.
Defined.

Lemma toTs_basic_date_witness :
  Forall (λ c, is_digit c = true) (chars "20240101")
  ∧ toTs rt (JStr "20240101") = Date_parse rt "2024-01-01T00:00:00Z".
Proof.
  assert (H : Forall (λ c, is_digit c = true) (chars "20240101"))
    by (repeat constructor).
  split; [exact H|].
  etransitivity; [exact (toTs_basic_date rt "2" "0" "2" "4" "0" "1" "0" "1" H)|].
  reflexivity.
Defined.

Lemma toTs_unzoned_is_utc_witness :
  Forall (λ c, is_digit c = true) (chars "20230101100000")
  ∧ (" "%char = " "%char ∨ " "%char = "T"%char)
  ∧ toTs rt (JStr "2023-01-01 10:00:00") = Date_parse rt "2023-01-01T10:00:00Z".
Proof.
  assert (H : Forall (λ c, is_digit c = true) (chars "20230101100000"))
    by (repeat constructor).
  assert (Hsep : " "%char = " "%char ∨ " "%char = "T"%char) by (left; reflexivity).
  split; [exact H|]. split; [exact Hsep|].
  etransitivity;
    [exact (toTs_unzoned_is_utc rt " " "2" "0" "2" "3" "0" "1" "0" "1" "1" "0" "0" "0" "0" "0"
              H Hsep)|].
  reflexivity.
Defined.

Definition feed : value :=
  JObj [("rss", JObj [("channel", JObj [("item", JArr [JObj [("link", JStr "/post")]])])])].

Lemma harvest_keeps_frontier_witness :
  truthy (feed?."sitemapindex"?."sitemap") = false
  ∧ ∃ e st' more,
      processDoc rt base None feed (initial "") = ending e st'
      ∧ queue st' = queue (initial "")
      ∧ visited st' = visited (initial "")
      ∧ results st' = results (initial "") ++ more.
Proof.
  assert (H : truthy (feed?."sitemapindex"?."sitemap") = false) by reflexivity.
  split; [exact H|]. exact (harvest_keeps_frontier rt base None feed (initial "") H).
Defined.

Lemma entry_document_failures_witness :
  (absent JUndef = true ∨ isFinite (toTs unreadable JUndef) = true)
  ∧ getSitemapUrls unreadable 2 missing JUndef = mkRun (Resolved []) [missing]
  ∧ getSitemapUrls unreadable 2 broken JUndef = mkRun (Rejected BodyReadError) [broken].
Proof.
  assert (H : absent JUndef = true ∨ isFinite (toTs unreadable JUndef) = true)
    by (left; reflexivity).
  split; [exact H|]. split.
  - apply (entry_document_failures unreadable 0 missing JUndef H); [discriminate|reflexivity].
  - apply (proj2 (proj2 (proj2 (entry_document_failures unreadable 0 broken JUndef H)))
             (mkResponse true broken BodyError)); [discriminate|reflexivity..].
Defined.

Lemma fetches_are_reached_witness :
  Examples.D ∈ fetches (getSitemapUrls rt 10 Examples.A JUndef)
  ∧ (Examples.D = Examples.A
     ∨ ∃ p, p ∈ fetches (getSitemapUrls rt 10 Examples.A JUndef)
            ∧ Examples.D ∈ children rt p).
Proof.
  assert (H : Examples.D ∈ fetches (getSitemapUrls rt 10 Examples.A JUndef)).
  { change (Examples.D ∈ [Examples.A; Examples.C; Examples.B; Examples.D]).
    right. right. right. left. }
  split; [exact H|]. exact (fetches_are_reached rt 10 Examples.A JUndef Examples.D H).
Defined.

Lemma index_children_last_first_witness :
  children flat Examples.A = [Examples.C; Examples.D]
  ∧ fetches (getSitemapUrls flat 10 Examples.A JUndef)
    = Examples.A :: rev (children flat Examples.A).
Proof.
  assert (Hch : children flat Examples.A = [Examples.C; Examples.D]) by reflexivity.
  split; [exact Hch|].
  apply (index_children_last_first flat 10 Examples.A JUndef
           ["https://a.example/d1"; "https://a.example/c1"]).
  - discriminate.
  - rewrite Hch. constructor.
    + intros Hin. apply elem_of_cons in Hin as [Hin|Hin]; [discriminate|].
      by apply elem_of_nil in Hin.
    + constructor; [apply not_elem_of_nil|constructor].
  - intros c Hc. rewrite Hch in Hc. apply elem_of_cons in Hc as [->|Hc].
    { split; [discriminate|]. split; [discriminate|reflexivity]. }
    apply elem_of_cons in Hc as [->|Hc].
    { split; [discriminate|]. split; [discriminate|reflexivity]. }
    by apply elem_of_nil in Hc.
  - reflexivity.
Defined.

Lemma scan_first_url_wins_witness :
  Forall (λ x, marksUrl rt x = false ∨ scalarText rt x = "")
         [("title", JStr "News"); ("url", JNull)]
  ∧ marksUrl rt ("loc", JStr " /a ") = true
  ∧ scalarText rt ("loc", JStr " /a ") ≠ ""
  ∧ (fold_left (scanScalar rt)
       [("title", JStr "News"); ("url", JNull); ("loc", JStr " /a "); ("link", JStr "/b")]
       (None, None)).1 = Some "/a".
Proof.
  assert (H1 : Forall (λ x, marksUrl rt x = false ∨ scalarText rt x = "")
                      [("title", JStr "News"); ("url", JNull)]).
  { constructor; [left; reflexivity|]. constructor; [right; reflexivity|constructor]. }
  assert (H2 : marksUrl rt ("loc", JStr " /a ") = true) by reflexivity.
  assert (H3 : scalarText rt ("loc", JStr " /a ") ≠ "") by (vm_compute; discriminate).
  split; [exact H1|]. split; [exact H2|]. split; [exact H3|].
  exact (scan_first_url_wins rt [("title", JStr "News"); ("url", JNull)]
           [("link", JStr "/b")] ("loc", JStr " /a ") H1 H2 H3).
Defined.

(** A URL-set entry whose second alternate has a number for a relation. *)
Definition numbered : value :=
  JObj [("loc", JStr "/a");
        ("link", JArr [JObj [("href", JStr "/b")];
                       JObj [("rel", JNum 1); ("href", JStr "/c")]])].

(** An Atom entry whose second link has a number for a relation. *)
Definition numbered_links : value :=
  JObj [("link", JArr [JObj [("rel", JStr "self"); ("href", JStr "/s")];
                       JObj [("rel", JNum 1); ("href", JStr "/c")]])].

Lemma unreadable_relation_throws_witness :
  (∃ st', urlEntry rt base None numbered (initial "") = Throw TypeError st')
  ∧ atomEntry rt base None numbered_links (initial "") = Throw TypeError (initial "").
Proof.
  split.
  - apply (proj1 (unreadable_relation_throws rt base None) numbered
             [JObj [("href", JStr "/b")]] (JObj [("rel", JNum 1); ("href", JStr "/c")]) []).
    + reflexivity.
    + reflexivity.
    + reflexivity.
    + constructor; [|constructor]. by eexists.
    + reflexivity.
  - apply (proj2 (unreadable_relation_throws rt base None) numbered_links
             [JObj [("rel", JStr "self"); ("href", JStr "/s")]]
             (JObj [("rel", JNum 1); ("href", JStr "/c")]) []).
    + reflexivity.
    + constructor; [|constructor]. split; [by eexists|reflexivity].
    + reflexivity.
Defined.

Lemma lower_bound_only_removes_witness :
  (absent (JStr "2023-06-01") = true ∨ isFinite (toTs rt (JStr "2023-06-01")) = true)
  ∧ settled (getSitemapUrls rt 10 Examples.A JNull)
    = Resolved ["https://a.example/c1"; "https://a.example/c2"; "https://a.example/d1"]
  ∧ ∃ kept,
      settled (getSitemapUrls rt 10 Examples.A (JStr "2023-06-01")) = Resolved kept
      ∧ kept ⊆ ["https://a.example/c1"; "https://a.example/c2"; "https://a.example/d1"]
      ∧ fetches (getSitemapUrls rt 10 Examples.A (JStr "2023-06-01"))
        = fetches (getSitemapUrls rt 10 Examples.A JNull).
Proof.
  assert (H1 : absent (JStr "2023-06-01") = true
               ∨ isFinite (toTs rt (JStr "2023-06-01")) = true) by (right; reflexivity).
  assert (H2 : settled (getSitemapUrls rt 10 Examples.A JNull)
               = Resolved ["https://a.example/c1"; "https://a.example/c2";
                           "https://a.example/d1"]) by reflexivity.
  split; [exact H1|]. split; [exact H2|].
  exact (lower_bound_only_removes rt 10 Examples.A (JStr "2023-06-01") _ H1 H2).
Defined.

Lemma later_bound_removes_more_witness :
  isFinite (toTs rt (JStr "2023-01-01")) = true
  ∧ isFinite (toTs rt (JStr "2023-06-01")) = true
  ∧ (toTs rt (JStr "2023-01-01") <=? toTs rt (JStr "2023-06-01"))%float = true
  ∧ settled (getSitemapUrls rt 10 Examples.A (JStr "2023-01-01"))
    = Resolved ["https://a.example/c1"; "https://a.example/c2"; "https://a.example/d1"]
  ∧ ∃ kept,
      settled (getSitemapUrls rt 10 Examples.A (JStr "2023-06-01")) = Resolved kept
      ∧ kept ⊆ ["https://a.example/c1"; "https://a.example/c2"; "https://a.example/d1"]
      ∧ fetches (getSitemapUrls rt 10 Examples.A (JStr "2023-06-01"))
        = fetches (getSitemapUrls rt 10 Examples.A (JStr "2023-01-01")).
Proof.
  assert (H1 : isFinite (toTs rt (JStr "2023-01-01")) = true) by reflexivity.
  assert (H2 : isFinite (toTs rt (JStr "2023-06-01")) = true) by reflexivity.
  assert (H3 : (toTs rt (JStr "2023-01-01") <=? toTs rt (JStr "2023-06-01"))%float = true)
    by reflexivity.
  assert (H4 : settled (getSitemapUrls rt 10 Examples.A (JStr "2023-01-01"))
               = Resolved ["https://a.example/c1"; "https://a.example/c2";
                           "https://a.example/d1"]) by reflexivity.
  split; [exact H1|]. split; [exact H2|]. split; [exact H3|]. split; [exact H4|].
  exact (later_bound_removes_more rt 10 Examples.A (JStr "2023-01-01") (JStr "2023-06-01")
           _ H1 H2 H3 H4).
Defined.



Lemma only_unread_bodies_reject_witness :
  settled (getSitemapUrls (Transport.over deaf rt) 5 Examples.A JUndef)
  = Rejected BodyReadError
  ∧ ∃ pre u res,
      fetches (getSitemapUrls (Transport.over deaf rt) 5 Examples.A JUndef) = pre ++ [u]
      ∧ Transport.undici_fetch deaf u = Some res
      ∧ Transport.raw_ok res = true ∧ Transport.arrayBuffer res = None.
Proof.
  assert (H : settled (getSitemapUrls (Transport.over deaf rt) 5 Examples.A JUndef)
              = Rejected BodyReadError) by reflexivity.
  split; [exact H|].
  exact (Transport.only_unread_bodies_reject deaf rt 5 Examples.A JUndef H).
Defined.

(** A quoted label is not read; the label of a plain one is lower-cased up
    to the first character that is neither a word character nor a hyphen. *)
Example charsetOf_quoted :
  Transport.charsetOf
    ("text/xml; charset=" ++ String (ascii_of_N 34) "iso-8859-1" ++ String (ascii_of_N 34) "")
  = "utf-8"
  ∧ Transport.charsetOf "text/xml; Charset=ISO-8859-1; q=1" = "iso-8859-1".
Proof. split; reflexivity. Qed.

(** A flat list of records comes out last record first. *)
Example fallback_reverses :
  results (after (genericFallback rt base None
                    (JArr [JObj [("url", JStr "/one")]; JObj [("url", JStr "/two")]])
                    (initial "")))
  = ["https://a.example/two"; "https://a.example/one"].
Proof. reflexivity. Qed.

End Cases.
